(** * Austack client SDK: the real-time audio pipeline

    A shallow embedding of [sdk/nodejs/src/AudioInterface.ts],
    [WebSocketManager.ts] and [ConversationManager.ts], and the properties
    of the voice-activity detector, the capture buffer, the playback queue,
    the barge-in interrupt and the session lifecycle.

    Conventions of the embedding.
    - A JavaScript [number] holding a sample or an amplitude is an exact
      rational ([Q]).  On [Float32Array] inputs in [-1, 1] the PCM
      conversions only multiply by 32767, truncate and divide by 32768:
      all three are exact in binary64, so on those functions the rational
      model and the code agree value for value.
    - [Date.now()] is an integer number of milliseconds ([Z]); every call
      of it is a separate reading supplied by the environment.
    - [Math.sqrt] is a host function: the development is parametric in it
      (section variable [Math_sqrt]); [Qsqrt] is the instance the examples
      run with.
    - A [Uint8Array] is a list of bytes, each a [Z] in [0, 255]; an
      [Int16Array] element is a [Z] with its 16-bit wrap-around written out.
    - Each class is a record of its fields and each method a function on
      that record.  What a method does to the outside (callbacks, console,
      audio device, socket) is returned as a list of effects, in program
      order; the callbacks never touch the fields of the object that
      calls them. *)

From Stdlib Require Import ZArith QArith Qabs Qround List Bool String DecimalString.
From Stdlib Require Import Lia Lqa.
Import ListNotations.

Local Open Scope Z_scope.

(** ** JavaScript numbers and typed arrays *)

Module Js.

Local Open Scope Q_scope.

(** [a < b] on numbers, as a boolean. *)
Definition ltb (a b : Q) : bool := negb (Qle_bool b a).

(** [a > b]. *)
Definition gtb (a b : Q) : bool := ltb b a.

Definition Math_min (a b : Q) : Q := if Qle_bool a b then a else b.
Definition Math_max (a b : Q) : Q := if Qle_bool a b then b else a.

(** Truncation toward zero, the first step of every integer conversion. *)
Definition trunc (x : Q) : Z := Z.quot (Qnum x) (Zpos (Qden x)).

(** [ToInt16]: truncate, then wrap modulo 2^16 into [-32768, 32767].
    This is what a store into an [Int16Array] does. *)
Definition wrap16 (n : Z) : Z := ((n + 32768) mod 65536 - 32768)%Z.
Definition ToInt16 (x : Q) : Z := wrap16 (trunc x).

(** The two bytes of an [Int16Array] element as a [Uint8Array] view of
    the same buffer shows them (little-endian). *)
Definition int16_bytes (v : Z) : list Z :=
  let u := (v mod 65536)%Z in [(u mod 256)%Z; (u / 256)%Z].

Definition Uint8Array_of_Int16Array (a : list Z) : list Z :=
  flat_map int16_bytes a.

Definition int16_of_pair (lo hi : Z) : Z :=
  let u := (lo + 256 * hi)%Z in
  if (32768 <=? u)%Z then (u - 65536)%Z else u.

(** [new Int16Array(buffer)]: a [RangeError] ([None]) when the byte
    length is odd. *)
Fixpoint Int16Array_of_bytes (bs : list Z) : option (list Z) :=
  match bs with
  | [] => Some []
  | [_] => None
  | lo :: hi :: rest =>
      match Int16Array_of_bytes rest with
      | Some a => Some (int16_of_pair lo hi :: a)
      | None => None
      end
  end.

(** A length as a template literal prints it. *)
Definition decimal (n : nat) : string :=
  NilZero.string_of_uint (Nat.to_uint n).

(** An exact-on-squares rational square root, the [Math.sqrt] the
    examples are evaluated with: [sqrt (n/d) = floor (sqrt (n*d)) / d]. *)
Definition Qsqrt (x : Q) : Q :=
  Z.sqrt (Qnum x * Zpos (Qden x)) # Qden x.

End Js.

(** Timing and threshold constants of [AudioInterface].  The literals
    [0.01], [0.02] and [0.05] denote the nearest binary64 numbers, each
    a little above the decimal.  An RMS is compared with [0.02] and
    then, being 0 or at least that, with [0.01]: no binary64 number
    lies between the decimal and the literal, so for these two the
    decimal decides every comparison as the literal does.  The RMS
    compared with [0.05] can be that very binary64 number, which is not
    above itself: the interrupt threshold is the literal's exact value,
    3602879701896397 / 2^56. *)
Definition silenceThreshold : Q := 1 # 100.
Definition noiseFloor : Q := 2 # 100.
Definition interruptThreshold : Q := 3602879701896397 # 72057594037927936.
Definition silenceTimeout : Z := 2000.
Definition sendInterval : Z := 500.

(** ** Voice activity detection *)

Section VAD.

Variable Math_sqrt : Q -> Q.

Local Open Scope Q_scope.

(** The accumulation loop of [calculateRMS]. *)
Definition sumSquares (audioData : list Q) : Q :=
  fold_left (fun sum x => sum + x * x) audioData 0.

(** The value of [rms] before the noise floor is applied.  (The capture
    node delivers frames of [chunkSize] samples; on an empty frame the
    code divides 0 by 0 and gets NaN, which is below no threshold and
    above none, where the rational quotient here is 0.) *)
Definition rawRMS (audioData : list Q) : Q :=
  Math_sqrt (sumSquares audioData / inject_Z (Z.of_nat (List.length audioData))).

Definition calculateRMS (audioData : list Q) : Q :=
  let rms := rawRMS audioData in
  if Js.ltb rms noiseFloor then 0 else rms.

Definition isSpeech (audioData : list Q) : bool :=
  let rms := calculateRMS audioData in
  Js.gtb rms silenceThreshold.

End VAD.

(** ** PCM conversion *)

(** [Math.max(-1, Math.min(1, x))]. *)
Definition clamp (x : Q) : Q := Js.Math_max (-1) (Js.Math_min 1 x).

Definition float32ArrayToInt16Array (float32Array : list Q) : list Z :=
  map (fun x =>
         let val := clamp x in
         Js.ToInt16 (val * 32767)%Q)
      float32Array.

Definition convertPCMToFloat32 (pcmData : list Z) : option (list Q) :=
  match Js.Int16Array_of_bytes pcmData with
  | Some int16Data => Some (map (fun v => inject_Z v / 32768)%Q int16Data)
  | None => None
  end.

(** The bytes [processAudioData] buffers for one frame. *)
Definition framePCM (audioData : list Q) : list Z :=
  Js.Uint8Array_of_Int16Array (float32ArrayToInt16Array audioData).


(** ** Effects and the method monad *)

(** A thrown value or the reason of a rejected promise: an [Error] with
    its message, or something that is not an [Error] (the event object a
    socket's [onerror] rejects with). *)
Inductive JsValue :=
| JsError (message : string)
| JsEvent.

Inductive ConsoleLevel := LevelLog | LevelWarn | LevelError.

Inductive SocketData :=
| Binary (bytes : list Z)
| Text (text : string).

(** [ConversationState] of [ConversationManager.ts]. *)
Record ConversationState := mkConversationState {
  isConnected : bool;
  isRecording : bool;
  isPlaying : bool;
  currentAmplitude : Q;
  error : option string
}.

(** What a method does to the world outside its object. *)
Inductive Effect :=
| AmplitudeCallback (amplitude : Q)      (* this.amplitudeCallback(rms) *)
| OnInterrupt                            (* this.onInterrupt() *)
| InputCallback (audioData : list Z)     (* this.inputCallback(combinedArray) *)
| Console (level : ConsoleLevel) (text : string)
| SourceStart (samples : list Q)         (* source.start() returned *)
| SourceStop (samples : list Q)          (* currentOutputSource.stop(); disconnect() *)
| StreamStop                             (* inputStream.getTracks().forEach(stop) *)
| ContextClose                           (* an AudioContext's close() *)
| SocketSend (data : SocketData)         (* websocket.send(data) *)
| SocketClose                            (* websocket.close() *)
| StateChange (state : ConversationState). (* this.stateChangeCallback(state) *)

Inductive Completion (A : Type) :=
| Normal (a : A)
| Throw (e : JsValue).
Arguments Normal {A} a.
Arguments Throw {A} e.

(** A method of an object with fields [S]: it returns or throws, leaves
    the fields changed (also when it throws) and emits effects. *)
Definition Act (S A : Type) : Type := S -> Completion A * S * list Effect.

Definition ret {S A} (a : A) : Act S A := fun s => (Normal a, s, []).

Definition bind {S A B} (m : Act S A) (k : A -> Act S B) : Act S B :=
  fun s =>
    match m s with
    | (Normal a, s1, e1) =>
        match k a s1 with (r, s2, e2) => (r, s2, e1 ++ e2) end
    | (Throw e, s1, e1) => (Throw e, s1, e1)
    end.

Definition throw {S A} (e : JsValue) : Act S A := fun s => (Throw e, s, []).

(** [try { m } catch (e) { h e }]. *)
Definition tryCatch {S A} (m : Act S A) (h : JsValue -> Act S A) : Act S A :=
  fun s =>
    match m s with
    | (Throw e, s1, e1) =>
        match h e s1 with (r, s2, e2) => (r, s2, e1 ++ e2) end
    | r => r
    end.

Definition get {S} : Act S S := fun s => (Normal s, s, []).
Definition gets {S A} (f : S -> A) : Act S A := fun s => (Normal (f s), s, []).
Definition modify {S} (f : S -> S) : Act S unit := fun s => (Normal tt, f s, []).
Definition emit {S} (ev : Effect) : Act S unit := fun s => (Normal tt, s, [ev]).
Definition when {S} (b : bool) (m : Act S unit) : Act S unit :=
  if b then m else ret tt.

Declare Scope act_scope.
Delimit Scope act_scope with act.
Notation "x <- m ;; k" := (bind m (fun x => k))
  (at level 61, m at next level, right associativity) : act_scope.
Notation "m ;; k" := (bind m (fun _ => k))
  (at level 61, right associativity) : act_scope.

(** The parts of a finished call. *)
Definition completion {S A} (r : Completion A * S * list Effect) := fst (fst r).
Definition after {S A} (r : Completion A * S * list Effect) : S := snd (fst r).
Definition effects {S A} (r : Completion A * S * list Effect) := snd r.

(** Selections from an effect list. *)
Definition flushes (es : list Effect) : list (list Z) :=
  flat_map (fun e => match e with InputCallback d => [d] | _ => [] end) es.

Definition interrupts (es : list Effect) : nat :=
  List.length (filter (fun e => match e with OnInterrupt => true | _ => false end) es).

Definition renderStarts (es : list Effect) : list (list Q) :=
  flat_map (fun e => match e with SourceStart b => [b] | _ => [] end) es.

Definition renderStops (es : list Effect) : list (list Q) :=
  flat_map (fun e => match e with SourceStop b => [b] | _ => [] end) es.

Definition sent (es : list Effect) : list SocketData :=
  flat_map (fun e => match e with SocketSend d => [d] | _ => [] end) es.

(** The number of "interrupt" control messages put on the socket. *)
Definition interruptSignals (es : list Effect) : nat :=
  List.length
    (filter (fun d => match d with
                      | Text text => String.eqb text "interrupt"
                      | Binary _ => false
                      end)
            (sent es)).

(** An effect that is not one of the three callbacks into the session. *)
Definition plainEffect (e : Effect) : Prop :=
  match e with
  | AmplitudeCallback _ | OnInterrupt | InputCallback _ => False
  | _ => True
  end.

Definition consoleErrors (es : list Effect) : list string :=
  flat_map (fun e => match e with Console LevelError t => [t] | _ => [] end) es.

Local Open Scope act_scope.

(** ** [class AudioInterface] *)

Module AudioInterface.

(** The fields.  A nullable handle is [true] when it is not [null]; the
    source node being rendered is identified by the samples it renders;
    the two optional constructor arguments are [true] when given. *)
Record t := mk {
  inputAudioContext : bool;
  outputAudioContext : bool;
  inputStream : bool;
  isRunning : bool;
  outputQueue : list (list Z);
  isOutputPlaying : bool;
  currentOutputSource : option (list Q);
  isAudioPlaying : bool;
  lastSpeechTime : option Z;
  audioBufferParts : list (list Z);
  lastSendTime : Z;
  amplitudeCallback : bool;
  onInterrupt : bool
}.

(** [new AudioInterface(inputCallback, amplitudeCallback, onInterrupt)],
    constructed when [Date.now()] reads [now]. *)
Definition new (amplitudeCallback onInterrupt : bool) (now : Z) : t :=
  mk false false false false [] false None false None [] now
     amplitudeCallback onInterrupt.

Definition set_inputAudioContext v a :=
  mk v (outputAudioContext a) (inputStream a) (isRunning a) (outputQueue a)
     (isOutputPlaying a) (currentOutputSource a) (isAudioPlaying a)
     (lastSpeechTime a) (audioBufferParts a) (lastSendTime a)
     (amplitudeCallback a) (onInterrupt a).
Definition set_outputAudioContext v a :=
  mk (inputAudioContext a) v (inputStream a) (isRunning a) (outputQueue a)
     (isOutputPlaying a) (currentOutputSource a) (isAudioPlaying a)
     (lastSpeechTime a) (audioBufferParts a) (lastSendTime a)
     (amplitudeCallback a) (onInterrupt a).
Definition set_inputStream v a :=
  mk (inputAudioContext a) (outputAudioContext a) v (isRunning a) (outputQueue a)
     (isOutputPlaying a) (currentOutputSource a) (isAudioPlaying a)
     (lastSpeechTime a) (audioBufferParts a) (lastSendTime a)
     (amplitudeCallback a) (onInterrupt a).
Definition set_isRunning v a :=
  mk (inputAudioContext a) (outputAudioContext a) (inputStream a) v (outputQueue a)
     (isOutputPlaying a) (currentOutputSource a) (isAudioPlaying a)
     (lastSpeechTime a) (audioBufferParts a) (lastSendTime a)
     (amplitudeCallback a) (onInterrupt a).
Definition set_outputQueue v a :=
  mk (inputAudioContext a) (outputAudioContext a) (inputStream a) (isRunning a) v
     (isOutputPlaying a) (currentOutputSource a) (isAudioPlaying a)
     (lastSpeechTime a) (audioBufferParts a) (lastSendTime a)
     (amplitudeCallback a) (onInterrupt a).
Definition set_isOutputPlaying v a :=
  mk (inputAudioContext a) (outputAudioContext a) (inputStream a) (isRunning a)
     (outputQueue a) v (currentOutputSource a) (isAudioPlaying a)
     (lastSpeechTime a) (audioBufferParts a) (lastSendTime a)
     (amplitudeCallback a) (onInterrupt a).
Definition set_currentOutputSource v a :=
  mk (inputAudioContext a) (outputAudioContext a) (inputStream a) (isRunning a)
     (outputQueue a) (isOutputPlaying a) v (isAudioPlaying a)
     (lastSpeechTime a) (audioBufferParts a) (lastSendTime a)
     (amplitudeCallback a) (onInterrupt a).
Definition set_isAudioPlaying v a :=
  mk (inputAudioContext a) (outputAudioContext a) (inputStream a) (isRunning a)
     (outputQueue a) (isOutputPlaying a) (currentOutputSource a) v
     (lastSpeechTime a) (audioBufferParts a) (lastSendTime a)
     (amplitudeCallback a) (onInterrupt a).
Definition set_lastSpeechTime v a :=
  mk (inputAudioContext a) (outputAudioContext a) (inputStream a) (isRunning a)
     (outputQueue a) (isOutputPlaying a) (currentOutputSource a) (isAudioPlaying a)
     v (audioBufferParts a) (lastSendTime a)
     (amplitudeCallback a) (onInterrupt a).
Definition set_audioBufferParts v a :=
  mk (inputAudioContext a) (outputAudioContext a) (inputStream a) (isRunning a)
     (outputQueue a) (isOutputPlaying a) (currentOutputSource a) (isAudioPlaying a)
     (lastSpeechTime a) v (lastSendTime a)
     (amplitudeCallback a) (onInterrupt a).
Definition set_lastSendTime v a :=
  mk (inputAudioContext a) (outputAudioContext a) (inputStream a) (isRunning a)
     (outputQueue a) (isOutputPlaying a) (currentOutputSource a) (isAudioPlaying a)
     (lastSpeechTime a) (audioBufferParts a) v
     (amplitudeCallback a) (onInterrupt a).

(** [shouldSendAudio()], when its [Date.now()] reads [now]. *)
Definition shouldSendAudio (now : Z) (a : t) : bool :=
  match lastSpeechTime a with
  | None => false
  | Some last =>
      let timeSinceSpeech := now - last in
      timeSinceSpeech <? silenceTimeout
  end.

(** What [source.start()] does in [playNextOutputChunk]: it returns, or
    throws the given value. *)
Definition StartResult := option JsValue.

(** How the acquisition in [start()] goes: every step succeeds, or the
    named step fails with the given value. *)
Inductive StartOutcome :=
| StartSucceeds
| GetUserMediaRejects (e : JsValue)
| InputContextThrows (e : JsValue)
| OutputContextThrows (e : JsValue)
| AudioGraphThrows (e : JsValue).

(** The steps of the acquisition that can fail, and the outcome in
    which the given one does. *)
Inductive AcquisitionStep :=
| AtGetUserMedia | AtInputContext | AtOutputContext | AtAudioGraph.

Definition failAt (step : AcquisitionStep) (e : JsValue) : StartOutcome :=
  match step with
  | AtGetUserMedia => GetUserMediaRejects e
  | AtInputContext => InputContextThrows e
  | AtOutputContext => OutputContextThrows e
  | AtAudioGraph => AudioGraphThrows e
  end.

Section Methods.

Variable Math_sqrt : Q -> Q.

(** The block of [processAudioData] under "Check for speech". *)
Definition checkForSpeech (audioData : list Q) (currentTime : Z) : Act t unit :=
  let rms := calculateRMS Math_sqrt audioData in
  let isSpeaking := isSpeech Math_sqrt audioData in
  when isSpeaking (
    modify (set_lastSpeechTime (Some currentTime)) ;;
    a <- get ;;
    when (isAudioPlaying a && Js.gtb rms interruptThreshold && onInterrupt a) (
      emit (Console LevelLog "User speaking during playback, sending interrupt") ;;
      emit OnInterrupt ;;
      modify (set_isAudioPlaying false))).

(** The block under "Buffer audio if we should send it"; [now] is the
    reading inside [shouldSendAudio()]. *)
Definition bufferAudio (audioData : list Q) (now : Z) : Act t unit :=
  send <- gets (shouldSendAudio now) ;;
  when send (
    let int16Data := float32ArrayToInt16Array audioData in
    a <- get ;;
    modify (set_audioBufferParts
              (audioBufferParts a ++ [Js.Uint8Array_of_Int16Array int16Data]))).

(** The condition of the block under "Send batched audio periodically". *)
Definition flushDue (currentTime now : Z) (a : t) : bool :=
  (sendInterval <=? currentTime - lastSendTime a)
  && (0 <? Z.of_nat (List.length (audioBufferParts a)))
  && shouldSendAudio now a.

Definition sendBatchedAudio (currentTime now : Z) : Act t unit :=
  a <- get ;;
  when (flushDue currentTime now a) (
    let combinedArray := List.concat (audioBufferParts a) in
    emit (Console LevelLog
            ("Sending " ++ Js.decimal (List.length combinedArray)
                        ++ " bytes of audio")%string) ;;
    emit (InputCallback combinedArray) ;;
    modify (set_audioBufferParts []) ;;
    modify (set_lastSendTime currentTime)).

(** [processAudioData(audioData)].  [currentTime] is the reading of
    [Date.now()] at entry, [now1] and [now2] the readings inside the
    two calls of [shouldSendAudio()]. *)
Definition processAudioData (audioData : list Q) (currentTime now1 now2 : Z)
  : Act t unit :=
  let rms := calculateRMS Math_sqrt audioData in
  hasAmplitudeCallback <- gets amplitudeCallback ;;
  when hasAmplitudeCallback (emit (AmplitudeCallback rms)) ;;
  checkForSpeech audioData currentTime ;;
  bufferAudio audioData now1 ;;
  sendBatchedAudio currentTime now2.

(** [scriptProcessor.onaudioprocess], the capture callback. *)
Definition onaudioprocess (audioData : list Q) (currentTime now1 now2 : Z)
  : Act t unit :=
  running <- gets isRunning ;;
  if negb running then ret tt
  else processAudioData audioData currentTime now1 now2.

End Methods.

Definition start (outcome : StartOutcome) : Act t unit :=
  tryCatch
    (match outcome with
     | GetUserMediaRejects e => throw e
     | InputContextThrows e =>
         modify (set_inputStream true) ;; throw e
     | OutputContextThrows e =>
         modify (set_inputStream true) ;;
         modify (set_inputAudioContext true) ;; throw e
     | AudioGraphThrows e =>
         modify (set_inputStream true) ;;
         modify (set_inputAudioContext true) ;;
         modify (set_outputAudioContext true) ;; throw e
     | StartSucceeds =>
         modify (set_inputStream true) ;;
         modify (set_inputAudioContext true) ;;
         modify (set_outputAudioContext true) ;;
         modify (set_isRunning true) ;;
         emit (Console LevelLog "Audio interface started")
     end)
    (fun error =>
       emit (Console LevelError "Error starting audio interface:") ;;
       throw error).

(** [playNextOutputChunk], also the [onended] callback of every source
    it starts.  Two statements before the [try] can throw: the
    [Int16Array] view of a chunk with an odd number of bytes
    ([RangeError]), and [createBuffer(1, 0, rate)] for a chunk of no
    bytes ([NotSupportedError]); both leave the queue marked Playing
    with no source made. *)
Definition playNextOutputChunk (startResult : StartResult) : Act t unit :=
  a <- get ;;
  if negb (outputAudioContext a) then
    modify (set_isOutputPlaying false)
  else
    match outputQueue a with
    | [] =>
        modify (set_isOutputPlaying false) ;;
        modify (set_isAudioPlaying false) ;;
        modify (set_currentOutputSource None)
    | nextChunk :: rest =>
        modify (set_isOutputPlaying true) ;;
        modify (set_outputQueue rest) ;;
        match convertPCMToFloat32 nextChunk with
        | None =>
            throw (JsError "byte length of Int16Array should be a multiple of 2")
        | Some [] =>
            throw (JsError "createBuffer: the number of frames must be greater than 0")
        | Some float32 =>
            modify (set_currentOutputSource (Some float32)) ;;
            match startResult with
            | None => emit (SourceStart float32)
            | Some _ =>
                emit (Console LevelError "Error starting audio playback") ;;
                modify (set_isOutputPlaying false) ;;
                modify (set_currentOutputSource None)
            end
        end
    end.

Definition play (audioData : list Z) (startResult : StartResult) : Act t unit :=
  a <- get ;;
  if negb (outputAudioContext a) then
    emit (Console LevelWarn "Audio interface not initialized for playback")
  else
    modify (set_isAudioPlaying true) ;;
    a <- get ;;
    modify (set_outputQueue (outputQueue a ++ [audioData])) ;;
    a <- get ;;
    when (negb (isOutputPlaying a)) (playNextOutputChunk startResult).

Definition setAudioPlaybackState (isPlaying : bool) : Act t unit :=
  modify (set_isAudioPlaying isPlaying).

Definition isAudioPlaybackActive : Act t bool := gets isAudioPlaying.

(** The shared tail of [interruptPlayback] and [stop]: stop and release
    the source being rendered, if any. *)
Definition releaseCurrentOutputSource : Act t unit :=
  a <- get ;;
  match currentOutputSource a with
  | Some source =>
      emit (SourceStop source) ;;
      modify (set_currentOutputSource None)
  | None => ret tt
  end.

Definition interruptPlayback : Act t unit :=
  modify (set_outputQueue []) ;;
  modify (set_isOutputPlaying false) ;;
  modify (set_isAudioPlaying false) ;;
  releaseCurrentOutputSource ;;
  emit (Console LevelLog "Audio playback interrupted").

Definition stop : Act t unit :=
  modify (set_isRunning false) ;;
  modify (set_outputQueue []) ;;
  modify (set_isOutputPlaying false) ;;
  releaseCurrentOutputSource ;;
  a <- get ;;
  when (inputStream a) (emit StreamStop ;; modify (set_inputStream false)) ;;
  a <- get ;;
  when (inputAudioContext a)
       (emit ContextClose ;; modify (set_inputAudioContext false)) ;;
  a <- get ;;
  when (outputAudioContext a)
       (emit ContextClose ;; modify (set_outputAudioContext false)) ;;
  emit (Console LevelLog "Audio interface stopped").

Definition cleanup : Act t unit := stop.

End AudioInterface.

(** ** [class WebSocketManager] *)

Module WebSocketManager.

(** [WebSocket.readyState]. *)
Inductive ReadyState := CONNECTING | OPEN | CLOSING | CLOSED.

(** The fields; [websocket] is the socket object, given by its
    [readyState], or [null].  The [audioInterface] field is the object
    the owning [ConversationManager] holds (see [ConversationManager.t]). *)
Record t := mk {
  websocket : option ReadyState;
  websocketUrl : string;
  isRunning : bool
}.

Definition new (websocketUrl : string) : t := mk None websocketUrl false.

Definition set_websocket v w := mk v (websocketUrl w) (isRunning w).
Definition set_isRunning v w := mk (websocket w) (websocketUrl w) v.

(** How a connection attempt goes: [onopen] fires, [onerror] fires, or
    the [WebSocket] constructor throws. *)
Inductive ConnectOutcome :=
| SocketOpens
| SocketErrors
| ConstructorThrows (e : JsValue).

(** The guard shared by the three send methods.  Behind it the socket is
    open, where [send] queues the data and does not throw: the [catch]
    blocks of the send methods are not reached. *)
Definition canSend (w : t) : bool :=
  match websocket w with
  | Some OPEN => isRunning w
  | _ => false
  end.

(** [connect()], awaited: a rejection is a [Throw]. *)
Definition connect (outcome : ConnectOutcome) : Act t unit :=
  w <- get ;;
  match websocket w with
  | Some _ => ret tt
  | None =>
      match outcome with
      | ConstructorThrows e =>
          emit (Console LevelError "Error creating WebSocket connection:") ;;
          throw e
      | SocketOpens =>
          modify (set_websocket (Some OPEN)) ;;
          emit (Console LevelLog "WebSocket connection opened") ;;
          modify (set_isRunning true)
      | SocketErrors =>
          modify (set_websocket (Some CLOSED)) ;;
          emit (Console LevelError "WebSocket error:") ;;
          modify (set_isRunning false) ;;
          throw JsEvent
      end
  end.

(** The socket's [onclose] (the log line also carries the close code
    and reason of the event). *)
Definition onclose : Act t unit :=
  w <- get ;;
  match websocket w with
  | Some _ =>
      modify (set_websocket (Some CLOSED)) ;;
      emit (Console LevelLog "WebSocket closed") ;;
      modify (set_isRunning false)
  | None => ret tt
  end.

Definition sendAudioData (audioData : list Z) : Act t unit :=
  w <- get ;;
  if canSend w then emit (SocketSend (Binary audioData))
  else emit (Console LevelWarn "Cannot send audio: WebSocket not connected").

(** [sendMessage(message)]; [json] is [JSON.stringify(message)]. *)
Definition sendMessage (json : string) : Act t unit :=
  w <- get ;;
  if canSend w then emit (SocketSend (Text json))
  else emit (Console LevelWarn "Cannot send message: WebSocket not connected").

Definition sendInterrupt : Act t unit :=
  w <- get ;;
  if canSend w then
    emit (SocketSend (Text "interrupt")) ;;
    emit (Console LevelLog "Sent interrupt signal to server")
  else emit (Console LevelWarn "Cannot send interrupt: WebSocket not connected").

Definition disconnect : Act t unit :=
  modify (set_isRunning false) ;;
  w <- get ;;
  match websocket w with
  | Some readyState =>
      when (match readyState with OPEN => true | _ => false end)
           (emit SocketClose) ;;
      modify (set_websocket None)
  | None => ret tt
  end ;;
  emit (Console LevelLog "Disconnected from WebSocket").

Definition isConnected (w : t) : bool := canSend w.

Definition getReadyState (w : t) : option ReadyState := websocket w.

End WebSocketManager.

(** ** [class ConversationManager] *)

Module ConversationManager.

(** The fields; the two collaborators are held by the manager, and the
    socket manager's [audioInterface] reference is to the same object. *)
Record t := mk {
  websocketUrl : string;
  audioInterface : AudioInterface.t;
  webSocketManager : WebSocketManager.t;
  isRunning : bool;
  stateChangeCallback : bool;
  state : ConversationState
}.

Definition initialState : ConversationState :=
  mkConversationState false false false 0 None.

(** [new ConversationManager(websocketUrl, stateChangeCallback)],
    constructed when [Date.now()] reads [now]. *)
Definition new (websocketUrl : string) (stateChangeCallback : bool) (now : Z) : t :=
  mk websocketUrl (AudioInterface.new true true now)
     (WebSocketManager.new websocketUrl) false stateChangeCallback initialState.

Definition set_audioInterface v m :=
  mk (websocketUrl m) v (webSocketManager m) (isRunning m)
     (stateChangeCallback m) (state m).
Definition set_webSocketManager v m :=
  mk (websocketUrl m) (audioInterface m) v (isRunning m)
     (stateChangeCallback m) (state m).
Definition set_isRunning v m :=
  mk (websocketUrl m) (audioInterface m) (webSocketManager m) v
     (stateChangeCallback m) (state m).
Definition set_state v m :=
  mk (websocketUrl m) (audioInterface m) (webSocketManager m) (isRunning m)
     (stateChangeCallback m) v.

(** [Partial<ConversationState>]: the keys an update carries. *)
Record Partial := mkPartial {
  p_isConnected : option bool;
  p_isRecording : option bool;
  p_isPlaying : option bool;
  p_currentAmplitude : option Q;
  p_error : option (option string)
}.

Definition noUpdate : Partial := mkPartial None None None None None.

Definition orElse {A} (o : option A) (d : A) : A :=
  match o with Some v => v | None => d end.

(** [{ ...state, ...updates }]. *)
Definition spread (s : ConversationState) (u : Partial) : ConversationState :=
  mkConversationState
    (orElse (p_isConnected u) (isConnected s))
    (orElse (p_isRecording u) (isRecording s))
    (orElse (p_isPlaying u) (isPlaying s))
    (orElse (p_currentAmplitude u) (currentAmplitude s))
    (orElse (p_error u) (error s)).

(** A call of a method of [this.webSocketManager]. *)
Definition onWebSocketManager {A} (m : Act WebSocketManager.t A) : Act t A :=
  fun s =>
    match m (webSocketManager s) with
    | (r, w, es) => (r, set_webSocketManager w s, es)
    end.

Definition updateState (updates : Partial) : Act t unit :=
  s <- get ;;
  modify (set_state (spread (state s) updates)) ;;
  s <- get ;;
  when (stateChangeCallback s) (emit (StateChange (state s))).

Definition onAudioInput (audioData : list Z) : Act t unit :=
  onWebSocketManager (WebSocketManager.sendAudioData audioData).

Definition onAmplitudeChange (amplitude : Q) : Act t unit :=
  updateState (mkPartial None None None (Some amplitude) None).

Definition onInterrupt : Act t unit :=
  emit (Console LevelLog "Audio interrupt detected, sending interrupt signal") ;;
  onWebSocketManager WebSocketManager.sendInterrupt.

(** The three callbacks the constructor binds into the audio interface;
    every other effect goes out as it is. *)
Fixpoint callbacks (es : list Effect) : Act t unit :=
  match es with
  | [] => ret tt
  | e :: rest =>
      match e with
      | InputCallback audioData => onAudioInput audioData
      | AmplitudeCallback amplitude => onAmplitudeChange amplitude
      | OnInterrupt => onInterrupt
      | other => emit other
      end ;;
      callbacks rest
  end.

(** A call of a method of [this.audioInterface], its callbacks run in
    the order the method invokes them. *)
Definition onAudioInterface {A} (m : Act AudioInterface.t A) : Act t A :=
  fun s =>
    match m (audioInterface s) with
    | (r, a, es) =>
        match callbacks es (set_audioInterface a s) with
        | (_, s', es') => (r, s', es')
        end
    end.

Definition stopConversation : Act t unit :=
  s <- get ;;
  if negb (isRunning s) then
    emit (Console LevelWarn "Conversation not running")
  else
    emit (Console LevelLog "Stopping conversation...") ;;
    modify (set_isRunning false) ;;
    onAudioInterface AudioInterface.stop ;;
    onWebSocketManager WebSocketManager.disconnect ;;
    updateState (mkPartial (Some false) (Some false) (Some false) (Some 0%Q)
                           (Some None)) ;;
    emit (Console LevelLog "Conversation stopped").

(** [error instanceof Error ? error.message : 'Unknown error']. *)
Definition errorMessage (error : JsValue) : string :=
  match error with
  | JsError message => message
  | JsEvent => "Unknown error"
  end.

(** [startConversation()], awaited through both acquisitions. *)
Definition startConversation
           (connectOutcome : WebSocketManager.ConnectOutcome)
           (startOutcome : AudioInterface.StartOutcome) : Act t unit :=
  s <- get ;;
  if isRunning s then
    emit (Console LevelWarn "Conversation already running")
  else
    tryCatch
      (updateState (mkPartial None None None None (Some None)) ;;
       emit (Console LevelLog "Connecting to WebSocket...") ;;
       onWebSocketManager (WebSocketManager.connect connectOutcome) ;;
       updateState (mkPartial (Some true) None None None None) ;;
       emit (Console LevelLog "Starting audio interface...") ;;
       onAudioInterface (AudioInterface.start startOutcome) ;;
       updateState (mkPartial None (Some true) None None None) ;;
       modify (set_isRunning true) ;;
       emit (Console LevelLog "Conversation started successfully"))
      (fun error =>
         emit (Console LevelError "Error starting conversation:") ;;
         updateState
           (mkPartial (Some false) (Some false) None None
                      (Some (Some ("Failed to start conversation: "
                                     ++ errorMessage error)%string))) ;;
         stopConversation ;;
         throw error).

Definition sendMessage (json : string) : Act t unit :=
  s <- get ;;
  if negb (isRunning s) || negb (WebSocketManager.isConnected (webSocketManager s))
  then emit (Console LevelWarn "Cannot send message: conversation not active")
  else onWebSocketManager (WebSocketManager.sendMessage json).

Definition cleanup : Act t unit :=
  stopConversation ;;
  onAudioInterface AudioInterface.cleanup.

(** [updateWebSocketUrl(newUrl)]. *)
Definition updateWebSocketUrl (newUrl : string) : Act t unit :=
  s <- get ;;
  if isRunning s then
    throw (JsError "Cannot update WebSocket URL while conversation is active")
  else
    modify (fun s => mk newUrl (audioInterface s) (WebSocketManager.new newUrl)
                        (isRunning s) (stateChangeCallback s) (state s)).

Definition getState (s : t) : ConversationState := state s.
Definition isActive (s : t) : bool := isRunning s.
Definition isConnected (s : t) : bool :=
  WebSocketManager.isConnected (webSocketManager s).

(** [WebSocketManager.handleWebSocketMessage(event)], on the manager's
    objects: binary data goes to [audioInterface.play], a string is
    parsed and dropped, and nothing thrown leaves the handler. *)
Definition handleWebSocketMessage (data : SocketData)
           (startResult : AudioInterface.StartResult) : Act t unit :=
  tryCatch
    (match data with
     | Binary bytes => onAudioInterface (AudioInterface.play bytes startResult)
     | Text _ => ret tt
     end)
    (fun _ => ret tt).

(** The capture callback and the render-completion callback, as the
    session receives them. *)
Section Callbacks.
Variable Math_sqrt : Q -> Q.

Definition onaudioprocess (audioData : list Q) (currentTime now1 now2 : Z)
  : Act t unit :=
  onAudioInterface
    (AudioInterface.onaudioprocess Math_sqrt audioData currentTime now1 now2).
End Callbacks.

Definition onended (startResult : AudioInterface.StartResult) : Act t unit :=
  onAudioInterface (AudioInterface.playNextOutputChunk startResult).

End ConversationManager.

(** ** Runs of the audio interface *)

(** Everything that can be done to an [AudioInterface] from outside: its
    public methods and the two callbacks the browser invokes. *)
Inductive Event :=
| AudioProcess (audioData : list Q) (currentTime now1 now2 : Z)
| Play (audioData : list Z) (startResult : AudioInterface.StartResult)
| Ended (startResult : AudioInterface.StartResult)
| SetAudioPlaybackState (isPlaying : bool)
| InterruptPlayback
| Start (outcome : AudioInterface.StartOutcome)
| Stop.

Section Runs.

Variable Math_sqrt : Q -> Q.

Definition deliver (ev : Event) : Act AudioInterface.t unit :=
  match ev with
  | AudioProcess audioData currentTime now1 now2 =>
      AudioInterface.onaudioprocess Math_sqrt audioData currentTime now1 now2
  | Play audioData startResult => AudioInterface.play audioData startResult
  | Ended startResult => AudioInterface.playNextOutputChunk startResult
  | SetAudioPlaybackState isPlaying => AudioInterface.setAudioPlaybackState isPlaying
  | InterruptPlayback => AudioInterface.interruptPlayback
  | Start outcome => AudioInterface.start outcome
  | Stop => AudioInterface.stop
  end.

(** The events delivered one after the other (what one of them throws
    does not reach the next), each with the effects it had. *)
Fixpoint runLog (evs : list Event) (a : AudioInterface.t)
  : list (Event * list Effect) * AudioInterface.t :=
  match evs with
  | [] => ([], a)
  | ev :: rest =>
      let r := deliver ev a in
      let (log, a') := runLog rest (after r) in
      ((ev, effects r) :: log, a')
  end.

Definition run (evs : list Event) (a : AudioInterface.t) : AudioInterface.t :=
  snd (runLog evs a).

Definition runEffects (evs : list Event) (a : AudioInterface.t) : list Effect :=
  flat_map snd (fst (runLog evs a)).

(** The [currentTime] of every flush of a run. *)
Definition flushTimes (log : list (Event * list Effect)) : list Z :=
  flat_map (fun entry =>
              match entry with
              | (AudioProcess _ currentTime _ _, es) =>
                  map (fun _ => currentTime) (flushes es)
              | _ => []
              end) log.

(** The state in which [processAudioData] evaluates the flush condition:
    after the speech check and the buffering of the frame. *)
Definition atFlushCheck (audioData : list Q) (currentTime now1 : Z)
           (a : AudioInterface.t) : AudioInterface.t :=
  after (AudioInterface.bufferAudio audioData now1
           (after (AudioInterface.checkForSpeech Math_sqrt audioData
                                                 currentTime a))).

(** A frame below the speech threshold after the noise floor. *)
Definition silentFrame (audioData : list Q) : Prop :=
  (calculateRMS Math_sqrt audioData < silenceThreshold)%Q.

Definition silentEvent (ev : Event) : Prop :=
  match ev with
  | AudioProcess audioData _ _ _ => silentFrame audioData
  | _ => True
  end.

(** A frame that meets the interrupt condition of [checkForSpeech]. *)
Definition qualifyingFrame (audioData : list Q) : Prop :=
  isSpeech Math_sqrt audioData = true /\
  (interruptThreshold < calculateRMS Math_sqrt audioData)%Q.

End Runs.

(** Frames delivered at a fixed period from [time] on, every reading of
    the clock inside one callback being the same. *)
Fixpoint frameEvents (time period : Z) (frames : list (list Q)) : list Event :=
  match frames with
  | [] => []
  | audioData :: rest =>
      AudioProcess audioData time time time
      :: frameEvents (time + period) period rest
  end.

(** The capture session of a running interface: last speech, buffered
    parts and last send time. *)
Definition captureIs (a : AudioInterface.t) (lastSpeech : option Z)
           (parts : list (list Z)) (lastSend : Z) : Prop :=
  AudioInterface.isRunning a = true /\
  AudioInterface.lastSpeechTime a = lastSpeech /\
  AudioInterface.audioBufferParts a = parts /\
  AudioInterface.lastSendTime a = lastSend.

(** Successive times, each at least [sendInterval] after the one before. *)
Fixpoint spaced (last : Z) (times : list Z) : Prop :=
  match times with
  | [] => True
  | time :: rest => sendInterval <= time - last /\ spaced time rest
  end.

(** Events that raise the playback-active flag. *)
Definition rearms (ev : Event) : bool :=
  match ev with
  | Play _ _ => true
  | SetAudioPlaybackState true => true
  | _ => false
  end.

(** ** The playback queue with its output device *)

(** The device renders the sources started on it and reports the end of
    one it is rendering. *)
Inductive PlaybackEvent :=
| Enqueue (chunk : list Z) (startResult : AudioInterface.StartResult)
| Complete (startResult : AudioInterface.StartResult).

Record Playback := mkPlayback {
  player : AudioInterface.t;
  rendering : list (list Q);   (* sources started and not yet ended *)
  started : list (list Q)      (* every render start so far, oldest first *)
}.

Definition playbackStep (ev : PlaybackEvent) (p : Playback) : Playback :=
  match ev with
  | Enqueue chunk startResult =>
      let r := AudioInterface.play chunk startResult (player p) in
      mkPlayback (after r)
                 (rendering p ++ renderStarts (effects r))
                 (started p ++ renderStarts (effects r))
  | Complete startResult =>
      match rendering p with
      | [] => p
      | _ :: others =>
          let r := AudioInterface.playNextOutputChunk startResult (player p) in
          mkPlayback (after r)
                     (others ++ renderStarts (effects r))
                     (started p ++ renderStarts (effects r))
      end
  end.

Definition runPlayback (evs : list PlaybackEvent) (p : Playback) : Playback :=
  fold_left (fun p ev => playbackStep ev p) evs p.

Definition enqueued (evs : list PlaybackEvent) : list (list Z) :=
  flat_map (fun ev => match ev with Enqueue chunk _ => [chunk] | _ => [] end) evs.

Definition startSucceeds (ev : PlaybackEvent) : Prop :=
  match ev with
  | Enqueue _ startResult => startResult = None
  | Complete startResult => startResult = None
  end.

(** A chunk of whole 16-bit samples. *)
Definition wholeSamples (chunk : list Z) : Prop :=
  Nat.even (List.length chunk) = true.

(** A chunk the queue can render: whole samples, and at least one. *)
Definition playable (chunk : list Z) : Prop :=
  wholeSamples chunk /\ chunk <> [].

(** The samples a chunk is rendered as. *)
Definition samplesOf (chunk : list Z) : list Q :=
  match convertPCMToFloat32 chunk with
  | Some float32 => float32
  | None => []
  end.

(** The two states of the queue. *)
Definition Idle (a : AudioInterface.t) : Prop :=
  AudioInterface.isOutputPlaying a = false /\ AudioInterface.outputQueue a = [].
Definition Playing (a : AudioInterface.t) : Prop :=
  AudioInterface.isOutputPlaying a = true.

(** What holds of the queue and its device between events, [received]
    being the chunks enqueued so far: every chunk received has been
    started or is waiting, in order; while Playing exactly one source is
    rendering; while not Playing none is and nothing waits. *)
Definition playbackInvariant (received : list (list Z)) (p : Playback) : Prop :=
  AudioInterface.outputAudioContext (player p) = true /\
  started p ++ map samplesOf (AudioInterface.outputQueue (player p)) =
    map samplesOf received /\
  Forall playable (AudioInterface.outputQueue (player p)) /\
  (Playing (player p) /\ List.length (rendering p) = 1%nat
   \/ Idle (player p) /\ rendering p = []).

(** ** Example data *)

Module Example.

Definition url : string := "ws://localhost:8000/ws".

(** Frames of 625 samples with RMS 0.02, 0.10 and 0.  Every sample is a
    [Float32Array] value, the sums of squares (1/4, 25/4 and 0) are
    exact, and the binary64 square roots of 1/4 / 625 and 25/4 / 625
    are the literals [0.02] and [0.1]. *)
Definition speech002 : list Q := (1 # 2) :: repeat 0%Q 624.
Definition speech010 : list Q := repeat (1 # 2) 25 ++ repeat 0%Q 600.
Definition silence : list Q := repeat 0%Q 625.

(** Two PCM chunks of two samples each. *)
Definition chunk1 : list Z := [0; 64; 0; 192].
Definition chunk2 : list Z := [255; 127; 1; 128].

(** An audio interface constructed and started at time 0. *)
Definition audio : AudioInterface.t :=
  after (AudioInterface.start AudioInterface.StartSucceeds
                              (AudioInterface.new true true 0)).

(** The same once [chunk1] has been played into it. *)
Definition audioPlaying : AudioInterface.t :=
  after (AudioInterface.play chunk1 None audio).

(** The started interface with speech last heard at time 0. *)
Definition audioAfterSpeech : AudioInterface.t :=
  AudioInterface.set_lastSpeechTime (Some 0) audio.

(** A session started at time 0, ... *)
Definition session : ConversationManager.t :=
  after (ConversationManager.startConversation
           WebSocketManager.SocketOpens AudioInterface.StartSucceeds
           (ConversationManager.new url true 0)).

(** ... after the server has sent two chunks: the first is being
    rendered, the second is queued. *)
Definition playingSession : ConversationManager.t :=
  after (ConversationManager.handleWebSocketMessage (Binary chunk2) None
           (after (ConversationManager.handleWebSocketMessage
                     (Binary chunk1) None session))).

(** ... and after the server has then closed the socket. *)
Definition playingSessionSocketClosed : ConversationManager.t :=
  after (ConversationManager.onWebSocketManager WebSocketManager.onclose
                                                playingSession).

End Example.

(** ** Runs of the session *)

(** Everything that can be done to a [ConversationManager] from outside:
    its public methods and the callbacks the browser invokes on the
    objects it holds. *)
Inductive SessionEvent :=
| StartConversation (connectOutcome : WebSocketManager.ConnectOutcome)
                    (startOutcome : AudioInterface.StartOutcome)
| StopConversation
| Cleanup
| SendMessage (json : string)
| UpdateWebSocketUrl (newUrl : string)
| SocketMessage (data : SocketData) (startResult : AudioInterface.StartResult)
| SocketClosed
| CaptureFrame (audioData : list Q) (currentTime now1 now2 : Z)
| RenderEnded (startResult : AudioInterface.StartResult).

Section SessionRuns.

Variable Math_sqrt : Q -> Q.

Definition sessionDeliver (ev : SessionEvent) : Act ConversationManager.t unit :=
  match ev with
  | StartConversation connectOutcome startOutcome =>
      ConversationManager.startConversation connectOutcome startOutcome
  | StopConversation => ConversationManager.stopConversation
  | Cleanup => ConversationManager.cleanup
  | SendMessage json => ConversationManager.sendMessage json
  | UpdateWebSocketUrl newUrl => ConversationManager.updateWebSocketUrl newUrl
  | SocketMessage data startResult =>
      ConversationManager.handleWebSocketMessage data startResult
  | SocketClosed =>
      ConversationManager.onWebSocketManager WebSocketManager.onclose
  | CaptureFrame audioData currentTime now1 now2 =>
      ConversationManager.onaudioprocess Math_sqrt audioData currentTime now1 now2
  | RenderEnded startResult => ConversationManager.onended startResult
  end.

(** The session after the events, one after the other; what one of them
    throws does not reach the next. *)
Fixpoint sessionRun (evs : list SessionEvent) (m : ConversationManager.t)
  : ConversationManager.t :=
  match evs with
  | [] => m
  | ev :: rest => sessionRun rest (after (sessionDeliver ev m))
  end.

(** Everything the events did to the outside, in order. *)
Fixpoint sessionEffects (evs : list SessionEvent) (m : ConversationManager.t)
  : list Effect :=
  match evs with
  | [] => []
  | ev :: rest =>
      effects (sessionDeliver ev m)
      ++ sessionEffects rest (after (sessionDeliver ev m))
  end.

End SessionRuns.

(** The three events that only call into the audio interface. *)
Definition audioCall (ev : SessionEvent) : option Event :=
  match ev with
  | SocketMessage (Binary bytes) startResult => Some (Play bytes startResult)
  | CaptureFrame audioData currentTime now1 now2 =>
      Some (AudioProcess audioData currentTime now1 now2)
  | RenderEnded startResult => Some (Ended startResult)
  | _ => None
  end.

(** The states published to the observer. *)
Definition published (es : list Effect) : list ConversationState :=
  flat_map (fun e => match e with StateChange s => [s] | _ => [] end) es.

(** The amplitudes reported through the amplitude callback. *)
Definition amplitudes (es : list Effect) : list Q :=
  flat_map (fun e => match e with AmplitudeCallback x => [x] | _ => [] end) es.

Definition socketCloses (es : list Effect) : nat :=
  List.length (filter (fun e => match e with SocketClose => true | _ => false end) es).

Definition streamStops (es : list Effect) : nat :=
  List.length (filter (fun e => match e with StreamStop => true | _ => false end) es).

Definition contextCloses (es : list Effect) : nat :=
  List.length (filter (fun e => match e with ContextClose => true | _ => false end) es).

(** A byte. *)
Definition isByte (b : Z) : Prop := 0 <= b <= 255.

(** A value an [Int16Array] can hold. *)
Definition isInt16 (v : Z) : Prop := -32768 <= v <= 32767.

(** [l1] is [l2] with some elements left out, the order kept. *)
Inductive subsequence {A : Type} : list A -> list A -> Prop :=
| subsequence_nil : subsequence [] []
| subsequence_keep x l1 l2 : subsequence l1 l2 -> subsequence (x :: l1) (x :: l2)
| subsequence_skip x l1 l2 : subsequence l1 l2 -> subsequence l1 (x :: l2).

(** The events of a run that raise the playback-active flag. *)
Definition rearmCount (evs : list Event) : nat :=
  List.length (filter rearms evs).

(** The frames a run delivers to the capture callback, in order. *)
Definition framesOf (evs : list Event) : list (list Q) :=
  flat_map (fun ev => match ev with
                      | AudioProcess audioData _ _ _ => [audioData]
                      | _ => []
                      end) evs.

Section Buffered.

Variable Math_sqrt : Q -> Q.

(** The frame a capture callback adds to the buffer, if any: its own,
    when the interface is running and speech was last heard, this frame
    counted, less than [silenceTimeout] before the reading [now1]. *)
Definition bufferedFrame (ev : Event) (a : AudioInterface.t) : list (list Q) :=
  match ev with
  | AudioProcess audioData currentTime now1 _ =>
      let lastSpeech :=
        if isSpeech Math_sqrt audioData then Some currentTime
        else AudioInterface.lastSpeechTime a in
      let transmit :=
        match lastSpeech with
        | Some last => now1 - last <? silenceTimeout
        | None => false
        end in
      if AudioInterface.isRunning a && transmit then [audioData] else []
  | _ => []
  end.

(** The frames buffered along a run, in order. *)
Fixpoint bufferedFrames (evs : list Event) (a : AudioInterface.t)
  : list (list Q) :=
  match evs with
  | [] => []
  | ev :: rest =>
      bufferedFrame ev a
      ++ bufferedFrames rest (after (deliver Math_sqrt ev a))
  end.

End Buffered.

(** A chunk of bytes that is a whole number of 16-bit samples. *)
Definition pcmChunk (chunk : list Z) : Prop :=
  wholeSamples chunk /\ Forall isByte chunk.

(** What the call behind a playback event emits. *)
Definition playbackEffects (ev : PlaybackEvent) (p : Playback) : list Effect :=
  match ev with
  | Enqueue chunk startResult =>
      effects (AudioInterface.play chunk startResult (player p))
  | Complete startResult =>
      match rendering p with
      | [] => []
      | _ :: _ =>
          effects (AudioInterface.playNextOutputChunk startResult (player p))
      end
  end.

(** The render starts that failed along a run, counted by the error
    lines the [catch] block of [playNextOutputChunk] logs. *)
Fixpoint startFailures (evs : list PlaybackEvent) (p : Playback) : nat :=
  match evs with
  | [] => 0
  | ev :: rest =>
      List.length (consoleErrors (playbackEffects ev p))
      + startFailures rest (playbackStep ev p)
  end.

(** The invariant of the playback queue when render starts may fail:
    the chunks received are those tried so far, in order, followed by
    those waiting; the render starts are the tried ones that started,
    and the others are as many as the failures logged;
    and a source is rendering exactly while the queue is Playing. *)
Definition lossyPlaybackInvariant (received : list (list Z)) (failures : nat)
           (p : Playback) : Prop :=
  AudioInterface.outputAudioContext (player p) = true /\
  (exists tried,
      map samplesOf received =
        tried ++ map samplesOf (AudioInterface.outputQueue (player p)) /\
      subsequence (started p) tried /\
      List.length tried = (List.length (started p) + failures)%nat) /\
  Forall playable (AudioInterface.outputQueue (player p)) /\
  (Playing (player p) /\ List.length (rendering p) = 1%nat
   \/ AudioInterface.isOutputPlaying (player p) = false /\ rendering p = []).

(** The effects a method of the audio interface can have: its callbacks,
    the console and the audio device, never the socket or the observer. *)
Definition audioEffect (e : Effect) : Prop :=
  match e with
  | SocketSend _ | SocketClose | StateChange _ => False
  | _ => True
  end.

(** Two published states that differ at most in the amplitude. *)
Definition sameButAmplitude (s1 s2 : ConversationState) : Prop :=
  isConnected s1 = isConnected s2 /\ isRecording s1 = isRecording s2 /\
  isPlaying s1 = isPlaying s2 /\ error s1 = error s2.

(** What holds of a session between calls: the playing flag is down;
    capture runs exactly while the session is active; an active session
    is published as connected and recording, without error; an inactive
    one as neither connected nor recording. *)
Definition sessionInvariant (m : ConversationManager.t) : Prop :=
  isPlaying (ConversationManager.state m) = false /\
  AudioInterface.isRunning (ConversationManager.audioInterface m) =
    ConversationManager.isRunning m /\
  (ConversationManager.isRunning m = true ->
   isConnected (ConversationManager.state m) = true /\
   isRecording (ConversationManager.state m) = true /\
   error (ConversationManager.state m) = None) /\
  (ConversationManager.isRunning m = false ->
   isConnected (ConversationManager.state m) = false /\
   isRecording (ConversationManager.state m) = false).

(** ** The example application *)

Module ConversationApp.

(** Truthiness of [conversationState.error]: [null] and the empty string
    are falsy. *)
Definition truthy (error : option string) : bool :=
  match error with
  | Some EmptyString => false
  | Some _ => true
  | None => false
  end.

Definition getStatusText (conversationState : ConversationState) : string :=
  if truthy (error conversationState) then "Error"
  else if negb (isConnected conversationState) then "Disconnected"
  else if isRecording conversationState then "Listening"
  else "Connected".

Definition getStatusColor (conversationState : ConversationState) : string :=
  if truthy (error conversationState) then "#ef4444"
  else if negb (isConnected conversationState) then "#6b7280"
  else if isRecording conversationState then "#10b981"
  else "#3b82f6".

End ConversationApp.

Module PulsingBubble.

(** The scale [animate] applies to the bubble. *)
Definition scale (amplitude minScale maxScale : Q) : Q :=
  let normalizedAmplitude := Js.Math_min (Js.Math_max amplitude 0) 1 in
  (minScale + normalizedAmplitude * (maxScale - minScale))%Q.

End PulsingBubble.

(** * Properties *)

(** ** Comparisons of numbers *)

Section JsFacts.

Local Open Scope Q_scope.

Lemma ltb_lt a b : Js.ltb a b = true <-> a < b.
Proof.
  unfold Js.ltb. rewrite negb_true_iff.
  split; intro H.
  - apply Qnot_le_lt. intro Hle. apply Qle_bool_iff in Hle. congruence.
  - destruct (Qle_bool b a) eqn:E; [|reflexivity].
    apply Qle_bool_iff in E. exfalso. exact (Qlt_not_le _ _ H E).
Qed.

Lemma ltb_ge a b : Js.ltb a b = false <-> b <= a.
Proof. unfold Js.ltb. rewrite negb_false_iff. apply Qle_bool_iff. Qed.

Lemma gtb_gt a b : Js.gtb a b = true <-> b < a.
Proof. apply ltb_lt. Qed.

Lemma gtb_le a b : Js.gtb a b = false <-> a <= b.
Proof. apply ltb_ge. Qed.

End JsFacts.

(** ** The noise floor and the speech threshold *)

Section VADFacts.

Variable Math_sqrt : Q -> Q.

Local Open Scope Q_scope.

(** [calculateRMS] returns 0 below the noise floor and the measured
    value from the noise floor up. *)
Lemma calculateRMS_cases audioData :
  (rawRMS Math_sqrt audioData < noiseFloor /\
   calculateRMS Math_sqrt audioData = 0) \/
  (noiseFloor <= rawRMS Math_sqrt audioData /\
   calculateRMS Math_sqrt audioData = rawRMS Math_sqrt audioData).
Proof.
  unfold calculateRMS.
  destruct (Js.ltb (rawRMS Math_sqrt audioData) noiseFloor) eqn:E.
  - left. split; [now apply ltb_lt | reflexivity].
  - right. split; [now apply ltb_ge | reflexivity].
Qed.

Lemma isSpeech_true audioData :
  isSpeech Math_sqrt audioData = true <->
  silenceThreshold < calculateRMS Math_sqrt audioData.
Proof. unfold isSpeech. apply gtb_gt. Qed.

Lemma isSpeech_false audioData :
  isSpeech Math_sqrt audioData = false <->
  calculateRMS Math_sqrt audioData <= silenceThreshold.
Proof. unfold isSpeech. apply gtb_le. Qed.

Lemma silentFrame_not_speech audioData :
  silentFrame Math_sqrt audioData -> isSpeech Math_sqrt audioData = false.
Proof.
  unfold silentFrame. intro H. apply isSpeech_false. now apply Qlt_le_weak.
Qed.

(** C10: a frame is classified as speech exactly when its unclamped RMS
    is at least 0.02; the clamped RMS is never strictly between 0 and
    0.02; so the classification is the same as "the clamped RMS is
    positive" and the 0.01 threshold decides nothing. *)
Theorem C10_speech_iff_raw_rms_reaches_noise_floor (audioData : list Q) :
  (isSpeech Math_sqrt audioData = true <->
   2 # 100 <= rawRMS Math_sqrt audioData) /\
  ~ (0 < calculateRMS Math_sqrt audioData /\
     calculateRMS Math_sqrt audioData < 2 # 100) /\
  (isSpeech Math_sqrt audioData = true <->
   0 < calculateRMS Math_sqrt audioData).
Proof.
  change (2 # 100) with noiseFloor.
  rewrite isSpeech_true.
  destruct (calculateRMS_cases audioData) as [[Hraw Hc] | [Hraw Hc]];
    rewrite Hc; unfold noiseFloor, silenceThreshold in *.
  - repeat split; intros; lra.
  - repeat split; intros; lra.
Qed.

End VADFacts.

(** ** PCM quantisation *)

Section PCMFacts.

Local Open Scope Q_scope.

(** Truncation toward zero keeps the sign and stays within one unit. *)
Lemma trunc_nonneg (x : Q) :
  0 <= x ->
  (0 <= Js.trunc x)%Z /\ inject_Z (Js.trunc x) <= x /\ x < inject_Z (Js.trunc x) + 1.
Proof.
  destruct x as [n d]. unfold Js.trunc, Qle, Qlt. simpl. intro Hn.
  assert (Hn0 : (0 <= n)%Z) by lia.
  pose proof (Z.quot_rem' n (Zpos d)) as Hqr.
  pose proof (Z.rem_bound_pos n (Zpos d) Hn0 ltac:(lia)) as Hr.
  pose proof (Z.quot_pos n (Zpos d) Hn0 ltac:(lia)) as Hq.
  repeat split; nia.
Qed.

Lemma trunc_nonpos (x : Q) :
  x <= 0 ->
  (Js.trunc x <= 0)%Z /\ x <= inject_Z (Js.trunc x) /\ inject_Z (Js.trunc x) - 1 < x.
Proof.
  destruct x as [n d]. unfold Js.trunc, Qle, Qlt. simpl. intro Hn.
  assert (Hn0 : (0 <= - n)%Z) by lia.
  pose proof (Z.quot_rem' (- n) (Zpos d)) as Hqr.
  pose proof (Z.rem_bound_pos (- n) (Zpos d) Hn0 ltac:(lia)) as Hr.
  pose proof (Z.quot_pos (- n) (Zpos d) Hn0 ltac:(lia)) as Hq.
  rewrite Z.quot_opp_l in Hqr, Hq by lia.
  repeat split; nia.
Qed.

Lemma wrap16_small (n : Z) :
  (-32768 <= n <= 32767)%Z -> Js.wrap16 n = n.
Proof.
  intro H. unfold Js.wrap16. rewrite Z.mod_small; lia.
Qed.

Lemma int16_of_pair_bytes (v : Z) :
  (-32768 <= v <= 32767)%Z ->
  match Js.int16_bytes v with
  | [lo; hi] => Js.int16_of_pair lo hi = v
  | _ => False
  end.
Proof.
  intro H. unfold Js.int16_bytes, Js.int16_of_pair.
  destruct (Z.leb_spec 32768 ((v mod 65536) mod 256 + 256 * (v mod 65536 / 256)));
    Z.div_mod_to_equations; lia.
Qed.

(** The byte view of an [Int16Array] reads back as the same array. *)
Lemma Int16Array_bytes_round_trip (a : list Z) :
  Forall (fun v => (-32768 <= v <= 32767)%Z) a ->
  Js.Int16Array_of_bytes (Js.Uint8Array_of_Int16Array a) = Some a.
Proof.
  induction 1 as [|v a Hv _ IH]; [reflexivity|].
  unfold Js.Uint8Array_of_Int16Array in *. cbn [flat_map].
  pose proof (int16_of_pair_bytes v Hv) as Hp.
  unfold Js.int16_bytes in *. cbn [app Js.Int16Array_of_bytes].
  rewrite IH, Hp. reflexivity.
Qed.

Lemma clamp_id (x : Q) : -1 <= x <= 1 -> clamp x == x.
Proof.
  intros [Hlo Hhi]. unfold clamp, Js.Math_max, Js.Math_min.
  destruct (Qle_bool 1 x) eqn:E1.
  - apply Qle_bool_iff in E1. assert (Hx : x == 1) by lra.
    destruct (Qle_bool (-1) 1) eqn:E2; [lra|].
    exfalso. assert (H : -1 <= 1) by lra. apply Qle_bool_iff in H. congruence.
  - destruct (Qle_bool (-1) x) eqn:E2; [lra|].
    apply Qle_bool_iff in Hlo. congruence.
Qed.

(** One sample through [float32ArrayToInt16Array] and back. *)
Lemma sample_round_trip (x : Q) :
  -1 <= x <= 1 ->
  let v := Js.trunc (clamp x * 32767) in
  let y := inject_Z v / 32768 in
  (-32767 <= v <= 32767)%Z /\
  Qabs (x - y) < 2 # 32768 /\ (0 <= x -> 0 <= y) /\ (x <= 0 -> y <= 0).
Proof.
  intros Hx v y. pose proof (clamp_id x Hx) as Hc.
  assert (Hy : y * 32768 == inject_Z v) by (unfold y; field).
  clearbody y.
  assert (Hrange : -32767 <= inject_Z v <= 32767 ->
                   (-32767 <= v <= 32767)%Z).
  { intros [Hl Hu]. split; rewrite Zle_Qle; assumption. }
  destruct (Qlt_le_dec x 0) as [Hneg | Hpos].
  - destruct (trunc_nonpos (clamp x * 32767)) as (Hv0 & Hup & Hlo); [lra|].
    fold v in Hv0, Hup, Hlo. rewrite Zle_Qle in Hv0.
    change (inject_Z 0) with 0 in Hv0.
    split; [apply Hrange; lra|].
    split; [apply Qabs_Qlt_condition; split; lra|].
    split; intro; lra.
  - destruct (trunc_nonneg (clamp x * 32767)) as (Hv0 & Hlo & Hup); [lra|].
    fold v in Hv0, Hup, Hlo. rewrite Zle_Qle in Hv0.
    change (inject_Z 0) with 0 in Hv0.
    split; [apply Hrange; lra|].
    split; [apply Qabs_Qlt_condition; split; lra|].
    split; intro; lra.
Qed.

Lemma float32ArrayToInt16Array_in_range (float32Array : list Q) :
  Forall (fun x => -1 <= x <= 1) float32Array ->
  Forall2 (fun x v => v = Js.trunc (clamp x * 32767) /\
                      (-32767 <= v <= 32767)%Z)
          float32Array (float32ArrayToInt16Array float32Array).
Proof.
  induction 1 as [|x xs Hx _ IH]; [constructor|].
  cbn [float32ArrayToInt16Array map]. constructor; [|exact IH].
  destruct (sample_round_trip x Hx) as (Hv & _).
  unfold Js.ToInt16. rewrite wrap16_small by lia. split; [reflexivity|exact Hv].
Qed.

Lemma convertPCMToFloat32_framePCM (float32Array : list Q) :
  Forall (fun x => -1 <= x <= 1) float32Array ->
  convertPCMToFloat32 (framePCM float32Array) =
  Some (map (fun v => inject_Z v / 32768)
            (float32ArrayToInt16Array float32Array)).
Proof.
  intro H. unfold convertPCMToFloat32, framePCM.
  rewrite Int16Array_bytes_round_trip; [reflexivity|].
  apply float32ArrayToInt16Array_in_range in H.
  induction H as [|x v xs vs [_ Hv] _ IH]; constructor; [lia|exact IH].
Qed.

(** C8, as the code has it: for samples in [-1, 1] the conversion to
    int16 and back is defined, each sample comes back within strictly
    less than 2/32768 of the original (not 1/32768: the scale is 32767
    one way and 32768 the other), its sign is never flipped, and the
    int16 value is the truncated product itself, within
    [-32767, 32767], so nothing wraps. *)
Theorem C8_pcm_round_trip_within_two_steps (float32Array : list Q) :
  Forall (fun x => -1 <= x <= 1) float32Array ->
  exists back,
    convertPCMToFloat32 (framePCM float32Array) = Some back /\
    Forall2 (fun x y => Qabs (x - y) < 2 # 32768 /\
                        (0 <= x -> 0 <= y) /\ (x <= 0 -> y <= 0))
            float32Array back /\
    Forall2 (fun x v => v = Js.trunc (clamp x * 32767) /\
                        (-32767 <= v <= 32767)%Z)
            float32Array (float32ArrayToInt16Array float32Array).
Proof.
  intro H. eexists. split; [apply convertPCMToFloat32_framePCM; exact H|].
  split; [|apply float32ArrayToInt16Array_in_range; exact H].
  induction H as [|x xs Hx _ IH]; [constructor|].
  cbn [float32ArrayToInt16Array map]. constructor; [|exact IH].
  destruct (sample_round_trip x Hx) as (Hv & Herr & Hsign).
  unfold Js.ToInt16. rewrite wrap16_small by lia. split; assumption.
Qed.

Lemma C8_pcm_round_trip_within_two_steps_witness :
  exists back,
    convertPCMToFloat32 (framePCM [65535 # 65536; - (1 # 3); 0; 1]) = Some back /\
    Forall2 (fun x y => Qabs (x - y) < 2 # 32768 /\
                        (0 <= x -> 0 <= y) /\ (x <= 0 -> y <= 0))
            [65535 # 65536; - (1 # 3); 0; 1] back /\
    Forall2 (fun x v => v = Js.trunc (clamp x * 32767) /\
                        (-32767 <= v <= 32767)%Z)
            [65535 # 65536; - (1 # 3); 0; 1]
            (float32ArrayToInt16Array [65535 # 65536; - (1 # 3); 0; 1]).
Proof.
  apply (C8_pcm_round_trip_within_two_steps [65535 # 65536; - (1 # 3); 0; 1]).
  repeat constructor; vm_compute; congruence.
Defined.

(** C8 as stated fails: the float32 value 1 - 2^-16 becomes 32766 and
    comes back as 32766/32768, which is 1.5/32768 away. *)
Lemma C8_error_exceeds_one_step :
  -1 <= 65535 # 65536 <= 1 /\
  float32ArrayToInt16Array [65535 # 65536] = [32766%Z] /\
  convertPCMToFloat32 (framePCM [65535 # 65536]) = Some [32766 # 32768] /\
  ~ Qabs ((65535 # 65536) - (32766 # 32768)) <= 1 # 32768.
Proof.
  split; [split; vm_compute; congruence|].
  split; [reflexivity|]. split; [reflexivity|].
  vm_compute. intro H. apply H. reflexivity.
Qed.

End PCMFacts.

(** ** Method by method *)

Ltac act_unfold :=
  cbv [deliver
       AudioInterface.onaudioprocess AudioInterface.processAudioData
       AudioInterface.checkForSpeech AudioInterface.bufferAudio
       AudioInterface.sendBatchedAudio AudioInterface.start
       AudioInterface.playNextOutputChunk AudioInterface.play
       AudioInterface.setAudioPlaybackState AudioInterface.interruptPlayback
       AudioInterface.releaseCurrentOutputSource AudioInterface.stop
       bind ret throw tryCatch get gets modify emit when
       completion after effects fst snd].

Ltac break_match :=
  match goal with
  | |- context [match ?x with _ => _ end] =>
      lazymatch x with
      | context [match _ with _ => _ end] => fail
      | _ => destruct x eqn:?
      end
  end.

Ltac act_cases := act_unfold; repeat break_match; cbn.

Section StepFacts.

Variable Math_sqrt : Q -> Q.

(** [shouldSendAudio] is true exactly inside the trailing window. *)
Lemma shouldSendAudio_spec (now : Z) (a : AudioInterface.t) :
  AudioInterface.shouldSendAudio now a = true <->
  exists last, AudioInterface.lastSpeechTime a = Some last /\
               now - last < silenceTimeout.
Proof.
  unfold AudioInterface.shouldSendAudio.
  destruct (AudioInterface.lastSpeechTime a) as [last|].
  - rewrite Z.ltb_lt. split.
    + intro H. exists last. split; [reflexivity | exact H].
    + intros (l & Hl & H). injection Hl as <-. exact H.
  - split; [discriminate|]. intros (l & Hl & _). discriminate.
Qed.

(** Only a frame classified as speech writes [lastSpeechTime]. *)
Lemma silentEvent_keeps_lastSpeechTime (ev : Event) (a : AudioInterface.t) :
  silentEvent Math_sqrt ev ->
  AudioInterface.lastSpeechTime (after (deliver Math_sqrt ev a)) =
  AudioInterface.lastSpeechTime a.
Proof.
  destruct ev; cbn [silentEvent]; intro H.
  - apply silentFrame_not_speech in H.
    act_unfold. rewrite H. repeat break_match; reflexivity.
  - act_cases; reflexivity.
  - act_cases; reflexivity.
  - act_cases; reflexivity.
  - act_cases; reflexivity.
  - act_cases; reflexivity.
  - act_cases; reflexivity.
Qed.

Lemma run_nil (a : AudioInterface.t) : run Math_sqrt [] a = a.
Proof. reflexivity. Qed.

Lemma run_cons (ev : Event) (evs : list Event) (a : AudioInterface.t) :
  run Math_sqrt (ev :: evs) a =
  run Math_sqrt evs (after (deliver Math_sqrt ev a)).
Proof.
  unfold run. cbn [runLog].
  destruct (runLog Math_sqrt evs (after (deliver Math_sqrt ev a))). reflexivity.
Qed.

Lemma runLog_cons (ev : Event) (evs : list Event) (a : AudioInterface.t) :
  fst (runLog Math_sqrt (ev :: evs) a) =
  (ev, effects (deliver Math_sqrt ev a))
    :: fst (runLog Math_sqrt evs (after (deliver Math_sqrt ev a))).
Proof.
  cbn [runLog].
  destruct (runLog Math_sqrt evs (after (deliver Math_sqrt ev a))). reflexivity.
Qed.

Lemma runEffects_cons (ev : Event) (evs : list Event) (a : AudioInterface.t) :
  runEffects Math_sqrt (ev :: evs) a =
  effects (deliver Math_sqrt ev a)
    ++ runEffects Math_sqrt evs (after (deliver Math_sqrt ev a)).
Proof. unfold runEffects. rewrite runLog_cons. reflexivity. Qed.

Lemma silent_run_keeps_lastSpeechTime (evs : list Event) (a : AudioInterface.t) :
  Forall (silentEvent Math_sqrt) evs ->
  AudioInterface.lastSpeechTime (run Math_sqrt evs a) =
  AudioInterface.lastSpeechTime a.
Proof.
  intro H. revert a. induction H as [|ev evs Hev _ IH]; intro a.
  - reflexivity.
  - rewrite run_cons, IH. apply silentEvent_keeps_lastSpeechTime. exact Hev.
Qed.

(** C7: "should transmit" is true exactly when a last-speech time is
    recorded and less than 2000 ms old; so, with a clock that does not
    run backwards, no run of frames below the speech threshold (and of
    anything else that is not a capture frame) takes it from false to
    true. *)
Theorem C7_should_transmit_needs_recent_speech
        (a : AudioInterface.t) (evs : list Event) (before later : Z) :
  Forall (silentEvent Math_sqrt) evs ->
  AudioInterface.shouldSendAudio before a = false ->
  before <= later ->
  (forall now s,
      AudioInterface.shouldSendAudio now s = true <->
      exists last, AudioInterface.lastSpeechTime s = Some last /\
                   now - last < 2000) /\
  AudioInterface.shouldSendAudio later (run Math_sqrt evs a) = false.
Proof.
  intros Hsilent Hbefore Hclock. split; [exact shouldSendAudio_spec|].
  unfold AudioInterface.shouldSendAudio in *.
  rewrite (silent_run_keeps_lastSpeechTime evs a Hsilent).
  destruct (AudioInterface.lastSpeechTime a) as [last|]; [|reflexivity].
  apply Z.ltb_ge in Hbefore. apply Z.ltb_ge. lia.
Qed.

End StepFacts.

Lemma C7_should_transmit_needs_recent_speech_witness :
  AudioInterface.shouldSendAudio 2000 Example.audioAfterSpeech = false /\
  AudioInterface.shouldSendAudio
    2128 (run Js.Qsqrt (frameEvents 2000 64 [Example.silence; Example.silence])
              Example.audioAfterSpeech) = false.
Proof.
  split; [reflexivity|].
  apply (C7_should_transmit_needs_recent_speech
           Js.Qsqrt Example.audioAfterSpeech
           (frameEvents 2000 64 [Example.silence; Example.silence]) 2000 2128).
  - repeat constructor.
  - reflexivity.
  - lia.
Defined.


(** ** The flush policy *)

Section FlushFacts.

Variable Math_sqrt : Q -> Q.

Lemma atFlushCheck_lastSendTime audioData currentTime now1 a :
  AudioInterface.lastSendTime (atFlushCheck Math_sqrt audioData currentTime now1 a) =
  AudioInterface.lastSendTime a.
Proof. unfold atFlushCheck. act_cases; reflexivity. Qed.

Lemma onaudioprocess_running audioData currentTime now1 now2 a :
  AudioInterface.isRunning a = true ->
  AudioInterface.onaudioprocess Math_sqrt audioData currentTime now1 now2 a =
  AudioInterface.processAudioData Math_sqrt audioData currentTime now1 now2 a.
Proof.
  intro H. unfold AudioInterface.onaudioprocess. cbv [bind gets].
  rewrite H. cbn [negb].
  destruct (AudioInterface.processAudioData _ _ _ _ _ a) as [[c s] e].
  reflexivity.
Qed.

Lemma onaudioprocess_stopped audioData currentTime now1 now2 a :
  AudioInterface.isRunning a = false ->
  AudioInterface.onaudioprocess Math_sqrt audioData currentTime now1 now2 a =
  (Normal tt, a, []).
Proof.
  intro H. unfold AudioInterface.onaudioprocess. cbv [bind gets].
  rewrite H. reflexivity.
Qed.

Lemma processAudioData_blocks audioData currentTime now1 now2 a :
  let r := AudioInterface.processAudioData Math_sqrt audioData currentTime now1 now2 a in
  let b := atFlushCheck Math_sqrt audioData currentTime now1 a in
  after r = after (AudioInterface.sendBatchedAudio currentTime now2 b) /\
  flushes (effects r) =
  flushes (effects (AudioInterface.sendBatchedAudio currentTime now2 b)) /\
  interrupts (effects r) =
  interrupts (effects (AudioInterface.checkForSpeech Math_sqrt audioData currentTime a)).
Proof.
  unfold atFlushCheck. act_unfold.
  repeat break_match; repeat split; reflexivity.
Qed.

Lemma sendBatchedAudio_spec currentTime now b :
  let r := AudioInterface.sendBatchedAudio currentTime now b in
  if AudioInterface.flushDue currentTime now b then
    flushes (effects r) = [List.concat (AudioInterface.audioBufferParts b)] /\
    AudioInterface.audioBufferParts (after r) = [] /\
    AudioInterface.lastSendTime (after r) = currentTime
  else
    flushes (effects r) = [] /\ after r = b.
Proof.
  act_unfold. destruct (AudioInterface.flushDue currentTime now b);
    repeat split; reflexivity.
Qed.

Lemma flushDue_spec currentTime now b :
  AudioInterface.flushDue currentTime now b = true <->
  500 <= currentTime - AudioInterface.lastSendTime b /\
  AudioInterface.audioBufferParts b <> [] /\
  AudioInterface.shouldSendAudio now b = true.
Proof.
  unfold AudioInterface.flushDue, sendInterval.
  rewrite !andb_true_iff, Z.leb_le, Z.ltb_lt.
  destruct (AudioInterface.audioBufferParts b); simpl List.length; split.
  - intros [[_ H] _]. lia.
  - intros (_ & H & _). congruence.
  - intros [[H _] Hs]. repeat split; [exact H | discriminate | exact Hs].
  - intros (H & _ & Hs). repeat split; [exact H | exact Hs].
Qed.

Lemma processAudioData_flush audioData currentTime now1 now2 a :
  let r := AudioInterface.processAudioData Math_sqrt audioData currentTime now1 now2 a in
  let b := atFlushCheck Math_sqrt audioData currentTime now1 a in
  if AudioInterface.flushDue currentTime now2 b then
    flushes (effects r) = [List.concat (AudioInterface.audioBufferParts b)] /\
    AudioInterface.audioBufferParts (after r) = [] /\
    AudioInterface.lastSendTime (after r) = currentTime
  else
    flushes (effects r) = [] /\ after r = b.
Proof.
  intros r b.
  destruct (processAudioData_blocks audioData currentTime now1 now2 a)
    as (Hafter & Hflush & _).
  fold r b in Hafter, Hflush. rewrite Hafter, Hflush.
  apply sendBatchedAudio_spec.
Qed.

(** What a capture callback does to the flush timer. *)
Lemma onaudioprocess_flush audioData currentTime now1 now2 a :
  let r := AudioInterface.onaudioprocess Math_sqrt audioData currentTime now1 now2 a in
  (flushes (effects r) = [] /\
   AudioInterface.lastSendTime (after r) = AudioInterface.lastSendTime a) \/
  (exists payload, flushes (effects r) = [payload] /\
   500 <= currentTime - AudioInterface.lastSendTime a /\
   AudioInterface.lastSendTime (after r) = currentTime).
Proof.
  intro r. subst r.
  destruct (AudioInterface.isRunning a) eqn:Hrun.
  2: { rewrite onaudioprocess_stopped by exact Hrun. left. split; reflexivity. }
  rewrite onaudioprocess_running by exact Hrun.
  pose proof (processAudioData_flush audioData currentTime now1 now2 a) as H.
  cbv zeta in H.
  destruct (AudioInterface.flushDue currentTime now2
              (atFlushCheck Math_sqrt audioData currentTime now1 a)) eqn:Hdue.
  - right. destruct H as (Hf & _ & Ht).
    apply flushDue_spec in Hdue. destruct Hdue as (Hd & _ & _).
    rewrite atFlushCheck_lastSendTime in Hd.
    eexists. repeat split; [exact Hf | exact Hd | exact Ht].
  - left. destruct H as (Hf & Ha). rewrite Ha.
    split; [exact Hf | apply atFlushCheck_lastSendTime].
Qed.

Lemma other_events_keep_flush_timer (ev : Event) (a : AudioInterface.t) :
  match ev with AudioProcess _ _ _ _ => False | _ => True end ->
  AudioInterface.lastSendTime (after (deliver Math_sqrt ev a)) =
  AudioInterface.lastSendTime a.
Proof.
  destruct ev; intro H; try contradiction; act_cases; reflexivity.
Qed.

Lemma flushTimes_cons ev es log :
  flushTimes ((ev, es) :: log) =
  match ev with
  | AudioProcess _ currentTime _ _ => map (fun _ => currentTime) (flushes es)
  | _ => []
  end ++ flushTimes log.
Proof. destruct ev; reflexivity. Qed.

Lemma flushes_spaced (evs : list Event) (a : AudioInterface.t) :
  spaced (AudioInterface.lastSendTime a)
         (flushTimes (fst (runLog Math_sqrt evs a))).
Proof.
  revert a. induction evs as [|ev evs IH]; intro a; [exact I|].
  rewrite runLog_cons, flushTimes_cons.
  pose proof (other_events_keep_flush_timer ev a) as Hkeep.
  specialize (IH (after (deliver Math_sqrt ev a))).
  destruct ev as [audioData currentTime now1 now2| | | | | |];
    try (cbn [app]; rewrite <- (Hkeep I); exact IH).
  cbn [deliver] in *.
  destruct (onaudioprocess_flush audioData currentTime now1 now2 a)
    as [[Hf Ht] | (payload & Hf & Hd & Ht)];
    rewrite Hf; cbn [map app spaced].
  - rewrite <- Ht. exact IH.
  - split; [exact Hd|]. rewrite Ht in IH. exact IH.
Qed.

(** C6: a capture step hands a frame to the transport exactly when the
    send interval has elapsed since [lastSendTime], the buffer (with
    this frame's bytes, if it was buffered) is not empty and "should
    transmit" holds; the frame sent is the whole buffer, which is then
    empty, and the timer restarts at this step's time; otherwise
    nothing is sent and the timer stands.  So along any run the flushes
    are at least one send interval apart. *)
Theorem C6_flush_when_due_and_never_sooner
        (a : AudioInterface.t) (audioData : list Q)
        (currentTime now1 now2 : Z) (evs : list Event) :
  let r := AudioInterface.processAudioData Math_sqrt audioData currentTime now1 now2 a in
  let b := atFlushCheck Math_sqrt audioData currentTime now1 a in
  (flushes (effects r) <> [] <->
   500 <= currentTime - AudioInterface.lastSendTime a /\
   AudioInterface.audioBufferParts b <> [] /\
   AudioInterface.shouldSendAudio now2 b = true) /\
  (flushes (effects r) = [List.concat (AudioInterface.audioBufferParts b)] /\
   AudioInterface.audioBufferParts (after r) = [] /\
   AudioInterface.lastSendTime (after r) = currentTime
   \/
   flushes (effects r) = [] /\
   AudioInterface.audioBufferParts (after r) = AudioInterface.audioBufferParts b /\
   AudioInterface.lastSendTime (after r) = AudioInterface.lastSendTime a) /\
  spaced (AudioInterface.lastSendTime a)
         (flushTimes (fst (runLog Math_sqrt evs a))).
Proof.
  intros r b.
  pose proof (processAudioData_flush audioData currentTime now1 now2 a) as H.
  pose proof (flushDue_spec currentTime now2
                (atFlushCheck Math_sqrt audioData currentTime now1 a)) as Hdue.
  rewrite (atFlushCheck_lastSendTime audioData currentTime now1 a) in Hdue.
  cbv zeta in H. fold r b in H, Hdue.
  destruct (AudioInterface.flushDue currentTime now2 b).
  - destruct H as (Hf & Hb & Ht). split; [|split].
    + rewrite Hf. split; [intros _; apply Hdue; reflexivity | discriminate].
    + left. repeat split; assumption.
    + apply flushes_spaced.
  - destruct H as (Hf & Ha). split; [|split].
    + rewrite Hf. split; [congruence|].
      intro Hc. apply Hdue in Hc. discriminate.
    + right. rewrite Ha. repeat split;
        [exact Hf | apply atFlushCheck_lastSendTime].
    + apply flushes_spaced.
Qed.

End FlushFacts.

(** ** Arming and disarming the interrupt *)

Section InterruptFacts.

Variable Math_sqrt : Q -> Q.

(** [checkForSpeech] fires exactly when the frame is speech above the
    interrupt threshold, playback is marked active and the callback is
    there; having fired, it lowers the flag. *)
Lemma checkForSpeech_spec audioData currentTime a :
  let r := AudioInterface.checkForSpeech Math_sqrt audioData currentTime a in
  if isSpeech Math_sqrt audioData
     && (AudioInterface.isAudioPlaying a
         && Js.gtb (calculateRMS Math_sqrt audioData) interruptThreshold
         && AudioInterface.onInterrupt a)
  then interrupts (effects r) = 1%nat /\
       AudioInterface.isAudioPlaying (after r) = false
  else interrupts (effects r) = 0%nat /\
       AudioInterface.isAudioPlaying (after r) = AudioInterface.isAudioPlaying a.
Proof.
  act_unfold. cbn.
  destruct (isSpeech Math_sqrt audioData); cbn; [|split; reflexivity].
  destruct (AudioInterface.isAudioPlaying a
            && Js.gtb (calculateRMS Math_sqrt audioData) interruptThreshold
            && AudioInterface.onInterrupt a); cbn; split; reflexivity.
Qed.

Lemma processAudioData_isAudioPlaying audioData currentTime now1 now2 a :
  AudioInterface.isAudioPlaying
    (after (AudioInterface.processAudioData Math_sqrt audioData currentTime now1 now2 a)) =
  AudioInterface.isAudioPlaying
    (after (AudioInterface.checkForSpeech Math_sqrt audioData currentTime a)).
Proof. act_cases; reflexivity. Qed.

(** The capture callback, seen from the interrupt: it fires at most
    once, only with the flag up, and leaves the flag down if it fired
    and as it was otherwise. *)
Lemma onaudioprocess_interrupt audioData currentTime now1 now2 a :
  let r := AudioInterface.onaudioprocess Math_sqrt audioData currentTime now1 now2 a in
  (interrupts (effects r) = 1%nat /\
   AudioInterface.isAudioPlaying a = true /\
   AudioInterface.isAudioPlaying (after r) = false) \/
  (interrupts (effects r) = 0%nat /\
   AudioInterface.isAudioPlaying (after r) = AudioInterface.isAudioPlaying a).
Proof.
  intro r. subst r.
  destruct (AudioInterface.isRunning a) eqn:Hrun.
  2: { rewrite onaudioprocess_stopped by exact Hrun. right. split; reflexivity. }
  rewrite onaudioprocess_running by exact Hrun.
  destruct (processAudioData_blocks Math_sqrt audioData currentTime now1 now2 a)
    as (_ & _ & Hint).
  rewrite Hint, processAudioData_isAudioPlaying.
  pose proof (checkForSpeech_spec audioData currentTime a) as H. cbv zeta in H.
  destruct (isSpeech Math_sqrt audioData); cbn [andb] in H; [|right; exact H].
  destruct (AudioInterface.isAudioPlaying a); cbn [andb] in H; [|right; exact H].
  destruct (Js.gtb _ _ && AudioInterface.onInterrupt a);
    [left | right]; intuition.
Qed.

(** With the flag down and nothing raising it, an event fires no
    interrupt and leaves the flag down. *)
Lemma disarmed_event (ev : Event) (a : AudioInterface.t) :
  rearms ev = false ->
  AudioInterface.isAudioPlaying a = false ->
  interrupts (effects (deliver Math_sqrt ev a)) = 0%nat /\
  AudioInterface.isAudioPlaying (after (deliver Math_sqrt ev a)) = false.
Proof.
  intros Hev Ha.
  destruct ev as [audioData currentTime now1 now2| | |isPlaying| | |];
    try discriminate.
  - cbn [deliver].
    destruct (onaudioprocess_interrupt audioData currentTime now1 now2 a)
      as [(_ & Hup & _) | (Hi & Hp)]; [congruence|].
    split; [exact Hi | congruence].
  - act_cases; split; (reflexivity || assumption).
  - destruct isPlaying; [discriminate|]. split; reflexivity.
  - act_cases; split; reflexivity.
  - act_cases; split; (reflexivity || assumption).
  - act_cases; split; (reflexivity || assumption).
Qed.

Lemma interrupts_app (es1 es2 : list Effect) :
  interrupts (es1 ++ es2) = (interrupts es1 + interrupts es2)%nat.
Proof. unfold interrupts. rewrite filter_app, length_app. reflexivity. Qed.

Lemma disarmed_run (evs : list Event) (a : AudioInterface.t) :
  forallb (fun ev => negb (rearms ev)) evs = true ->
  AudioInterface.isAudioPlaying a = false ->
  interrupts (runEffects Math_sqrt evs a) = 0%nat /\
  AudioInterface.isAudioPlaying (run Math_sqrt evs a) = false.
Proof.
  revert a. induction evs as [|ev evs IH]; intros a Hevs Ha.
  - split; [reflexivity | exact Ha].
  - cbn [forallb] in Hevs. apply andb_true_iff in Hevs as [Hev Hevs].
    apply negb_true_iff in Hev.
    destruct (disarmed_event ev a Hev Ha) as [Hi Hp].
    destruct (IH _ Hevs Hp) as [Hi' Hp'].
    rewrite runEffects_cons, run_cons, interrupts_app, Hi, Hi'.
    split; [reflexivity | exact Hp'].
Qed.

(** C5: a capture callback that fired the interrupt leaves the
    playback-active flag down, and from there no run of events without
    a [play] and without [setAudioPlaybackState(true)] fires it again,
    whatever frames the run contains; each of those two raises the flag
    again. *)
Theorem C5_one_interrupt_until_rearmed
        (a : AudioInterface.t) (audioData : list Q)
        (currentTime now1 now2 : Z) (evs : list Event) :
  let r := AudioInterface.onaudioprocess Math_sqrt audioData currentTime now1 now2 a in
  interrupts (effects r) <> 0%nat ->
  forallb (fun ev => negb (rearms ev)) evs = true ->
  AudioInterface.isAudioPlaying (after r) = false /\
  interrupts (runEffects Math_sqrt evs (after r)) = 0%nat /\
  AudioInterface.isAudioPlaying (run Math_sqrt evs (after r)) = false /\
  (forall s, AudioInterface.isAudioPlaying
               (after (AudioInterface.setAudioPlaybackState true s)) = true) /\
  (forall s chunk startResult,
      AudioInterface.outputAudioContext s = true ->
      AudioInterface.isAudioPlaying
        (after (AudioInterface.play chunk startResult s)) = true).
Proof.
  intros r Hfired Hevs.
  destruct (onaudioprocess_interrupt audioData currentTime now1 now2 a)
    as [(_ & _ & Hdown) | (Hi & _)]; [|contradiction].
  fold r in Hdown.
  destruct (disarmed_run evs (after r) Hevs Hdown) as [Hnone Hstill].
  repeat split; try assumption.
  intros s chunk startResult Hctx. act_unfold. rewrite Hctx. cbn.
  destruct (AudioInterface.isOutputPlaying s); cbn; [reflexivity|].
  rewrite Hctx. cbn.
  destruct (AudioInterface.outputQueue s); cbn;
    repeat break_match; reflexivity.
Qed.

End InterruptFacts.

Lemma C5_one_interrupt_until_rearmed_witness :
  interrupts
    (runEffects Js.Qsqrt
       [AudioProcess Example.speech010 164 164 164; Ended None;
        AudioProcess Example.speech010 228 228 228]
       (after (AudioInterface.onaudioprocess Js.Qsqrt Example.speech010
                 100 100 100 Example.audioPlaying))) = 0%nat.
Proof.
  apply (C5_one_interrupt_until_rearmed
           Js.Qsqrt Example.audioPlaying Example.speech010 100 100 100
           [AudioProcess Example.speech010 164 164 164; Ended None;
            AudioProcess Example.speech010 228 228 228]).
  - vm_compute. discriminate.
  - reflexivity.
Defined.

(** ** The interrupt at the session level *)

Ltac cm_unfold :=
  cbv [ConversationManager.onAudioInput ConversationManager.onAmplitudeChange
       ConversationManager.onInterrupt ConversationManager.updateState
       ConversationManager.onWebSocketManager
       WebSocketManager.sendAudioData WebSocketManager.sendInterrupt
       WebSocketManager.sendMessage
       bind ret throw tryCatch get gets modify emit when
       completion after effects fst snd].

Section SessionFacts.

Variable Math_sqrt : Q -> Q.

Lemma interruptSignals_app (es1 es2 : list Effect) :
  interruptSignals (es1 ++ es2) =
  (interruptSignals es1 + interruptSignals es2)%nat.
Proof.
  unfold interruptSignals, sent.
  rewrite flat_map_app, filter_app, length_app. reflexivity.
Qed.

(** Running the callbacks of an effect list: the collaborators and the
    running flag are untouched, and every [OnInterrupt] becomes one
    "interrupt" message if the socket can send and none if it cannot. *)
Lemma callbacks_spec (es : list Effect) (s : ConversationManager.t) :
  let r := ConversationManager.callbacks es s in
  completion r = Normal tt /\
  ConversationManager.audioInterface (after r) =
    ConversationManager.audioInterface s /\
  ConversationManager.webSocketManager (after r) =
    ConversationManager.webSocketManager s /\
  ConversationManager.isRunning (after r) = ConversationManager.isRunning s /\
  interruptSignals (effects r) =
    (interruptSignals es +
     if WebSocketManager.canSend (ConversationManager.webSocketManager s)
     then interrupts es else 0)%nat.
Proof.
  cbv zeta. revert s. induction es as [|e es IH]; intro s.
  - cbn. destruct (WebSocketManager.canSend _); repeat split; reflexivity.
  - cbn [ConversationManager.callbacks].
    set (step := match e with
                 | AmplitudeCallback amplitude =>
                     ConversationManager.onAmplitudeChange amplitude
                 | OnInterrupt => ConversationManager.onInterrupt
                 | InputCallback audioData =>
                     ConversationManager.onAudioInput audioData
                 | _ => emit e
                 end).
    assert (Hstep :
      completion (step s) = Normal tt /\
      ConversationManager.audioInterface (after (step s)) =
        ConversationManager.audioInterface s /\
      ConversationManager.webSocketManager (after (step s)) =
        ConversationManager.webSocketManager s /\
      ConversationManager.isRunning (after (step s)) =
        ConversationManager.isRunning s /\
      interruptSignals (effects (step s)) =
        (interruptSignals [e] +
         if WebSocketManager.canSend (ConversationManager.webSocketManager s)
         then interrupts [e] else 0)%nat).
    { subst step. destruct e; cm_unfold; cbn;
        repeat break_match; cbn; repeat split; reflexivity. }
    destruct Hstep as (Hc & Ha & Hw & Hr & Hi).
    unfold bind. destruct (step s) as [[c s1] e1] eqn:Hs.
    cbn [completion after effects fst snd] in *. subst c.
    specialize (IH s1). destruct (ConversationManager.callbacks es s1) as [[c2 s2] e2].
    cbn [completion after effects fst snd] in *.
    destruct IH as (Hc2 & Ha2 & Hw2 & Hr2 & Hi2).
    rewrite Hw in Hi2.
    repeat split; try congruence.
    rewrite interruptSignals_app, Hi, Hi2.
    change (e :: es) with ([e] ++ es).
    rewrite interruptSignals_app, interrupts_app.
    destruct (WebSocketManager.canSend _); lia.
Qed.

(** The audio interface itself never writes to the socket. *)
Lemma processAudioData_no_socket audioData currentTime now1 now2 a :
  interruptSignals
    (effects (AudioInterface.processAudioData Math_sqrt audioData
                currentTime now1 now2 a)) = 0%nat.
Proof. act_cases; reflexivity. Qed.

Lemma qualifyingFrame_fires audioData currentTime a :
  qualifyingFrame Math_sqrt audioData ->
  AudioInterface.isAudioPlaying a = true ->
  AudioInterface.onInterrupt a = true ->
  let r := AudioInterface.checkForSpeech Math_sqrt audioData currentTime a in
  interrupts (effects r) = 1%nat /\
  AudioInterface.isAudioPlaying (after r) = false.
Proof.
  intros [Hspeech Hrms] Hplaying Hcallback.
  pose proof (checkForSpeech_spec Math_sqrt audioData currentTime a) as H.
  cbv zeta in H. apply gtb_gt in Hrms.
  rewrite Hspeech, Hplaying, Hcallback, Hrms in H. exact H.
Qed.

(** The capture callback leaves the playback queue alone. *)
Lemma processAudioData_keeps_playback audioData currentTime now1 now2 a :
  let r := AudioInterface.processAudioData Math_sqrt audioData
             currentTime now1 now2 a in
  AudioInterface.outputQueue (after r) = AudioInterface.outputQueue a /\
  AudioInterface.isOutputPlaying (after r) = AudioInterface.isOutputPlaying a /\
  AudioInterface.currentOutputSource (after r) =
    AudioInterface.currentOutputSource a /\
  renderStops (effects r) = [].
Proof. act_cases; repeat split; reflexivity. Qed.

(** The session's callbacks stop no source. *)
Lemma callbacks_renderStops (es : list Effect) (s : ConversationManager.t) :
  renderStops (effects (ConversationManager.callbacks es s)) = renderStops es.
Proof.
  revert s. induction es as [|e es IH]; intro s; [reflexivity|].
  cbn [ConversationManager.callbacks].
  set (step := match e with
               | AmplitudeCallback amplitude =>
                   ConversationManager.onAmplitudeChange amplitude
               | OnInterrupt => ConversationManager.onInterrupt
               | InputCallback audioData =>
                   ConversationManager.onAudioInput audioData
               | _ => emit e
               end).
  assert (Hstep : completion (step s) = Normal tt /\
                  renderStops (effects (step s)) = renderStops [e]).
  { subst step. destruct e; cm_unfold; cbn;
      repeat break_match; cbn; split; reflexivity. }
  destruct Hstep as [Hc Hs].
  unfold bind. destruct (step s) as [[c s1] e1].
  cbn [completion after effects fst snd] in *. subst c.
  specialize (IH s1).
  destruct (ConversationManager.callbacks es s1) as [[c2 s2] e2].
  cbn [effects snd] in *.
  change (e :: es) with ([e] ++ es).
  unfold renderStops in *. rewrite !flat_map_app, Hs, IH. reflexivity.
Qed.

(** C1, where the code departs from it.  A capture frame classified as
    speech, above the interrupt threshold, while the playback-active
    flag is up: one "interrupt" message goes on the socket when the
    socket is open and running, and the flag is lowered.  But the
    playback queue is not reached: the chunks waiting still wait, the
    queue is as Playing as it was, the source being rendered is still
    set and nothing stops it.  [interruptPlayback()] is the method
    written for this (it empties the queue, stops and forgets the
    source and leaves the queue Idle), and the trigger path does not
    call it. *)
Theorem C1_interrupt_never_reaches_the_queue
        (m : ConversationManager.t) (audioData : list Q)
        (currentTime now1 now2 : Z) :
  let a := ConversationManager.audioInterface m in
  AudioInterface.isRunning a = true ->
  AudioInterface.onInterrupt a = true ->
  AudioInterface.isAudioPlaying a = true ->
  qualifyingFrame Math_sqrt audioData ->
  let r := ConversationManager.onaudioprocess Math_sqrt audioData
             currentTime now1 now2 m in
  let a' := ConversationManager.audioInterface (after r) in
  (interruptSignals (effects r) =
     (if WebSocketManager.canSend (ConversationManager.webSocketManager m)
      then 1 else 0)%nat /\
   AudioInterface.isAudioPlaying a' = false) /\
  (AudioInterface.outputQueue a' = AudioInterface.outputQueue a /\
   AudioInterface.isOutputPlaying a' = AudioInterface.isOutputPlaying a /\
   AudioInterface.currentOutputSource a' = AudioInterface.currentOutputSource a /\
   renderStops (effects r) = []) /\
  (let cleared := AudioInterface.interruptPlayback a in
   Idle (after cleared) /\
   AudioInterface.currentOutputSource (after cleared) = None /\
   renderStops (effects cleared) =
     match AudioInterface.currentOutputSource a with
     | Some source => [source]
     | None => []
     end).
Proof.
  intros a Hrun Hcallback Hplaying Hframe r a'. subst r a'.
  split; [|split].
  3: { subst a. destruct (ConversationManager.audioInterface m)
         as [ic oc st run q op src ap ls parts lt ac oi].
       destruct src; repeat split; reflexivity. }
  all: unfold ConversationManager.onaudioprocess,
         ConversationManager.onAudioInterface;
       fold a; rewrite onaudioprocess_running by exact Hrun.
  - destruct (processAudioData_blocks Math_sqrt audioData currentTime now1 now2 a)
      as (_ & _ & Hint).
    pose proof (processAudioData_isAudioPlaying Math_sqrt audioData
                  currentTime now1 now2 a) as Hflag.
    pose proof (processAudioData_no_socket audioData currentTime now1 now2 a)
      as Hsock.
    destruct (qualifyingFrame_fires audioData currentTime _ Hframe Hplaying Hcallback)
      as [Hone Hdown].
    rewrite Hone in Hint. rewrite Hdown in Hflag.
    destruct (AudioInterface.processAudioData _ _ _ _ _ _) as [[c a'] es].
    cbn [completion after effects fst snd] in *.
    pose proof (callbacks_spec es (ConversationManager.set_audioInterface a' m)) as H.
    cbv zeta in H.
    destruct (ConversationManager.callbacks es _) as [[c' s'] es'].
    cbn [completion after effects fst snd] in *.
    destruct H as (_ & Ha & _ & _ & Hi).
    rewrite Hi, Hsock, Hint, Ha. cbn.
    split; [|exact Hflag].
    destruct (WebSocketManager.canSend _); reflexivity.
  - destruct (processAudioData_keeps_playback audioData currentTime now1 now2 a)
      as (Hq & Hp & Hs & Hstops).
    destruct (AudioInterface.processAudioData _ _ _ _ _ _) as [[c a'] es].
    cbn [completion after effects fst snd] in *.
    pose proof (callbacks_spec es (ConversationManager.set_audioInterface a' m)) as H.
    pose proof (callbacks_renderStops es
                  (ConversationManager.set_audioInterface a' m)) as Hr.
    cbv zeta in H.
    destruct (ConversationManager.callbacks es _) as [[c' s'] es'].
    cbn [completion after effects fst snd] in *.
    destruct H as (_ & Ha & _).
    rewrite Ha, Hr. cbn. repeat split; assumption.
Qed.

End SessionFacts.

Lemma C1_interrupt_never_reaches_the_queue_witness :
  let r := ConversationManager.onaudioprocess
             Js.Qsqrt Example.speech010 1000 1000 1000 Example.playingSession in
  let a' := ConversationManager.audioInterface (after r) in
  interruptSignals (effects r) = 1%nat /\
  AudioInterface.isAudioPlaying a' = false /\
  AudioInterface.outputQueue a' = [Example.chunk2] /\
  AudioInterface.isOutputPlaying a' = true /\
  AudioInterface.currentOutputSource a' = Some (samplesOf Example.chunk1) /\
  renderStops (effects r) = [].
Proof.
  assert (Hframe : qualifyingFrame Js.Qsqrt Example.speech010)
    by (split; [reflexivity | vm_compute; reflexivity]).
  destruct (C1_interrupt_never_reaches_the_queue
              Js.Qsqrt Example.playingSession Example.speech010 1000 1000 1000
              eq_refl eq_refl eq_refl Hframe)
    as ((Hsignal & Hflag) & (Hq & Hp & Hs & Hstops) & _).
  cbv zeta. rewrite Hsignal, Hflag, Hq, Hp, Hs, Hstops.
  repeat split; reflexivity.
Defined.

(** ** Failure while starting a session *)

Ltac session_unfold :=
  cbv [ConversationManager.startConversation ConversationManager.stopConversation
       ConversationManager.new ConversationManager.onWebSocketManager
       ConversationManager.onAudioInterface ConversationManager.callbacks
       ConversationManager.updateState ConversationManager.spread
       ConversationManager.orElse ConversationManager.initialState
       ConversationManager.set_state ConversationManager.set_isRunning
       ConversationManager.set_audioInterface
       ConversationManager.set_webSocketManager
       WebSocketManager.connect WebSocketManager.new WebSocketManager.disconnect
       WebSocketManager.set_websocket WebSocketManager.set_isRunning
       AudioInterface.new AudioInterface.failAt].

(** C2, at the input where it fails: the socket opens and the audio
    acquisition then fails at any of its steps.  The error is rethrown and
    [state.error] holds the summary, but the [stopConversation()] of the
    catch block returns at its [isRunning] guard: the socket is still open
    and connected, nothing closed it, and whatever the audio interface
    had acquired it still holds. *)
Theorem C2_failed_start_releases_nothing
        (url : string) (stateChangeCallback : bool) (now : Z)
        (step : AudioInterface.AcquisitionStep) (e : JsValue) :
  let m := ConversationManager.new url stateChangeCallback now in
  let r := ConversationManager.startConversation
             WebSocketManager.SocketOpens (AudioInterface.failAt step e) m in
  completion r = Throw e /\
  error (ConversationManager.state (after r)) =
    Some ("Failed to start conversation: "
            ++ ConversationManager.errorMessage e)%string /\
  ConversationManager.isRunning (after r) = false /\
  WebSocketManager.websocket (ConversationManager.webSocketManager (after r)) =
    Some WebSocketManager.OPEN /\
  ConversationManager.isConnected (after r) = true /\
  ~ In SocketClose (effects r) /\
  ~ In StreamStop (effects r) /\
  ~ In ContextClose (effects r) /\
  AudioInterface.inputStream (ConversationManager.audioInterface (after r)) =
    match step with AudioInterface.AtGetUserMedia => false | _ => true end.
Proof.
  destruct step, stateChangeCallback;
    session_unfold; act_unfold; cbn;
    (repeat split; try reflexivity; intro H; cbn in H; intuition discriminate).
Qed.

(** On a running session [stopConversation()] does release everything:
    the guard it returns at is the only thing between the failed start
    and the release. *)
Lemma stopConversation_releases_running_session :
  let r := ConversationManager.stopConversation Example.session in
  In SocketClose (effects r) /\ In StreamStop (effects r) /\
  WebSocketManager.websocket (ConversationManager.webSocketManager (after r)) = None /\
  AudioInterface.inputStream (ConversationManager.audioInterface (after r)) = false /\
  ConversationManager.state (after r) = ConversationManager.initialState.
Proof. vm_compute. intuition. Qed.

(** ** A render start that fails *)

Section RenderFailure.

(** Effects that are no callbacks go through the session as they are. *)
Lemma callbacks_plain (es : list Effect) (s : ConversationManager.t) :
  Forall plainEffect es ->
  ConversationManager.callbacks es s = (Normal tt, s, es).
Proof.
  intro H. revert s. induction H as [|e es He _ IH]; intro s; [reflexivity|].
  cbn [ConversationManager.callbacks]. unfold bind.
  destruct e; try contradiction; cbv [emit]; rewrite IH; reflexivity.
Qed.

Lemma playNextOutputChunk_plain startResult a :
  Forall plainEffect (effects (AudioInterface.playNextOutputChunk startResult a)).
Proof. act_cases; repeat constructor. Qed.

Lemma play_plain chunk startResult a :
  Forall plainEffect (effects (AudioInterface.play chunk startResult a)).
Proof. act_cases; repeat constructor. Qed.

(** A method of the audio interface that invokes no callback changes
    nothing of the session but the audio interface. *)
Lemma onAudioInterface_plain {A} (method : Act AudioInterface.t A)
      (m : ConversationManager.t) :
  Forall plainEffect (effects (method (ConversationManager.audioInterface m))) ->
  ConversationManager.onAudioInterface method m =
  (completion (method (ConversationManager.audioInterface m)),
   ConversationManager.set_audioInterface
     (after (method (ConversationManager.audioInterface m))) m,
   effects (method (ConversationManager.audioInterface m))).
Proof.
  intro H. unfold ConversationManager.onAudioInterface.
  destruct (method (ConversationManager.audioInterface m)) as [[c a] es].
  cbn [completion after effects fst snd] in *.
  rewrite callbacks_plain by exact H. reflexivity.
Qed.

(** What a failed [source.start()] leaves behind. *)
Lemma playNextOutputChunk_start_fails a chunk rest samples e :
  AudioInterface.outputAudioContext a = true ->
  AudioInterface.outputQueue a = chunk :: rest ->
  convertPCMToFloat32 chunk = Some samples ->
  samples <> [] ->
  let r := AudioInterface.playNextOutputChunk (Some e) a in
  completion r = Normal tt /\
  effects r = [Console LevelError "Error starting audio playback"] /\
  AudioInterface.isOutputPlaying (after r) = false /\
  AudioInterface.currentOutputSource (after r) = None /\
  AudioInterface.outputQueue (after r) = rest /\
  AudioInterface.isRunning (after r) = AudioInterface.isRunning a.
Proof.
  intros Hctx Hq Hpcm Hsome. act_unfold. rewrite Hctx, Hq. cbn. rewrite Hpcm.
  destruct samples as [|sample samples]; [contradiction|]. cbn.
  repeat split; reflexivity.
Qed.

(** C9: when the completion callback takes the next chunk, a chunk of
    at least one sample (for none [createBuffer] throws and
    [source.start()] is not reached), and its [source.start()] throws,
    the callback returns normally, one error
    line is logged, no render starts, the chunk is gone from the queue
    (the rest of the queue is kept, nothing is re-queued), the queue is
    Idle with no source set, and the session is as it was: still
    running, its published state and its socket untouched.  The same
    holds of the session whatever message arrives and however its
    render start goes: the handler never throws and never touches the
    session state. *)
Theorem C9_failed_render_start_drops_chunk
        (m : ConversationManager.t) (chunk : list Z) (rest : list (list Z))
        (samples : list Q) (e : JsValue) :
  let a := ConversationManager.audioInterface m in
  AudioInterface.outputAudioContext a = true ->
  AudioInterface.outputQueue a = chunk :: rest ->
  convertPCMToFloat32 chunk = Some samples ->
  samples <> [] ->
  let r := ConversationManager.onended (Some e) m in
  let a' := ConversationManager.audioInterface (after r) in
  (completion r = Normal tt /\
   consoleErrors (effects r) = ["Error starting audio playback"%string] /\
   renderStarts (effects r) = [] /\
   AudioInterface.isOutputPlaying a' = false /\
   AudioInterface.currentOutputSource a' = None /\
   AudioInterface.outputQueue a' = rest /\
   AudioInterface.isRunning a' = AudioInterface.isRunning a /\
   ConversationManager.isRunning (after r) = ConversationManager.isRunning m /\
   ConversationManager.state (after r) = ConversationManager.state m /\
   ConversationManager.webSocketManager (after r) =
     ConversationManager.webSocketManager m) /\
  (forall data startResult s,
      let r := ConversationManager.handleWebSocketMessage data startResult s in
      completion r = Normal tt /\
      ConversationManager.isRunning (after r) = ConversationManager.isRunning s /\
      ConversationManager.state (after r) = ConversationManager.state s /\
      ConversationManager.webSocketManager (after r) =
        ConversationManager.webSocketManager s).
Proof.
  intros a Hctx Hq Hpcm Hsome r a'. split.
  - subst r a'. unfold ConversationManager.onended.
    rewrite onAudioInterface_plain by apply playNextOutputChunk_plain.
    destruct (playNextOutputChunk_start_fails a chunk rest samples e
                Hctx Hq Hpcm Hsome)
      as (Hc & He & Hp & Hs & Hrest & Hrun).
    fold a. cbn [completion after effects fst snd].
    rewrite He. cbn. repeat split; assumption.
  - intros data startResult s r0. subst r0.
    unfold ConversationManager.handleWebSocketMessage, tryCatch.
    destruct data as [bytes | text]; [|repeat split; reflexivity].
    rewrite onAudioInterface_plain by apply play_plain.
    destruct (completion (AudioInterface.play bytes startResult
                            (ConversationManager.audioInterface s)))
      as [[]|thrown]; repeat split; reflexivity.
Qed.

End RenderFailure.

Lemma C9_failed_render_start_drops_chunk_witness :
  let r := ConversationManager.onended (Some (JsError "InvalidStateError"))
                                       Example.playingSession in
  completion r = Normal tt /\
  AudioInterface.isOutputPlaying (ConversationManager.audioInterface (after r)) = false /\
  AudioInterface.outputQueue (ConversationManager.audioInterface (after r)) = [] /\
  ConversationManager.isRunning (after r) = true /\
  error (ConversationManager.state (after r)) = None.
Proof.
  destruct (C9_failed_render_start_drops_chunk
              Example.playingSession Example.chunk2 []
              (samplesOf Example.chunk2) (JsError "InvalidStateError")
              eq_refl eq_refl eq_refl ltac:(vm_compute; discriminate))
    as ((Hc & _ & _ & Hp & _ & Hq & _ & Hrun & Hstate & _) & _).
  cbv zeta. rewrite Hc, Hp, Hq, Hrun, Hstate. repeat split; reflexivity.
Defined.

(** ** The playback queue *)

Section PlaybackFacts.

Lemma Int16Array_of_bytes_even (n : nat) (bs : list Z) :
  List.length bs = (2 * n)%nat ->
  exists a, Js.Int16Array_of_bytes bs = Some a.
Proof.
  revert bs. induction n as [|n IH]; intros bs Hlen.
  - destruct bs; [exists []; reflexivity | discriminate].
  - destruct bs as [|lo [|hi rest]]; cbn [List.length] in Hlen; try lia.
    destruct (IH rest ltac:(lia)) as [a Ha].
    cbn [Js.Int16Array_of_bytes]. rewrite Ha. eexists. reflexivity.
Qed.

Lemma wholeSamples_convert (chunk : list Z) :
  wholeSamples chunk ->
  convertPCMToFloat32 chunk = Some (samplesOf chunk).
Proof.
  unfold wholeSamples. intro H. apply Nat.even_spec in H as [n Hn].
  destruct (Int16Array_of_bytes_even n chunk Hn) as [a Ha].
  unfold samplesOf, convertPCMToFloat32. rewrite Ha. reflexivity.
Qed.

Lemma playable_samples (chunk : list Z) :
  playable chunk ->
  exists sample samples,
    convertPCMToFloat32 chunk = Some (sample :: samples) /\
    samplesOf chunk = sample :: samples.
Proof.
  intros [Hwhole Hsome]. pose proof (wholeSamples_convert chunk Hwhole) as H.
  destruct (samplesOf chunk) as [|sample samples] eqn:Hs.
  - exfalso. unfold convertPCMToFloat32 in H.
    destruct chunk as [|lo [|hi rest]]; [contradiction | discriminate |].
    cbn [Js.Int16Array_of_bytes] in H.
    destruct (Js.Int16Array_of_bytes rest); discriminate.
  - exists sample, samples. split; [exact H | reflexivity].
Qed.

(** [playNextOutputChunk] on an empty queue: back to Idle. *)
Lemma playNextOutputChunk_drained a startResult :
  AudioInterface.outputAudioContext a = true ->
  AudioInterface.outputQueue a = [] ->
  let r := AudioInterface.playNextOutputChunk startResult a in
  effects r = [] /\
  AudioInterface.outputAudioContext (after r) = true /\
  AudioInterface.isOutputPlaying (after r) = false /\
  AudioInterface.outputQueue (after r) = [].
Proof.
  intros Hctx Hq. act_unfold. rewrite Hctx, Hq. cbn.
  repeat split; assumption.
Qed.

(** [playNextOutputChunk] on a waiting chunk: one render start, of the
    head of the queue. *)
Lemma playNextOutputChunk_starts_head a chunk rest :
  AudioInterface.outputAudioContext a = true ->
  AudioInterface.outputQueue a = chunk :: rest ->
  playable chunk ->
  let r := AudioInterface.playNextOutputChunk None a in
  effects r = [SourceStart (samplesOf chunk)] /\
  AudioInterface.outputAudioContext (after r) = true /\
  AudioInterface.isOutputPlaying (after r) = true /\
  AudioInterface.outputQueue (after r) = rest.
Proof.
  intros Hctx Hq Hchunk. act_unfold. rewrite Hctx, Hq. cbn.
  destruct (playable_samples chunk Hchunk) as (sample & samples & Hpcm & Hs).
  rewrite Hpcm, Hs. cbn.
  repeat split; assumption.
Qed.

(** [play] while Playing only appends. *)
Lemma play_while_playing a chunk startResult :
  AudioInterface.outputAudioContext a = true ->
  Playing a ->
  let r := AudioInterface.play chunk startResult a in
  effects r = [] /\
  AudioInterface.outputAudioContext (after r) = true /\
  AudioInterface.isOutputPlaying (after r) = true /\
  AudioInterface.outputQueue (after r) = AudioInterface.outputQueue a ++ [chunk].
Proof.
  unfold Playing. intros Hctx Hp. act_unfold. rewrite Hctx. cbn.
  rewrite Hp. cbn. repeat split; assumption.
Qed.

(** [play] while Idle starts the chunk at once. *)
Lemma play_while_idle a chunk :
  AudioInterface.outputAudioContext a = true ->
  Idle a ->
  playable chunk ->
  let r := AudioInterface.play chunk None a in
  effects r = [SourceStart (samplesOf chunk)] /\
  AudioInterface.outputAudioContext (after r) = true /\
  AudioInterface.isOutputPlaying (after r) = true /\
  AudioInterface.outputQueue (after r) = [].
Proof.
  intros Hctx [Hp Hq] Hchunk. act_unfold. rewrite Hctx. cbn.
  rewrite Hp. cbn. rewrite Hctx, Hq. cbn.
  destruct (playable_samples chunk Hchunk) as (sample & samples & Hpcm & Hs).
  rewrite Hpcm, Hs. cbn.
  repeat split; assumption.
Qed.

Lemma playbackStep_invariant received ev p :
  playbackInvariant received p ->
  startSucceeds ev ->
  Forall playable (enqueued [ev]) ->
  playbackInvariant (received ++ enqueued [ev]) (playbackStep ev p).
Proof.
  intros (Hctx & Horder & Hwhole & Hstate) Hok Hchunk.
  destruct ev as [chunk startResult | startResult];
    cbn [startSucceeds] in Hok; subst startResult;
    cbn [enqueued flat_map app] in *.
  - apply Forall_inv in Hchunk. cbn [playbackStep].
    destruct Hstate as [[Hplaying Hone] | [Hidle Hnone]].
    + destruct (play_while_playing (player p) chunk None Hctx Hplaying)
        as (He & Hc' & Hp' & Hq').
      unfold playbackInvariant. cbn [player rendering started].
      rewrite He, Hq'. cbn [renderStarts flat_map]. rewrite !app_nil_r.
      split; [exact Hc'|]. split.
      { rewrite !map_app, app_assoc, Horder. reflexivity. }
      split; [apply Forall_app; split;
              [exact Hwhole | constructor; [exact Hchunk | constructor]]|].
      left. split; assumption.
    + destruct (play_while_idle (player p) chunk Hctx Hidle Hchunk)
        as (He & Hc' & Hp' & Hq').
      unfold playbackInvariant. cbn [player rendering started].
      rewrite He, Hq', Hnone. cbn [renderStarts flat_map map app].
      destruct Hidle as [_ Hq]. rewrite Hq in Horder. cbn [map] in Horder.
      rewrite app_nil_r in *.
      split; [exact Hc'|]. split.
      { rewrite map_app, <- Horder. reflexivity. }
      split; [constructor|].
      left. split; [exact Hp' | reflexivity].
  - rewrite app_nil_r. cbn [playbackStep].
    destruct (rendering p) as [|source others] eqn:Hrendering.
    { unfold playbackInvariant. rewrite Hrendering. tauto. }
    assert (Hothers : others = []).
    { destruct Hstate as [[_ Hone] | [_ Hnone]]; [|discriminate].
      destruct others; [reflexivity | discriminate]. }
    subst others.
    destruct (AudioInterface.outputQueue (player p)) as [|chunk rest] eqn:Hq.
    + destruct (playNextOutputChunk_drained (player p) None Hctx Hq)
        as (He & Hc' & Hp' & Hq').
      unfold playbackInvariant. cbn [player rendering started].
      rewrite He, Hq'. cbn [renderStarts flat_map map app] in *.
      rewrite !app_nil_r in *.
      split; [exact Hc'|]. split; [exact Horder|]. split; [constructor|].
      right. split; [split; assumption | reflexivity].
    + pose proof (Forall_inv Hwhole) as Hchunk'.
      destruct (playNextOutputChunk_starts_head (player p) chunk rest Hctx Hq Hchunk')
        as (He & Hc' & Hp' & Hq').
      unfold playbackInvariant. cbn [player rendering started].
      rewrite He, Hq'. cbn [renderStarts flat_map map app] in *.
      split; [exact Hc'|]. split.
      { rewrite <- app_assoc. exact Horder. }
      split; [exact (Forall_inv_tail Hwhole)|].
      left. split; [exact Hp' | reflexivity].
Qed.

Lemma enqueued_app evs1 evs2 :
  enqueued (evs1 ++ evs2) = enqueued evs1 ++ enqueued evs2.
Proof. apply flat_map_app. Qed.

Lemma runPlayback_invariant evs received p :
  playbackInvariant received p ->
  Forall startSucceeds evs ->
  Forall playable (enqueued evs) ->
  playbackInvariant (received ++ enqueued evs) (runPlayback evs p).
Proof.
  revert received p. induction evs as [|ev evs IH]; intros received p Hinv Hok Hwhole.
  - cbn. rewrite app_nil_r. exact Hinv.
  - change (ev :: evs) with ([ev] ++ evs) in Hwhole |- *.
    rewrite enqueued_app in Hwhole |- *. apply Forall_app in Hwhole as [Hw1 Hw2].
    rewrite app_assoc. cbn [runPlayback app fold_left].
    apply IH; [|exact (Forall_inv_tail Hok) | exact Hw2].
    apply playbackStep_invariant; [exact Hinv | exact (Forall_inv Hok) | exact Hw1].
Qed.

Lemma Forall_firstn {A} (P : A -> Prop) (n : nat) (l : list A) :
  Forall P l -> Forall P (firstn n l).
Proof.
  intro H. revert n. induction H; intros [|n]; cbn; constructor; auto.
Qed.

Lemma enqueued_firstn_whole (P : list Z -> Prop) (n : nat) evs :
  Forall P (enqueued evs) ->
  Forall P (enqueued (firstn n evs)).
Proof.
  intro H. rewrite <- (firstn_skipn n evs), enqueued_app in H.
  apply Forall_app in H. tauto.
Qed.

(** C4: from an initialised, idle queue, along any interleaving of
    enqueues of chunks of whole samples, at least one each, and render
    completions in which every render start succeeds: at most one
    source is rendering at any time; the render starts so far, followed by what waits in the
    queue, are the chunks received, in order; once nothing is rendering
    the render starts are exactly the N chunks received and the queue is
    Idle; and an enqueue while Playing starts nothing. *)
Theorem C4_playback_in_receipt_order
        (a : AudioInterface.t) (evs : list PlaybackEvent) :
  AudioInterface.outputAudioContext a = true ->
  Idle a ->
  Forall startSucceeds evs ->
  Forall playable (enqueued evs) ->
  let p0 := mkPlayback a [] [] in
  let p := runPlayback evs p0 in
  (forall n, (List.length (rendering (runPlayback (firstn n evs) p0)) <= 1)%nat) /\
  started p ++ map samplesOf (AudioInterface.outputQueue (player p)) =
    map samplesOf (enqueued evs) /\
  (rendering p = [] ->
   started p = map samplesOf (enqueued evs) /\
   List.length (started p) = List.length (enqueued evs) /\
   Idle (player p)) /\
  (forall s chunk startResult,
      AudioInterface.outputAudioContext s = true -> Playing s ->
      let r := AudioInterface.play chunk startResult s in
      renderStarts (effects r) = [] /\ Playing (after r) /\
      AudioInterface.outputQueue (after r) =
        AudioInterface.outputQueue s ++ [chunk]).
Proof.
  intros Hctx Hidle Hok Hwhole p0 p.
  assert (Hinit : playbackInvariant [] p0).
  { unfold playbackInvariant, p0. cbn [player rendering started].
    destruct Hidle as [Hp Hq]. rewrite Hq.
    split; [exact Hctx|]. split; [reflexivity|]. split; [constructor|].
    right. split; [split; assumption | reflexivity]. }
  pose proof (runPlayback_invariant evs [] p0 Hinit Hok Hwhole)
    as (_ & Horder & _ & Hstate).
  fold p in Horder, Hstate. cbn [app] in Horder.
  split; [|split; [exact Horder | split]].
  - intro n.
    pose proof (runPlayback_invariant (firstn n evs) [] p0 Hinit
                  (Forall_firstn _ n evs Hok) (enqueued_firstn_whole _ n evs Hwhole))
      as (_ & _ & _ & [[_ Hone] | [_ Hnone]]).
    + rewrite Hone. constructor.
    + rewrite Hnone. cbn. lia.
  - intro Hquiet.
    destruct Hstate as [[_ Hone] | [Hidle' _]];
      [rewrite Hquiet in Hone; discriminate|].
    destruct Hidle' as [Hp Hq]. rewrite Hq in Horder. cbn [map] in Horder.
    rewrite app_nil_r in Horder.
    split; [exact Horder|]. split; [|split; assumption].
    rewrite Horder, length_map. reflexivity.
  - intros s chunk startResult Hs Hplaying r.
    destruct (play_while_playing s chunk startResult Hs Hplaying)
      as (He & _ & Hp' & Hq').
    fold r in He, Hp', Hq'. rewrite He. repeat split; assumption.
Qed.

End PlaybackFacts.

Lemma C4_playback_in_receipt_order_witness :
  let p := runPlayback [Enqueue Example.chunk1 None; Enqueue Example.chunk2 None;
                        Complete None; Complete None]
                       (mkPlayback Example.audio [] []) in
  started p = map samplesOf [Example.chunk1; Example.chunk2] /\
  List.length (started p) = 2%nat /\
  Idle (player p).
Proof.
  assert (Hstarts : Forall startSucceeds
                      [Enqueue Example.chunk1 None; Enqueue Example.chunk2 None;
                       Complete None; Complete None])
    by (repeat constructor).
  assert (Hwhole : Forall playable [Example.chunk1; Example.chunk2])
    by (repeat constructor; discriminate).
  destruct (C4_playback_in_receipt_order
              Example.audio
              [Enqueue Example.chunk1 None; Enqueue Example.chunk2 None;
               Complete None; Complete None]
              eq_refl (conj eq_refl eq_refl) Hstarts Hwhole)
    as (_ & _ & Hdone & _).
  exact (Hdone eq_refl).
Defined.

(** ** The capture scenarios *)

Section CaptureFacts.

Variable Math_sqrt : Q -> Q.

(** One capture callback in which every clock reading is [time], on
    the fields of the capture session. *)
Lemma processAudioData_capture audioData time a :
  let r := AudioInterface.processAudioData Math_sqrt audioData time time time a in
  let lastSpeech :=
    if isSpeech Math_sqrt audioData then Some time
    else AudioInterface.lastSpeechTime a in
  let transmit :=
    match lastSpeech with
    | Some last => time - last <? silenceTimeout
    | None => false
    end in
  let parts :=
    if transmit then AudioInterface.audioBufferParts a ++ [framePCM audioData]
    else AudioInterface.audioBufferParts a in
  let due :=
    (sendInterval <=? time - AudioInterface.lastSendTime a)
    && (0 <? Z.of_nat (List.length parts)) && transmit in
  AudioInterface.isRunning (after r) = AudioInterface.isRunning a /\
  AudioInterface.lastSpeechTime (after r) = lastSpeech /\
  AudioInterface.audioBufferParts (after r) = (if due then [] else parts) /\
  AudioInterface.lastSendTime (after r) =
    (if due then time else AudioInterface.lastSendTime a) /\
  flushes (effects r) = (if due then [List.concat parts] else []).
Proof.
  act_unfold. unfold AudioInterface.flushDue, AudioInterface.shouldSendAudio, framePCM.
  destruct (AudioInterface.amplitudeCallback a);
    destruct (isSpeech Math_sqrt audioData); cbn;
    repeat break_match; cbn in *; try discriminate;
    repeat split; try reflexivity; try congruence.
Qed.

Lemma flushes_app (es1 es2 : list Effect) :
  flushes (es1 ++ es2) = flushes es1 ++ flushes es2.
Proof. apply flat_map_app. Qed.

Lemma frame_capture audioData time a lastSpeech parts lastSend :
  captureIs a lastSpeech parts lastSend ->
  let r := deliver Math_sqrt (AudioProcess audioData time time time) a in
  let lastSpeech' :=
    if isSpeech Math_sqrt audioData then Some time else lastSpeech in
  let transmit :=
    match lastSpeech' with
    | Some last => time - last <? silenceTimeout
    | None => false
    end in
  let parts' := if transmit then parts ++ [framePCM audioData] else parts in
  let due :=
    (sendInterval <=? time - lastSend)
    && (0 <? Z.of_nat (List.length parts')) && transmit in
  captureIs (after r) lastSpeech' (if due then [] else parts')
            (if due then time else lastSend) /\
  flushes (effects r) = (if due then [List.concat parts'] else []).
Proof.
  intros (Hrun & Hspeech & Hparts & Hsend). cbn [deliver].
  rewrite onaudioprocess_running by exact Hrun.
  pose proof (processAudioData_capture audioData time a) as H. cbv zeta in H.
  rewrite Hspeech, Hparts, Hsend, Hrun in H.
  destruct H as (H1 & H2 & H3 & H4 & H5).
  cbv zeta. unfold captureIs. repeat split; assumption.
Qed.

(** A frame that is not speech, inside the window, before the send
    interval has elapsed: buffered. *)
Lemma silent_frame_buffered audioData time a last parts lastSend :
  captureIs a (Some last) parts lastSend ->
  isSpeech Math_sqrt audioData = false ->
  time - last < 2000 -> time - lastSend < 500 ->
  let r := deliver Math_sqrt (AudioProcess audioData time time time) a in
  flushes (effects r) = [] /\
  captureIs (after r) (Some last) (parts ++ [framePCM audioData]) lastSend.
Proof.
  intros Hc Hsilent Hwindow Hearly.
  pose proof (frame_capture audioData time a _ _ _ Hc) as H. cbv zeta in H.
  rewrite Hsilent in H. unfold silenceTimeout, sendInterval in H.
  destruct (Z.ltb_spec (time - last) 2000); [|lia].
  destruct (Z.leb_spec 500 (time - lastSend)); [lia|].
  cbn [andb] in H. destruct H. split; assumption.
Qed.

(** ... once the send interval has elapsed: sent with the buffer. *)
Lemma silent_frame_flushed audioData time a last parts lastSend :
  captureIs a (Some last) parts lastSend ->
  isSpeech Math_sqrt audioData = false ->
  time - last < 2000 -> 500 <= time - lastSend ->
  let r := deliver Math_sqrt (AudioProcess audioData time time time) a in
  flushes (effects r) = [List.concat (parts ++ [framePCM audioData])] /\
  captureIs (after r) (Some last) [] time.
Proof.
  intros Hc Hsilent Hwindow Hdue.
  pose proof (frame_capture audioData time a _ _ _ Hc) as H. cbv zeta in H.
  rewrite Hsilent in H. unfold silenceTimeout, sendInterval in H.
  destruct (Z.ltb_spec (time - last) 2000); [|lia].
  destruct (Z.leb_spec 500 (time - lastSend)); [|lia].
  assert (Hlen : (0 <? Z.of_nat (List.length (parts ++ [framePCM audioData]))) = true).
  { apply Z.ltb_lt. rewrite length_app. cbn [List.length]. lia. }
  rewrite Hlen in H. cbn [andb] in H. destruct H. split; assumption.
Qed.

(** ... outside the window: dropped, and nothing is sent. *)
Lemma silent_frame_dropped audioData time a last parts lastSend :
  captureIs a (Some last) parts lastSend ->
  isSpeech Math_sqrt audioData = false ->
  2000 <= time - last ->
  let r := deliver Math_sqrt (AudioProcess audioData time time time) a in
  flushes (effects r) = [] /\
  captureIs (after r) (Some last) parts lastSend.
Proof.
  intros Hc Hsilent Hclosed.
  pose proof (frame_capture audioData time a _ _ _ Hc) as H. cbv zeta in H.
  rewrite Hsilent in H. unfold silenceTimeout, sendInterval in H.
  destruct (Z.ltb_spec (time - last) 2000); [lia|].
  rewrite andb_false_r in H. destruct H. split; assumption.
Qed.

(** A speech frame into an empty buffer, the send interval elapsed:
    sent at once, alone. *)
Lemma speech_frame_flushed audioData time a lastSpeech lastSend :
  captureIs a lastSpeech [] lastSend ->
  isSpeech Math_sqrt audioData = true ->
  500 <= time - lastSend ->
  let r := deliver Math_sqrt (AudioProcess audioData time time time) a in
  flushes (effects r) = [framePCM audioData] /\
  captureIs (after r) (Some time) [] time.
Proof.
  intros Hc Hspeech Hdue.
  pose proof (frame_capture audioData time a _ _ _ Hc) as H. cbv zeta in H.
  rewrite Hspeech in H. unfold silenceTimeout, sendInterval in H.
  destruct (Z.ltb_spec (time - time) 2000); [|lia].
  destruct (Z.leb_spec 500 (time - lastSend)); [|lia].
  cbn in H. rewrite app_nil_r in H. destruct H. split; assumption.
Qed.

(** Before any speech nothing is sent. *)
Lemma no_speech_no_flush ev a :
  AudioInterface.lastSpeechTime a = None ->
  silentEvent Math_sqrt ev ->
  flushes (effects (deliver Math_sqrt ev a)) = [].
Proof.
  intros Hnone Hsilent.
  destruct ev as [audioData currentTime now1 now2| | | | | |];
    try (act_cases; reflexivity).
  cbn [deliver silentEvent] in *.
  destruct (AudioInterface.isRunning a) eqn:Hrun.
  2: { rewrite onaudioprocess_stopped by exact Hrun. reflexivity. }
  rewrite onaudioprocess_running by exact Hrun.
  pose proof (processAudioData_flush Math_sqrt audioData currentTime now1 now2 a) as H.
  cbv zeta in H.
  assert (Hb : AudioInterface.lastSpeechTime
                 (atFlushCheck Math_sqrt audioData currentTime now1 a) = None).
  { unfold atFlushCheck. apply silentFrame_not_speech in Hsilent.
    act_unfold. rewrite Hsilent. cbn. repeat break_match; cbn; assumption. }
  unfold AudioInterface.flushDue, AudioInterface.shouldSendAudio in H.
  rewrite Hb, andb_false_r in H. apply H.
Qed.

Lemma silent_run_sends_nothing evs a :
  AudioInterface.lastSpeechTime a = None ->
  Forall (silentEvent Math_sqrt) evs ->
  flushes (runEffects Math_sqrt evs a) = [].
Proof.
  intros Hnone Hsilent. revert a Hnone.
  induction Hsilent as [|ev evs Hev _ IH]; intros a Hnone; [reflexivity|].
  rewrite runEffects_cons, flushes_app, (no_speech_no_flush ev a Hnone Hev).
  apply IH. rewrite silentEvent_keeps_lastSpeechTime; assumption.
Qed.

Lemma frameEvents_silent time period frames :
  Forall (fun audioData => calculateRMS Math_sqrt audioData == 0)%Q frames ->
  Forall (silentEvent Math_sqrt) (frameEvents time period frames).
Proof.
  intro H. revert time. induction H as [|f fs Hf _ IH]; intro time;
    cbn [frameEvents]; constructor; [|apply IH].
  cbn [silentEvent]. unfold silentFrame, silenceThreshold. rewrite Hf. reflexivity.
Qed.

Lemma rms_zero_not_speech audioData :
  (calculateRMS Math_sqrt audioData == 0)%Q ->
  isSpeech Math_sqrt audioData = false.
Proof.
  intro H. apply isSpeech_false. rewrite H. unfold silenceThreshold. lra.
Qed.

Lemma rms_at_noise_floor_is_speech audioData :
  (calculateRMS Math_sqrt audioData == 2 # 100)%Q ->
  isSpeech Math_sqrt audioData = true.
Proof.
  intro H. apply isSpeech_true. rewrite H. unfold silenceThreshold. lra.
Qed.

Ltac capture_step :=
  match goal with
  | Hc : captureIs ?a _ _ _
    |- context [runEffects _ (AudioProcess ?f ?t ?t ?t :: ?rest) ?a] =>
      rewrite (runEffects_cons Math_sqrt (AudioProcess f t t t) rest a),
              (run_cons Math_sqrt (AudioProcess f t t t) rest a),
              flushes_app;
      let Hf := fresh "Hf" in
      let Hc' := fresh "Hc" in
      first
        [ destruct (silent_frame_buffered f t a _ _ _ Hc
                      ltac:(assumption) ltac:(lia) ltac:(lia)) as [Hf Hc']
        | destruct (silent_frame_flushed f t a _ _ _ Hc
                      ltac:(assumption) ltac:(lia) ltac:(lia)) as [Hf Hc']
        | destruct (silent_frame_dropped f t a _ _ _ Hc
                      ltac:(assumption) ltac:(lia)) as [Hf Hc']
        | destruct (speech_frame_flushed f t a _ _ Hc
                      ltac:(assumption) ltac:(lia)) as [Hf Hc'] ];
      rewrite Hf; clear Hf Hc;
      cbn [app] in Hc';
      generalize dependent (after (deliver Math_sqrt (AudioProcess f t t t) a));
      clear a; intros a Hc'
  end.

(** C3, as the code has it.  Frames of RMS 0 into a session that has
    heard no speech: nothing is sent, however many and whenever they
    come.  One frame classified as speech (its RMS reaches the noise
    floor 0.02) and then 35 frames of RMS 0, 64 ms
    apart, the first at least 500 ms after the last send time, into an
    empty buffer: four frames go out, at stream frames 0, 8, 16 and 24.
    The first is exactly the bytes of the speech frame; each of the
    other three is the bytes of the eight silent frames buffered since
    the one before, because the trailing window keeps buffering for
    2000 ms after the speech.  The silent frames 25 to 31 stay in the
    buffer, and from frame 32 on "should transmit" is false and nothing
    more is sent. *)
Theorem C3_silence_sends_nothing_speech_sends_its_window
        (a : AudioInterface.t) (quiet : list (list Q))
        (speech : list Q) (trailing : list (list Q))
        (start period time : Z) :
  captureIs a None [] (AudioInterface.lastSendTime a) ->
  Forall (fun audioData => calculateRMS Math_sqrt audioData == 0)%Q quiet ->
  isSpeech Math_sqrt speech = true ->
  Forall (fun audioData => calculateRMS Math_sqrt audioData == 0)%Q trailing ->
  List.length trailing = 35%nat ->
  500 <= time - AudioInterface.lastSendTime a ->
  flushes (runEffects Math_sqrt (frameEvents start period quiet) a) = [] /\
  let evs := frameEvents time 64 (speech :: trailing) in
  flushes (runEffects Math_sqrt evs a) =
    [framePCM speech;
     List.concat (map framePCM (firstn 8 trailing));
     List.concat (map framePCM (firstn 8 (skipn 8 trailing)));
     List.concat (map framePCM (firstn 8 (skipn 16 trailing)))] /\
  AudioInterface.audioBufferParts (run Math_sqrt evs a) =
    map framePCM (firstn 7 (skipn 24 trailing)) /\
  (forall later, time + 2240 <= later ->
                 AudioInterface.shouldSendAudio later (run Math_sqrt evs a) = false).
Proof.
  intros Hc Hquiet Hspeech Htrailing Hlen Hdue. split.
  { apply silent_run_sends_nothing; [apply Hc|].
    apply frameEvents_silent. exact Hquiet. }
  assert (Hsilent : Forall (fun audioData => isSpeech Math_sqrt audioData = false)
                           trailing).
  { eapply Forall_impl; [|exact Htrailing]. apply rms_zero_not_speech. }
  clear Htrailing Hquiet.
  do 35 (destruct trailing as [|? trailing]; [discriminate Hlen|]).
  destruct trailing; [|discriminate Hlen]. clear Hlen.
  repeat match goal with
         | H : Forall _ (_ :: _) |- _ =>
             let Hhead := fresh "Hsilent" in
             apply Forall_cons_iff in H as [Hhead H]
         end.
  clear Hsilent.
  set (last := AudioInterface.lastSendTime a) in *. clearbody last.
  cbv zeta. cbn [frameEvents firstn skipn map].
  do 36 capture_step.
  rewrite run_nil. cbn [runEffects runLog fst flat_map flushes app].
  destruct Hc as (_ & Hlast & Hparts & _).
  split; [reflexivity|]. split; [exact Hparts|].
  intros later Hlater. unfold AudioInterface.shouldSendAudio, silenceTimeout.
  rewrite Hlast. apply Z.ltb_ge. lia.
Qed.

End CaptureFacts.

Lemma C3_silence_sends_nothing_speech_sends_its_window_witness :
  flushes (runEffects Js.Qsqrt (frameEvents 0 64 (repeat Example.silence 40))
                      Example.audio) = [] /\
  flushes (runEffects Js.Qsqrt
             (frameEvents 1000 64 (Example.speech002 :: repeat Example.silence 35))
             Example.audio) =
    [framePCM Example.speech002;
     List.concat (repeat (framePCM Example.silence) 8);
     List.concat (repeat (framePCM Example.silence) 8);
     List.concat (repeat (framePCM Example.silence) 8)].
Proof.
  assert (Hquiet : forall n,
             Forall (fun audioData => calculateRMS Js.Qsqrt audioData == 0)%Q
                    (repeat Example.silence n)).
  { intro n. apply Forall_forall. intros f Hf.
    apply repeat_spec in Hf. subst f. reflexivity. }
  assert (Hdue : 500 <= 1000 - AudioInterface.lastSendTime Example.audio)
    by (vm_compute; discriminate).
  assert (Hspeech : isSpeech Js.Qsqrt Example.speech002 = true)
    by (apply rms_at_noise_floor_is_speech; vm_compute; reflexivity).
  destruct (C3_silence_sends_nothing_speech_sends_its_window
              Js.Qsqrt Example.audio (repeat Example.silence 40)
              Example.speech002 (repeat Example.silence 35) 0 64 1000
              (conj eq_refl (conj eq_refl (conj eq_refl eq_refl)))
              (Hquiet 40%nat) Hspeech (Hquiet 35%nat) eq_refl Hdue)
    as (Hnone & Hfour & _).
  split; [exact Hnone | exact Hfour].
Defined.

(** C3 as stated fails in its second half, on a frame of RMS 0.02 (one
    sample of 0.5 among 625) and 35 frames of zeros: after the speech
    frame the silent frames inside the 2000 ms window are buffered and
    sent too, so the stream has four flushes, not one. *)
Lemma C3_speech_then_silence_flushes_four_times :
  let evs := frameEvents 1000 64 (Example.speech002 :: repeat Example.silence 35) in
  let sentFrames := flushes (runEffects Js.Qsqrt evs Example.audio) in
  (calculateRMS Js.Qsqrt Example.speech002 == 2 # 100)%Q /\
  (calculateRMS Js.Qsqrt Example.silence == 0)%Q /\
  List.length sentFrames = 4%nat /\
  sentFrames <> [framePCM Example.speech002].
Proof.
  vm_compute. repeat split; discriminate.
Qed.

(** * Further properties *)

(** ** PCM conversion on arbitrary input *)

Section PCMBounds.

Local Open Scope Q_scope.

Lemma clamp_range (x : Q) : -1 <= clamp x <= 1.
Proof.
  unfold clamp, Js.Math_max, Js.Math_min.
  destruct (Qle_bool 1 x) eqn:E1.
  - destruct (Qle_bool (-1) 1) eqn:E2; lra.
  - assert (H1 : x <= 1).
    { apply Qlt_le_weak, Qnot_le_lt. intro H. apply Qle_bool_iff in H. congruence. }
    destruct (Qle_bool (-1) x) eqn:E2.
    + apply Qle_bool_iff in E2. lra.
    + lra.
Qed.

Lemma clamp_high (x : Q) : 1 <= x -> clamp x == 1.
Proof.
  intro H. unfold clamp, Js.Math_max, Js.Math_min.
  apply Qle_bool_iff in H. rewrite H. reflexivity.
Qed.

Lemma clamp_low (x : Q) : x <= -1 -> clamp x == -1.
Proof.
  intro H. unfold clamp, Js.Math_max, Js.Math_min.
  destruct (Qle_bool 1 x) eqn:E1.
  - apply Qle_bool_iff in E1. lra.
  - destruct (Qle_bool (-1) x) eqn:E2; [|reflexivity].
    apply Qle_bool_iff in E2. lra.
Qed.

Lemma clamp_sign (x : Q) :
  (0 <= x -> 0 <= clamp x) /\ (x <= 0 -> clamp x <= 0).
Proof.
  unfold clamp, Js.Math_max, Js.Math_min.
  destruct (Qle_bool 1 x) eqn:E1.
  - apply Qle_bool_iff in E1.
    change (Qle_bool (-1) 1) with true. cbv iota. split; intro; lra.
  - destruct (Qle_bool (-1) x) eqn:E2; [split; intro; lra|].
    assert (H : x < -1).
    { apply Qnot_le_lt. intro H. apply Qle_bool_iff in H. congruence. }
    split; intro; lra.
Qed.

(** The integer part is the only integer within one unit on the side of
    zero. *)
Lemma trunc_unique_nonneg (x : Q) (k : Z) :
  inject_Z k <= x -> x < inject_Z k + 1 -> 0 <= x -> Js.trunc x = k.
Proof.
  intros Hlo Hhi Hx. destruct (trunc_nonneg x Hx) as (_ & Hlo' & Hhi').
  assert (H1 : inject_Z (Js.trunc x) < inject_Z k + 1) by lra.
  assert (H2 : inject_Z k < inject_Z (Js.trunc x) + 1) by lra.
  change 1 with (inject_Z 1) in H1, H2. rewrite <- inject_Z_plus in H1, H2.
  rewrite <- Zlt_Qlt in H1, H2. lia.
Qed.

Lemma trunc_unique_nonpos (x : Q) (k : Z) :
  x <= inject_Z k -> inject_Z k - 1 < x -> x <= 0 -> Js.trunc x = k.
Proof.
  intros Hhi Hlo Hx. destruct (trunc_nonpos x Hx) as (_ & Hhi' & Hlo').
  assert (H1 : inject_Z (Js.trunc x) < inject_Z k + 1) by lra.
  assert (H2 : inject_Z k < inject_Z (Js.trunc x) + 1) by lra.
  change 1 with (inject_Z 1) in H1, H2. rewrite <- inject_Z_plus in H1, H2.
  rewrite <- Zlt_Qlt in H1, H2. lia.
Qed.

(** The int16 stored for one sample, whatever the sample. *)
Lemma sample_int16 (x : Q) :
  let v := Js.ToInt16 (clamp x * 32767) in
  (-32767 <= v <= 32767)%Z /\
  (1 <= x -> v = 32767%Z) /\ (x <= -1 -> v = (-32767)%Z) /\
  (0 <= x -> (0 <= v)%Z) /\ (x <= 0 -> (v <= 0)%Z).
Proof.
  intro v. subst v. unfold Js.ToInt16.
  pose proof (clamp_range x) as Hr. pose proof (clamp_sign x) as [Hs1 Hs2].
  assert (Hbound : (-32767 <= Js.trunc (clamp x * 32767) <= 32767)%Z).
  { destruct (Qlt_le_dec (clamp x) 0) as [Hneg | Hpos].
    - destruct (trunc_nonpos (clamp x * 32767)) as (H0 & Hup & _); [lra|].
      split; [|lia]. rewrite Zle_Qle. change (inject_Z (-32767)) with (-32767). lra.
    - destruct (trunc_nonneg (clamp x * 32767)) as (H0 & Hlo & _); [lra|].
      split; [lia|]. rewrite Zle_Qle. change (inject_Z 32767) with 32767. lra. }
  rewrite wrap16_small by lia.
  split; [exact Hbound|]. split; [|split; [|split]].
  - intro H. pose proof (clamp_high x H) as Hc.
    apply trunc_unique_nonneg; change (inject_Z 32767) with 32767; lra.
  - intro H. pose proof (clamp_low x H) as Hc.
    apply trunc_unique_nonpos; change (inject_Z (-32767)) with (-32767); lra.
  - intro H. specialize (Hs1 H).
    destruct (trunc_nonneg (clamp x * 32767)) as (H0 & _); [lra | exact H0].
  - intro H. specialize (Hs2 H).
    destruct (trunc_nonpos (clamp x * 32767)) as (H0 & _); [lra | exact H0].
Qed.

(** X1: whatever the samples, also outside [-1, 1], every int16 written
    lies in [-32767, 32767]; a sample of 1 or more is stored as 32767 and
    one of -1 or less as -32767 (saturation, no wrap-around); and the
    sign of the sample is kept. *)
Theorem float32ArrayToInt16Array_saturates (float32Array : list Q) :
  Forall2 (fun x v =>
             (-32767 <= v <= 32767)%Z /\
             (1 <= x -> v = 32767%Z) /\ (x <= -1 -> v = (-32767)%Z) /\
             (0 <= x -> (0 <= v)%Z) /\ (x <= 0 -> (v <= 0)%Z))
          float32Array (float32ArrayToInt16Array float32Array).
Proof.
  induction float32Array as [|x xs IH]; [constructor|].
  cbn [float32ArrayToInt16Array map]. constructor; [|exact IH].
  apply sample_int16.
Qed.

Lemma float32ArrayToInt16Array_saturates_aux (float32Array : list Q) :
  Forall (fun v => (-32767 <= v <= 32767)%Z)
         (float32ArrayToInt16Array float32Array).
Proof.
  induction float32Array as [|x xs IH]; [constructor|].
  cbn [float32ArrayToInt16Array map]. constructor; [|exact IH].
  apply (sample_int16 x).
Qed.

Lemma int16_bytes_are_bytes (v : Z) : Forall isByte (Js.int16_bytes v).
Proof.
  unfold Js.int16_bytes, isByte.
  repeat constructor; Z.div_mod_to_equations; lia.
Qed.

Lemma Uint8Array_of_Int16Array_shape (a : list Z) :
  List.length (Js.Uint8Array_of_Int16Array a) = (2 * List.length a)%nat /\
  Forall isByte (Js.Uint8Array_of_Int16Array a).
Proof.
  induction a as [|v a [IHlen IHbytes]]; [split; [reflexivity | constructor]|].
  unfold Js.Uint8Array_of_Int16Array in *. cbn [flat_map].
  split.
  - rewrite length_app, IHlen. cbn [Js.int16_bytes List.length]. lia.
  - apply Forall_app. split; [apply int16_bytes_are_bytes | exact IHbytes].
Qed.

(** X2: the bytes buffered for a frame, whatever its samples: two bytes
    per sample, each in 0..255, and they decode, one value per sample,
    each strictly between -1 and 1. *)
Theorem framePCM_is_decodable_pcm (audioData : list Q) :
  List.length (framePCM audioData) = (2 * List.length audioData)%nat /\
  Forall isByte (framePCM audioData) /\
  exists samples,
    convertPCMToFloat32 (framePCM audioData) = Some samples /\
    List.length samples = List.length audioData /\
    Forall (fun y => -1 < y /\ y < 1) samples.
Proof.
  unfold framePCM.
  destruct (Uint8Array_of_Int16Array_shape (float32ArrayToInt16Array audioData))
    as [Hlen Hbytes].
  pose proof (float32ArrayToInt16Array_saturates_aux audioData) as Hrange.
  unfold float32ArrayToInt16Array in Hlen at 2. rewrite length_map in Hlen.
  split; [exact Hlen|]. split; [exact Hbytes|].
  unfold convertPCMToFloat32.
  rewrite Int16Array_bytes_round_trip
    by (eapply Forall_impl; [|exact Hrange]; cbv beta; intros; lia).
  eexists. split; [reflexivity|]. split.
  - rewrite length_map. unfold float32ArrayToInt16Array. apply length_map.
  - apply Forall_map. eapply Forall_impl; [|exact Hrange].
    cbv beta. intros v [Hlo Hhi].
    rewrite Zle_Qle in Hlo, Hhi.
    change (inject_Z (-32767)) with (-32767) in Hlo.
    change (inject_Z 32767) with 32767 in Hhi.
    assert (Hy : inject_Z v / 32768 * 32768 == inject_Z v) by field.
    split; lra.
Qed.

End PCMBounds.

(** ** Decoding received PCM *)

Section PCMDecode.

Local Open Scope Q_scope.

Lemma int16_of_pair_range (lo hi : Z) :
  isByte lo -> isByte hi ->
  isInt16 (Js.int16_of_pair lo hi) /\
  Js.int16_bytes (Js.int16_of_pair lo hi) = [lo; hi].
Proof.
  unfold isByte, isInt16, Js.int16_of_pair, Js.int16_bytes. intros Hlo Hhi.
  destruct (Z.leb_spec 32768 (lo + 256 * hi)).
  - split; [lia|]. f_equal; [|f_equal]; Z.div_mod_to_equations; lia.
  - split; [lia|]. f_equal; [|f_equal]; Z.div_mod_to_equations; lia.
Qed.

(** Induction over a list two elements at a time. *)
Lemma pairs_ind {A} (P : list A -> Prop) :
  P [] -> (forall x, P [x]) ->
  (forall x y l, P l -> P (x :: y :: l)) ->
  forall l, P l.
Proof.
  intros Hnil Hone Hstep.
  assert (H : forall l, P l /\ forall x, P (x :: l)).
  { induction l as [|y l [IH1 IH2]]; split; auto. }
  intro l. apply H.
Qed.

Lemma Int16Array_of_bytes_None (bs : list Z) :
  Js.Int16Array_of_bytes bs = None <-> Nat.odd (List.length bs) = true.
Proof.
  induction bs as [| x | x y l IH] using pairs_ind.
  - split; discriminate.
  - split; reflexivity.
  - cbn [Js.Int16Array_of_bytes List.length].
    change (Nat.odd (S (S (List.length l)))) with (Nat.odd (List.length l)).
    rewrite <- IH.
    destruct (Js.Int16Array_of_bytes l); split; congruence.
Qed.

Lemma Int16Array_of_bytes_Some (bs a : list Z) :
  Forall isByte bs ->
  Js.Int16Array_of_bytes bs = Some a ->
  (2 * List.length a)%nat = List.length bs /\
  Forall isInt16 a /\
  Js.Uint8Array_of_Int16Array a = bs.
Proof.
  revert a. induction bs as [| x | x y l IH] using pairs_ind; intros a Hbytes Ha.
  - injection Ha as <-. repeat split. constructor.
  - discriminate.
  - cbn [Js.Int16Array_of_bytes] in Ha.
    destruct (Js.Int16Array_of_bytes l) as [a'|] eqn:Hl; [|discriminate].
    injection Ha as <-.
    pose proof (Forall_inv Hbytes) as Hx.
    pose proof (Forall_inv (Forall_inv_tail Hbytes)) as Hy.
    destruct (IH a' (Forall_inv_tail (Forall_inv_tail Hbytes)) eq_refl)
      as (Hlen & Hrange & Hback).
    destruct (int16_of_pair_range x y Hx Hy) as [Hv Hb].
    split; [cbn [List.length]; lia|]. split; [constructor; assumption|].
    unfold Js.Uint8Array_of_Int16Array in *. cbn [flat_map].
    rewrite Hb, Hback. reflexivity.
Qed.

(** X3: decoding a received chunk fails exactly when its byte length is
    odd; when it succeeds there is one sample per two bytes, and for a
    chunk of bytes every sample lies in [-1, 1), -1 included and 1 not. *)
Theorem convertPCMToFloat32_decodes_even_chunks (pcmData : list Z) :
  Forall isByte pcmData ->
  (convertPCMToFloat32 pcmData = None <-> Nat.odd (List.length pcmData) = true) /\
  (forall float32Data,
      convertPCMToFloat32 pcmData = Some float32Data ->
      (2 * List.length float32Data)%nat = List.length pcmData /\
      Forall (fun y => -1 <= y /\ y < 1) float32Data).
Proof.
  intro Hbytes. unfold convertPCMToFloat32. split.
  - rewrite <- Int16Array_of_bytes_None.
    destruct (Js.Int16Array_of_bytes pcmData); split; congruence.
  - intros float32Data H.
    destruct (Js.Int16Array_of_bytes pcmData) as [a|] eqn:Ha; [|discriminate].
    injection H as <-.
    destruct (Int16Array_of_bytes_Some pcmData a Hbytes Ha) as (Hlen & Hrange & _).
    rewrite length_map. split; [exact Hlen|].
    apply Forall_map. eapply Forall_impl; [|exact Hrange].
    cbv beta. unfold isInt16. intros v [Hlo Hhi].
    rewrite Zle_Qle in Hlo, Hhi.
    change (inject_Z (-32768)) with (-32768) in Hlo.
    change (inject_Z 32767) with 32767 in Hhi.
    assert (Hy : inject_Z v / 32768 * 32768 == inject_Z v) by field.
    split; lra.
Qed.

Lemma convertPCMToFloat32_decodes_even_chunks_witness :
  convertPCMToFloat32 [0; 128; 255; 127; 7]%Z = None /\
  forall float32Data,
    convertPCMToFloat32 [0; 128; 255; 127]%Z = Some float32Data ->
    (2 * List.length float32Data)%nat = 4%nat /\
    Forall (fun y => -1 <= y /\ y < 1) float32Data.
Proof.
  split.
  - apply (convertPCMToFloat32_decodes_even_chunks [0; 128; 255; 127; 7]%Z).
    + repeat constructor; discriminate.
    + reflexivity.
  - apply (convertPCMToFloat32_decodes_even_chunks [0; 128; 255; 127]%Z).
    repeat constructor; discriminate.
Defined.

(** X4: reading a byte buffer as an [Int16Array] and viewing that array
    as bytes again gives the buffer back: no byte of a received chunk is
    changed by the reinterpretation, and every element is a 16-bit
    value. *)
Theorem Int16Array_view_round_trip (bytes int16Data : list Z) :
  Forall isByte bytes ->
  Js.Int16Array_of_bytes bytes = Some int16Data ->
  Js.Uint8Array_of_Int16Array int16Data = bytes /\
  Forall isInt16 int16Data /\
  Js.Int16Array_of_bytes (Js.Uint8Array_of_Int16Array int16Data) = Some int16Data.
Proof.
  intros Hbytes Ha.
  destruct (Int16Array_of_bytes_Some bytes int16Data Hbytes Ha) as (_ & Hrange & Hback).
  split; [exact Hback|]. split; [exact Hrange|].
  rewrite Hback. exact Ha.
Qed.

Lemma Int16Array_view_round_trip_witness :
  Js.Uint8Array_of_Int16Array [-32768; 32767]%Z = [0; 128; 255; 127]%Z /\
  Forall isInt16 [-32768; 32767]%Z /\
  Js.Int16Array_of_bytes (Js.Uint8Array_of_Int16Array [-32768; 32767]%Z) =
    Some [-32768; 32767]%Z.
Proof.
  apply (Int16Array_view_round_trip [0; 128; 255; 127]%Z [-32768; 32767]%Z).
  - repeat constructor; discriminate.
  - reflexivity.
Defined.

(** One int16 value through [convertPCMToFloat32] and back through
    [float32ArrayToInt16Array]. *)
Lemma int16_reencoded (v : Z) :
  isInt16 v ->
  Js.ToInt16 (clamp (inject_Z v / 32768) * 32767) = (v - Z.sgn v)%Z.
Proof.
  unfold isInt16. intros [Hlo Hhi].
  set (y := inject_Z v / 32768).
  assert (Hy : y * 32768 == inject_Z v) by (unfold y; field).
  rewrite Zle_Qle in Hlo, Hhi.
  change (inject_Z (-32768)) with (-32768) in Hlo.
  change (inject_Z 32767) with 32767 in Hhi.
  assert (Hrange : -1 <= y <= 1) by (split; lra).
  pose proof (clamp_id y Hrange) as Hc.
  unfold Js.ToInt16.
  assert (Hk : forall k : Z, inject_Z (k + 1) == inject_Z k + 1).
  { intro k. rewrite inject_Z_plus. reflexivity. }
  assert (Hm : forall k : Z, inject_Z (k - 1) == inject_Z k - 1).
  { intro k. unfold Z.sub. rewrite inject_Z_plus. reflexivity. }
  destruct (Z.lt_trichotomy v 0) as [Hneg | [Hzero | Hpos]].
  - assert (Hq : inject_Z v <= -1).
    { change (-1) with (inject_Z (-1)). rewrite <- Zle_Qle. lia. }
    rewrite (Z.sgn_neg v Hneg).
    replace (v - -1)%Z with (v + 1)%Z by lia.
    rewrite (trunc_unique_nonpos (clamp y * 32767) (v + 1)).
    + apply wrap16_small.
      assert (Hz : (-32768 <= v)%Z).
      { rewrite Zle_Qle. exact Hlo. }
      lia.
    + rewrite Hk. lra.
    + rewrite Hk. lra.
    + lra.
  - subst v. unfold y. vm_compute. reflexivity.
  - assert (Hq : 1 <= inject_Z v).
    { change 1 with (inject_Z 1). rewrite <- Zle_Qle. lia. }
    rewrite (Z.sgn_pos v Hpos).
    rewrite (trunc_unique_nonneg (clamp y * 32767) (v - 1)).
    + apply wrap16_small.
      assert (Hz : (v <= 32767)%Z).
      { rewrite Zle_Qle. exact Hhi. }
      lia.
    + rewrite Hm. lra.
    + rewrite Hm. lra.
    + lra.
Qed.

(** X5: decoding is not undone by encoding.  A chunk of int16 values
    that is decoded for playback and encoded again as a capture frame
    comes back with every nonzero value one step nearer to zero (the
    scales are 32768 and 32767), and zero as zero. *)
Theorem decode_then_encode_steps_toward_zero (int16Data : list Z) (float32Data : list Q) :
  Forall isInt16 int16Data ->
  convertPCMToFloat32 (Js.Uint8Array_of_Int16Array int16Data) = Some float32Data ->
  float32ArrayToInt16Array float32Data =
  map (fun v => (v - Z.sgn v)%Z) int16Data.
Proof.
  intros Hrange Hdecode. unfold convertPCMToFloat32 in Hdecode.
  rewrite Int16Array_bytes_round_trip in Hdecode by exact Hrange.
  injection Hdecode as <-.
  unfold float32ArrayToInt16Array. rewrite map_map.
  induction Hrange as [|v a Hv _ IH]; [reflexivity|].
  cbn [map]. rewrite IH, (int16_reencoded v Hv). reflexivity.
Qed.

Lemma decode_then_encode_steps_toward_zero_witness :
  float32ArrayToInt16Array [32767 # 32768; - (32768 # 32768); 0 # 32768; 5 # 32768] =
  [32766; -32767; 0; 4]%Z.
Proof.
  apply (decode_then_encode_steps_toward_zero [32767; -32768; 0; 5]%Z).
  - repeat constructor; discriminate.
  - reflexivity.
Defined.

End PCMDecode.

(** ** Interrupting and stopping the audio interface *)

Section AudioLifecycle.

Variable Math_sqrt : Q -> Q.

(** X6: [interruptPlayback()] can be called in any state.  It returns
    normally, empties the queue, leaves the queue Idle with no source
    and the playback-active flag down, stops the source that was being
    rendered if there was one, and touches nothing of the capture side.
    A second call changes nothing and stops nothing.  The next
    non-empty chunk of whole samples played into an initialised
    interface starts at once. *)
Theorem interruptPlayback_resets_playback_only (a : AudioInterface.t) :
  let r := AudioInterface.interruptPlayback a in
  let a' := after r in
  completion r = Normal tt /\
  Idle a' /\
  AudioInterface.isAudioPlaying a' = false /\
  AudioInterface.currentOutputSource a' = None /\
  renderStops (effects r) =
    match AudioInterface.currentOutputSource a with
    | Some source => [source]
    | None => []
    end /\
  (AudioInterface.isRunning a' = AudioInterface.isRunning a /\
   AudioInterface.inputStream a' = AudioInterface.inputStream a /\
   AudioInterface.inputAudioContext a' = AudioInterface.inputAudioContext a /\
   AudioInterface.outputAudioContext a' = AudioInterface.outputAudioContext a /\
   AudioInterface.lastSpeechTime a' = AudioInterface.lastSpeechTime a /\
   AudioInterface.audioBufferParts a' = AudioInterface.audioBufferParts a /\
   AudioInterface.lastSendTime a' = AudioInterface.lastSendTime a) /\
  (after (AudioInterface.interruptPlayback a') = a' /\
   renderStops (effects (AudioInterface.interruptPlayback a')) = []) /\
  (forall chunk,
      AudioInterface.outputAudioContext a = true ->
      wholeSamples chunk -> chunk <> [] ->
      renderStarts (effects (AudioInterface.play chunk None a')) =
      [samplesOf chunk]).
Proof.
  assert (Hidle : Idle (after (AudioInterface.interruptPlayback a))).
  { destruct a as [ic oc st run q op src ap ls parts lt ac oi].
    destruct src; split; reflexivity. }
  assert (Hctx : AudioInterface.outputAudioContext
                   (after (AudioInterface.interruptPlayback a)) =
                 AudioInterface.outputAudioContext a).
  { destruct a as [ic oc st run q op src ap ls parts lt ac oi].
    destruct src; reflexivity. }
  cbv zeta. split; [|split; [exact Hidle|]].
  { destruct a as [ic oc st run q op src ap ls parts lt ac oi].
    destruct src; reflexivity. }
  repeat match goal with |- _ /\ _ => split end;
    try (destruct a as [ic oc st run q op src ap ls parts lt ac oi];
         destruct src; reflexivity).
  intros chunk Hctx' Hwhole Hsome. rewrite <- Hctx in Hctx'.
  destruct (play_while_idle _ chunk Hctx' Hidle (conj Hwhole Hsome)) as (He & _).
  rewrite He. reflexivity.
Qed.

(** [stop()] written out: the state it leaves and what it emits. *)
Lemma stop_result (a : AudioInterface.t) :
  AudioInterface.stop a =
  (Normal tt,
   AudioInterface.mk false false false false [] false None
     (AudioInterface.isAudioPlaying a) (AudioInterface.lastSpeechTime a)
     (AudioInterface.audioBufferParts a) (AudioInterface.lastSendTime a)
     (AudioInterface.amplitudeCallback a) (AudioInterface.onInterrupt a),
   match AudioInterface.currentOutputSource a with
   | Some source => [SourceStop source]
   | None => []
   end
   ++ (if AudioInterface.inputStream a then [StreamStop] else [])
   ++ (if AudioInterface.inputAudioContext a then [ContextClose] else [])
   ++ (if AudioInterface.outputAudioContext a then [ContextClose] else [])
   ++ [Console LevelLog "Audio interface stopped"]).
Proof.
  destruct a as [ic oc st run q op src ap ls parts lt ac oi].
  destruct ic, oc, st, src; reflexivity.
Qed.

(** X7: [stop()] can be called in any state.  Afterwards the interface
    is not running, the queue is empty and Idle with no source, and the
    stream and both contexts are released: the stream's tracks are
    stopped once if there was a stream, and one context is closed for
    each context there was.  The capture session (last speech time,
    buffered parts, last send time) and the playback-active flag are not
    reset.  A second [stop()] releases nothing more.  After [stop()] a
    capture callback does nothing and [play] refuses the chunk. *)
Theorem stop_releases_devices_and_keeps_capture_session (a : AudioInterface.t) :
  let r := AudioInterface.stop a in
  let a' := after r in
  completion r = Normal tt /\
  (AudioInterface.isRunning a' = false /\
   AudioInterface.inputStream a' = false /\
   AudioInterface.inputAudioContext a' = false /\
   AudioInterface.outputAudioContext a' = false /\
   Idle a' /\ AudioInterface.currentOutputSource a' = None) /\
  (streamStops (effects r) = (if AudioInterface.inputStream a then 1 else 0)%nat /\
   contextCloses (effects r) =
     ((if AudioInterface.inputAudioContext a then 1 else 0)
      + (if AudioInterface.outputAudioContext a then 1 else 0))%nat /\
   renderStops (effects r) =
     match AudioInterface.currentOutputSource a with
     | Some source => [source]
     | None => []
     end) /\
  (AudioInterface.lastSpeechTime a' = AudioInterface.lastSpeechTime a /\
   AudioInterface.audioBufferParts a' = AudioInterface.audioBufferParts a /\
   AudioInterface.lastSendTime a' = AudioInterface.lastSendTime a /\
   AudioInterface.isAudioPlaying a' = AudioInterface.isAudioPlaying a) /\
  (after (AudioInterface.stop a') = a' /\
   effects (AudioInterface.stop a') = [Console LevelLog "Audio interface stopped"]) /\
  (forall audioData currentTime now1 now2,
      AudioInterface.onaudioprocess Math_sqrt audioData currentTime now1 now2 a' =
      (Normal tt, a', [])) /\
  (forall chunk startResult,
      after (AudioInterface.play chunk startResult a') = a' /\
      renderStarts (effects (AudioInterface.play chunk startResult a')) = []).
Proof.
  cbv zeta. rewrite stop_result. cbn [after effects completion fst snd].
  rewrite stop_result. cbn [after effects completion fst snd].
  split; [reflexivity|]. split; [repeat split; reflexivity|].
  split.
  { destruct a as [ic oc st run q op src ap ls parts lt ac oi].
    destruct ic, oc, st, src; repeat split; reflexivity. }
  split; [repeat split; reflexivity|].
  split; [split; reflexivity|].
  split.
  - intros. apply onaudioprocess_stopped. reflexivity.
  - intros. split; reflexivity.
Qed.

(** X8: [start()] either acquires everything or rethrows the value the
    failing step threw, after logging it; the interface is marked
    running exactly when every step succeeded, and nothing of the queue
    or of the capture session is touched.  After a failed start from a
    stopped interface capture callbacks are still ignored. *)
Theorem start_marks_running_only_on_success
        (a : AudioInterface.t) (outcome : AudioInterface.StartOutcome) :
  let r := AudioInterface.start outcome a in
  let a' := after r in
  match outcome with
  | AudioInterface.StartSucceeds =>
      completion r = Normal tt /\
      AudioInterface.isRunning a' = true /\
      AudioInterface.inputStream a' = true /\
      AudioInterface.inputAudioContext a' = true /\
      AudioInterface.outputAudioContext a' = true /\
      consoleErrors (effects r) = []
  | AudioInterface.GetUserMediaRejects e
  | AudioInterface.InputContextThrows e
  | AudioInterface.OutputContextThrows e
  | AudioInterface.AudioGraphThrows e =>
      completion r = Throw e /\
      AudioInterface.isRunning a' = AudioInterface.isRunning a /\
      consoleErrors (effects r) = ["Error starting audio interface:"%string] /\
      (AudioInterface.isRunning a = false ->
       forall audioData currentTime now1 now2,
         AudioInterface.onaudioprocess Math_sqrt audioData currentTime now1 now2 a' =
         (Normal tt, a', []))
  end /\
  (AudioInterface.outputQueue a' = AudioInterface.outputQueue a /\
   AudioInterface.isOutputPlaying a' = AudioInterface.isOutputPlaying a /\
   AudioInterface.isAudioPlaying a' = AudioInterface.isAudioPlaying a /\
   AudioInterface.lastSpeechTime a' = AudioInterface.lastSpeechTime a /\
   AudioInterface.audioBufferParts a' = AudioInterface.audioBufferParts a /\
   AudioInterface.lastSendTime a' = AudioInterface.lastSendTime a).
Proof.
  destruct a as [ic oc st run q op src ap ls parts lt ac oi].
  destruct outcome; cbv zeta; cbn; repeat split; try reflexivity;
    intro Hrun; cbn in Hrun; subst run; reflexivity.
Qed.

End AudioLifecycle.

(** ** Runs of the capture side *)

Section CaptureRuns.

Variable Math_sqrt : Q -> Q.

Lemma speech_frame_sets_lastSpeechTime audioData currentTime now1 now2 a :
  AudioInterface.isRunning a = true ->
  isSpeech Math_sqrt audioData = true ->
  AudioInterface.lastSpeechTime
    (after (AudioInterface.onaudioprocess Math_sqrt audioData currentTime now1 now2 a)) =
  Some currentTime.
Proof.
  intros Hrun Hspeech. rewrite onaudioprocess_running by exact Hrun.
  act_unfold. rewrite Hspeech. cbn. repeat break_match; reflexivity.
Qed.

(** X9: the trailing window is exactly the silence timeout.  After a
    running interface has processed a frame classified as speech at time
    [currentTime], and whatever follows that is not a speech frame,
    "should transmit" holds at a time [now] exactly when
    [now - currentTime < 2000]. *)
Theorem transmit_window_lasts_exactly_the_timeout
        (a : AudioInterface.t) (audioData : list Q)
        (currentTime now1 now2 : Z) (evs : list Event) (now : Z) :
  AudioInterface.isRunning a = true ->
  isSpeech Math_sqrt audioData = true ->
  Forall (silentEvent Math_sqrt) evs ->
  AudioInterface.shouldSendAudio
    now
    (run Math_sqrt evs
         (after (AudioInterface.onaudioprocess Math_sqrt audioData
                   currentTime now1 now2 a))) = true
  <-> now - currentTime < 2000.
Proof.
  intros Hrun Hspeech Hsilent.
  unfold AudioInterface.shouldSendAudio.
  rewrite (silent_run_keeps_lastSpeechTime Math_sqrt evs _ Hsilent).
  rewrite (speech_frame_sets_lastSpeechTime _ _ _ _ _ Hrun Hspeech).
  apply Z.ltb_lt.
Qed.

(** One event against the interrupt budget: an interrupt costs the
    raised flag, and only a re-arming event can raise it. *)
Lemma event_interrupt_budget (ev : Event) (a : AudioInterface.t) :
  (interrupts (effects (deliver Math_sqrt ev a))
   + Nat.b2n (AudioInterface.isAudioPlaying (after (deliver Math_sqrt ev a)))
   <= Nat.b2n (rearms ev) + Nat.b2n (AudioInterface.isAudioPlaying a))%nat.
Proof.
  destruct ev as [audioData currentTime now1 now2| chunk startResult
                 | startResult | isPlaying | | outcome |].
  - cbn [deliver rearms].
    destruct (onaudioprocess_interrupt Math_sqrt audioData currentTime now1 now2 a)
      as [(Hi & Hup & Hdown) | (Hi & Hsame)].
    + rewrite Hi, Hup, Hdown. cbn. lia.
    + rewrite Hi, Hsame. cbn. lia.
  - act_cases; destruct (AudioInterface.isAudioPlaying a); cbn; lia.
  - act_cases; destruct (AudioInterface.isAudioPlaying a); cbn; lia.
  - destruct isPlaying; cbn; destruct (AudioInterface.isAudioPlaying a); cbn; lia.
  - act_cases; destruct (AudioInterface.isAudioPlaying a); cbn; lia.
  - act_cases; destruct (AudioInterface.isAudioPlaying a); cbn; lia.
  - act_cases; destruct (AudioInterface.isAudioPlaying a); cbn; lia.
Qed.

(** X10: along any run of the audio interface the interrupts fired are
    at most the [play] and [setAudioPlaybackState(true)] calls of the
    run, plus one if the playback-active flag was up at the start: one
    interrupt at most per raising of the flag. *)
Theorem interrupts_bounded_by_rearms (evs : list Event) (a : AudioInterface.t) :
  (interrupts (runEffects Math_sqrt evs a)
   + Nat.b2n (AudioInterface.isAudioPlaying (run Math_sqrt evs a))
   <= rearmCount evs + Nat.b2n (AudioInterface.isAudioPlaying a))%nat.
Proof.
  revert a. induction evs as [|ev evs IH]; intro a.
  - cbn. lia.
  - rewrite runEffects_cons, run_cons, interrupts_app.
    pose proof (event_interrupt_budget ev a) as Hev.
    specialize (IH (after (deliver Math_sqrt ev a))).
    unfold rearmCount in *. cbn [filter].
    destruct (rearms ev); cbn [List.length Nat.b2n] in *; lia.
Qed.

(** The buffer where the flush condition is evaluated: the buffer
    before, with or without the bytes of this frame. *)
Lemma atFlushCheck_parts audioData currentTime now1 a :
  AudioInterface.audioBufferParts (atFlushCheck Math_sqrt audioData currentTime now1 a) =
    AudioInterface.audioBufferParts a
  \/ AudioInterface.audioBufferParts (atFlushCheck Math_sqrt audioData currentTime now1 a) =
    AudioInterface.audioBufferParts a ++ [framePCM audioData].
Proof.
  unfold atFlushCheck, framePCM. act_cases; auto.
Qed.

Lemma subsequence_nil_l {A} (l : list A) : subsequence [] l.
Proof. induction l; constructor; assumption. Qed.

Lemma subsequence_refl {A} (l : list A) : subsequence l l.
Proof. induction l; constructor; assumption. Qed.

Lemma subsequence_app {A} (k1 l1 k2 l2 : list A) :
  subsequence k1 l1 -> subsequence k2 l2 -> subsequence (k1 ++ k2) (l1 ++ l2).
Proof.
  intros H1 H2. induction H1; cbn [app]; try constructor; assumption.
Qed.

Lemma framesOf_app evs1 evs2 :
  framesOf (evs1 ++ evs2) = framesOf evs1 ++ framesOf evs2.
Proof. apply flat_map_app. Qed.

Lemma other_events_keep_buffer (ev : Event) (a : AudioInterface.t) :
  match ev with AudioProcess _ _ _ _ => False | _ => True end ->
  AudioInterface.audioBufferParts (after (deliver Math_sqrt ev a)) =
    AudioInterface.audioBufferParts a /\
  flushes (effects (deliver Math_sqrt ev a)) = [].
Proof.
  destruct ev; intro H; try contradiction; act_cases; split; reflexivity.
Qed.

(** The buffer at the flush check of a running interface: what was
    buffered, and this frame's bytes when it is one to buffer. *)
Lemma atFlushCheck_buffered audioData currentTime now1 now2 a :
  AudioInterface.isRunning a = true ->
  AudioInterface.audioBufferParts
    (atFlushCheck Math_sqrt audioData currentTime now1 a) =
  AudioInterface.audioBufferParts a
  ++ map framePCM
       (bufferedFrame Math_sqrt (AudioProcess audioData currentTime now1 now2) a).
Proof.
  intro Hrun. unfold atFlushCheck, bufferedFrame, framePCM.
  rewrite Hrun. cbn [andb].
  act_unfold. unfold AudioInterface.shouldSendAudio.
  destruct (isSpeech Math_sqrt audioData); cbn;
    repeat break_match; cbn in *; try congruence;
    rewrite ?app_nil_r; reflexivity.
Qed.

(** A call that hands a frame to the transport hands over everything
    buffered, the frame of this call included, and leaves the buffer
    empty. *)
Lemma event_flushes_whole_buffer (ev : Event) (a : AudioInterface.t) :
  let r := deliver Math_sqrt ev a in
  flushes (effects r) = [] \/
  flushes (effects r) =
    [List.concat (AudioInterface.audioBufferParts a
                  ++ map framePCM (bufferedFrame Math_sqrt ev a))] /\
  AudioInterface.audioBufferParts (after r) = [].
Proof.
  cbv zeta.
  destruct ev as [audioData currentTime now1 now2| chunk startResult
                 | startResult | isPlaying | | outcome |];
    try (left;
         match goal with
         | |- context [deliver _ ?e a] =>
             exact (proj2 (other_events_keep_buffer e a I))
         end).
  cbn [deliver].
  destruct (AudioInterface.isRunning a) eqn:Hrun.
  - rewrite onaudioprocess_running by exact Hrun.
    pose proof (processAudioData_flush Math_sqrt audioData currentTime now1 now2 a)
      as H.
    cbv zeta in H.
    rewrite (atFlushCheck_buffered audioData currentTime now1 now2 a Hrun) in H.
    destruct (AudioInterface.flushDue _ _ _).
    + right. destruct H as (Hf & Hb & _). split; assumption.
    + left. apply H.
  - rewrite onaudioprocess_stopped by exact Hrun. left. reflexivity.
Qed.

(** What one call does to the buffer: the frame handed to the
    transport, if any, followed by what stays buffered, is what was
    buffered before followed by the bytes of the frame this call
    buffers. *)
Lemma event_conserves_buffer (ev : Event) (a : AudioInterface.t) :
  let r := deliver Math_sqrt ev a in
  List.concat (flushes (effects r))
  ++ List.concat (AudioInterface.audioBufferParts (after r)) =
  List.concat (AudioInterface.audioBufferParts a
               ++ map framePCM (bufferedFrame Math_sqrt ev a)).
Proof.
  cbv zeta.
  destruct ev as [audioData currentTime now1 now2| chunk startResult
                 | startResult | isPlaying | | outcome |];
    try (match goal with
         | |- context [deliver _ ?e a] =>
             destruct (other_events_keep_buffer e a I) as [Hp Hf]
         end;
         rewrite Hp, Hf; cbn [bufferedFrame map List.concat app];
         rewrite app_nil_r; reflexivity).
  cbn [deliver].
  destruct (AudioInterface.isRunning a) eqn:Hrun.
  - rewrite onaudioprocess_running by exact Hrun.
    pose proof (processAudioData_flush Math_sqrt audioData currentTime now1 now2 a)
      as H.
    cbv zeta in H.
    rewrite (atFlushCheck_buffered audioData currentTime now1 now2 a Hrun) in H.
    destruct (AudioInterface.flushDue _ _ _).
    + destruct H as (Hf & Hb & _). rewrite Hf, Hb. cbn [List.concat].
      rewrite !app_nil_r. reflexivity.
    + destruct H as (Hf & Ha). rewrite Hf, Ha.
      rewrite (atFlushCheck_buffered audioData currentTime now1 now2 a Hrun).
      reflexivity.
  - rewrite onaudioprocess_stopped by exact Hrun.
    cbn [bufferedFrame]. rewrite Hrun. cbn. rewrite app_nil_r. reflexivity.
Qed.

Lemma bufferedFrame_delivered (ev : Event) (a : AudioInterface.t) :
  subsequence (bufferedFrame Math_sqrt ev a) (framesOf [ev]).
Proof.
  destruct ev; cbn [bufferedFrame framesOf flat_map app];
    try apply subsequence_nil_l.
  destruct (_ && _); [apply subsequence_refl | apply subsequence_nil_l].
Qed.

(** X11: what becomes of the captured audio.  Along any run, the bytes
    handed to the transport so far, followed by the bytes still
    buffered, are the bytes buffered at the start followed by the PCM of
    the frames buffered along the run: those delivered while the
    interface was running and speech had last been heard, the frame
    itself counted, less than 2000 ms before.  These are frames of the
    run in the order they came, each once.  And a call that hands a
    frame to the transport hands over the whole buffer, the frame of
    that call included, and leaves the buffer empty. *)
Theorem capture_buffer_is_conserved (evs : list Event) (a : AudioInterface.t) :
  List.concat (flushes (runEffects Math_sqrt evs a))
  ++ List.concat (AudioInterface.audioBufferParts (run Math_sqrt evs a)) =
  List.concat (AudioInterface.audioBufferParts a)
  ++ List.concat (map framePCM (bufferedFrames Math_sqrt evs a)) /\
  subsequence (bufferedFrames Math_sqrt evs a) (framesOf evs) /\
  (forall ev s,
      let r := deliver Math_sqrt ev s in
      flushes (effects r) = [] \/
      flushes (effects r) =
        [List.concat (AudioInterface.audioBufferParts s
                      ++ map framePCM (bufferedFrame Math_sqrt ev s))] /\
      AudioInterface.audioBufferParts (after r) = []).
Proof.
  split; [|split; [|exact event_flushes_whole_buffer]].
  - revert a. induction evs as [|ev evs IH]; intro a.
    + cbn. rewrite app_nil_r. reflexivity.
    + pose proof (event_conserves_buffer ev a) as Hstep. cbv zeta in Hstep.
      specialize (IH (after (deliver Math_sqrt ev a))).
      rewrite runEffects_cons, run_cons, flushes_app, concat_app.
      cbn [bufferedFrames]. rewrite map_app, concat_app.
      rewrite <- app_assoc, IH, !app_assoc, Hstep, concat_app. reflexivity.
  - revert a. induction evs as [|ev evs IH]; intro a; [constructor|].
    change (ev :: evs) with ([ev] ++ evs). rewrite framesOf_app.
    cbn [bufferedFrames app].
    apply subsequence_app; [apply bufferedFrame_delivered | apply IH].
Qed.

Lemma pcmChunk_framePCM audioData : pcmChunk (framePCM audioData).
Proof.
  unfold pcmChunk, wholeSamples, framePCM.
  destruct (Uint8Array_of_Int16Array_shape (float32ArrayToInt16Array audioData))
    as [Hlen Hbytes].
  split; [|exact Hbytes]. rewrite Hlen. apply Nat.even_spec. eexists. reflexivity.
Qed.

Lemma pcmChunk_concat (parts : list (list Z)) :
  Forall pcmChunk parts -> pcmChunk (List.concat parts).
Proof.
  induction 1 as [|part parts [Hw Hb] _ [IHw IHb]].
  - split; [reflexivity | constructor].
  - cbn [List.concat]. split.
    + unfold wholeSamples in *. rewrite length_app, Nat.even_add, Hw, IHw. reflexivity.
    + apply Forall_app. split; assumption.
Qed.

Lemma event_keeps_pcm (ev : Event) (a : AudioInterface.t) :
  Forall pcmChunk (AudioInterface.audioBufferParts a) ->
  Forall pcmChunk (AudioInterface.audioBufferParts (after (deliver Math_sqrt ev a))) /\
  Forall pcmChunk (flushes (effects (deliver Math_sqrt ev a))).
Proof.
  intro Hparts.
  destruct ev as [audioData currentTime now1 now2| chunk startResult
                 | startResult | isPlaying | | outcome |];
    try (match goal with
         | |- context [deliver _ ?e a] =>
             destruct (other_events_keep_buffer e a I) as [Hp Hf]
         end;
         rewrite Hp, Hf; split; [assumption | constructor]).
  cbn [deliver].
  destruct (AudioInterface.isRunning a) eqn:Hrun.
  2: { rewrite onaudioprocess_stopped by exact Hrun. split; [assumption | constructor]. }
  rewrite onaudioprocess_running by exact Hrun.
  pose proof (processAudioData_flush Math_sqrt audioData currentTime now1 now2 a) as H.
  cbv zeta in H.
  assert (Hb : Forall pcmChunk
                 (AudioInterface.audioBufferParts
                    (atFlushCheck Math_sqrt audioData currentTime now1 a))).
  { destruct (atFlushCheck_parts audioData currentTime now1 a) as [Hp | Hp]; rewrite Hp.
    - exact Hparts.
    - apply Forall_app. split; [exact Hparts|].
      constructor; [apply pcmChunk_framePCM | constructor]. }
  destruct (AudioInterface.flushDue _ _ _).
  - destruct H as (Hf & Hp & _). rewrite Hf, Hp.
    split; [constructor|]. constructor; [|constructor].
    apply pcmChunk_concat. exact Hb.
  - destruct H as (Hf & Ha). rewrite Hf, Ha. split; [exact Hb | constructor].
Qed.

(** X12: every frame handed to the transport is well-formed PCM.  From
    a buffer of whole-sample byte chunks (the empty buffer of a new
    interface is one), along any run, each outbound frame has an even
    number of bytes, each in 0..255, and decodes with
    [convertPCMToFloat32]. *)
Theorem outbound_frames_are_whole_pcm (evs : list Event) (a : AudioInterface.t) :
  Forall pcmChunk (AudioInterface.audioBufferParts a) ->
  Forall (fun payload =>
            pcmChunk payload /\
            convertPCMToFloat32 payload = Some (samplesOf payload))
         (flushes (runEffects Math_sqrt evs a)).
Proof.
  revert a. induction evs as [|ev evs IH]; intros a Hparts; [constructor|].
  destruct (event_keeps_pcm ev a Hparts) as [Hafter Hflushed].
  rewrite runEffects_cons, flushes_app. apply Forall_app. split.
  - eapply Forall_impl; [|exact Hflushed]. cbv beta. intros payload Hp.
    split; [exact Hp|]. apply wholeSamples_convert. apply Hp.
  - apply IH. exact Hafter.
Qed.

End CaptureRuns.

Lemma transmit_window_lasts_exactly_the_timeout_witness :
  AudioInterface.shouldSendAudio
    2999
    (run Js.Qsqrt (frameEvents 1064 64 [Example.silence; Example.silence])
         (after (AudioInterface.onaudioprocess Js.Qsqrt Example.speech002
                   1000 1000 1000 Example.audio))) = true.
Proof.
  apply (transmit_window_lasts_exactly_the_timeout
           Js.Qsqrt Example.audio Example.speech002 1000 1000 1000
           (frameEvents 1064 64 [Example.silence; Example.silence]) 2999).
  - reflexivity.
  - reflexivity.
  - repeat constructor.
  - lia.
Defined.

Lemma outbound_frames_are_whole_pcm_witness :
  Forall (fun payload =>
            pcmChunk payload /\
            convertPCMToFloat32 payload = Some (samplesOf payload))
         (flushes (runEffects Js.Qsqrt
                     (frameEvents 1000 64 [Example.speech010; Example.silence])
                     Example.audio)).
Proof.
  apply (outbound_frames_are_whole_pcm
           Js.Qsqrt (frameEvents 1000 64 [Example.speech010; Example.silence])
           Example.audio).
  constructor.
Defined.

(** ** The playback queue when render starts fail *)

Section LossyPlayback.

(** [playNextOutputChunk] on a waiting chunk, whatever [source.start()]
    does: the head leaves the queue; it starts, or it is dropped with
    one error line and the queue is left not Playing. *)
Lemma playNextOutputChunk_takes_head a chunk rest startResult :
  AudioInterface.outputAudioContext a = true ->
  AudioInterface.outputQueue a = chunk :: rest ->
  playable chunk ->
  let r := AudioInterface.playNextOutputChunk startResult a in
  AudioInterface.outputAudioContext (after r) = true /\
  AudioInterface.outputQueue (after r) = rest /\
  match startResult with
  | None => renderStarts (effects r) = [samplesOf chunk] /\
            consoleErrors (effects r) = [] /\
            AudioInterface.isOutputPlaying (after r) = true
  | Some _ => renderStarts (effects r) = [] /\
              List.length (consoleErrors (effects r)) = 1%nat /\
              AudioInterface.isOutputPlaying (after r) = false
  end.
Proof.
  intros Hctx Hq Hchunk. act_unfold. rewrite Hctx, Hq. cbn.
  destruct (playable_samples chunk Hchunk) as (sample & samples & Hpcm & Hs).
  rewrite Hpcm, Hs. cbn.
  destruct startResult; cbn; repeat split; assumption.
Qed.

(** [play] while not Playing: the chunk joins the queue and the head of
    the queue is taken. *)
Lemma play_while_not_playing a chunk startResult :
  AudioInterface.outputAudioContext a = true ->
  AudioInterface.isOutputPlaying a = false ->
  let a1 := AudioInterface.set_outputQueue
              (AudioInterface.outputQueue a ++ [chunk])
              (AudioInterface.set_isAudioPlaying true a) in
  after (AudioInterface.play chunk startResult a) =
    after (AudioInterface.playNextOutputChunk startResult a1) /\
  effects (AudioInterface.play chunk startResult a) =
    effects (AudioInterface.playNextOutputChunk startResult a1).
Proof.
  intros Hctx Hp. cbv zeta.
  unfold AudioInterface.play. cbv [bind get modify when ret].
  rewrite Hctx. cbn [negb]. cbn [AudioInterface.isOutputPlaying
    AudioInterface.set_outputQueue AudioInterface.set_isAudioPlaying].
  rewrite Hp. cbn [negb].
  destruct (AudioInterface.playNextOutputChunk startResult _) as [[c s] es].
  destruct c; split; reflexivity.
Qed.

Lemma lossy_take_head received failures p a' es chunk rest
      (startResult : AudioInterface.StartResult) :
  lossyPlaybackInvariant received failures p ->
  AudioInterface.outputQueue (player p) = chunk :: rest ->
  AudioInterface.outputAudioContext a' = true ->
  AudioInterface.outputQueue a' = rest ->
  match startResult with
  | None => renderStarts es = [samplesOf chunk] /\
            consoleErrors es = [] /\
            AudioInterface.isOutputPlaying a' = true
  | Some _ => renderStarts es = [] /\
              List.length (consoleErrors es) = 1%nat /\
              AudioInterface.isOutputPlaying a' = false
  end ->
  lossyPlaybackInvariant received (failures + List.length (consoleErrors es))
    (mkPlayback a' ([] ++ renderStarts es) (started p ++ renderStarts es)).
Proof.
  intros (_ & (tried & Horder & Hsub & Hcount) & Hwhole & _) Hq Hctx' Hq' Hstart.
  rewrite Hq in Horder, Hwhole. cbn [map] in Horder.
  unfold lossyPlaybackInvariant. cbn [player rendering started].
  rewrite Hq'. split; [exact Hctx'|]. split.
  { exists (tried ++ [samplesOf chunk]). rewrite <- app_assoc. split; [exact Horder|].
    destruct startResult; destruct Hstart as (Hs & He & _); rewrite Hs, He.
    - rewrite app_nil_r. split.
      + rewrite <- (app_nil_r (started p)).
        apply subsequence_app; [exact Hsub | repeat constructor].
      + rewrite length_app. cbn [List.length]. lia.
    - split.
      + apply subsequence_app; [exact Hsub | apply subsequence_refl].
      + rewrite !length_app. cbn [List.length]. lia. }
  split; [exact (Forall_inv_tail Hwhole)|].
  destruct startResult; destruct Hstart as (Hs & _ & Hp); rewrite Hs.
  - right. split; [exact Hp | reflexivity].
  - left. split; [exact Hp | reflexivity].
Qed.

Lemma lossy_step received failures ev p :
  lossyPlaybackInvariant received failures p ->
  Forall playable (enqueued [ev]) ->
  lossyPlaybackInvariant (received ++ enqueued [ev])
    (failures + List.length (consoleErrors (playbackEffects ev p)))
    (playbackStep ev p).
Proof.
  intros Hinv Hchunk.
  destruct Hinv as (Hctx & (tried & Horder & Hsub & Hcount) & Hwhole & Hstate).
  destruct ev as [chunk startResult | startResult];
    cbn [enqueued flat_map app] in *.
  - apply Forall_inv in Hchunk. cbn [playbackStep playbackEffects].
    destruct Hstate as [[Hplaying Hone] | [Hidle Hnone]].
    + destruct (play_while_playing (player p) chunk startResult Hctx Hplaying)
        as (He & Hc' & Hp' & Hq').
      unfold lossyPlaybackInvariant. cbn [player rendering started].
      rewrite He, Hq'. cbn [renderStarts consoleErrors flat_map List.length].
      rewrite !app_nil_r, Nat.add_0_r.
      split; [exact Hc'|]. split.
      { exists tried. split; [|split; assumption].
        rewrite !map_app, Horder, app_assoc. reflexivity. }
      split; [apply Forall_app; split;
              [exact Hwhole | constructor; [exact Hchunk | constructor]]|].
      left. split; assumption.
    + destruct (play_while_not_playing (player p) chunk startResult Hctx Hidle)
        as [Hafter Heffects].
      rewrite Hafter, Heffects, Hnone.
      set (a1 := AudioInterface.set_outputQueue _ _) in *.
      assert (Hctx1 : AudioInterface.outputAudioContext a1 = true) by exact Hctx.
      assert (Hq1 : AudioInterface.outputQueue a1 =
                    AudioInterface.outputQueue (player p) ++ [chunk]) by reflexivity.
      assert (Hinv1 : lossyPlaybackInvariant (received ++ [chunk]) failures
                        (mkPlayback a1 [] (started p))).
      { unfold lossyPlaybackInvariant. cbn [player rendering started].
        rewrite Hq1. split; [exact Hctx1|]. split.
        { exists tried. split; [|split; assumption].
          rewrite !map_app, Horder, app_assoc. reflexivity. }
        split; [apply Forall_app; split;
                [exact Hwhole | constructor; [exact Hchunk | constructor]]|].
        right. split; [exact Hidle | reflexivity]. }
      destruct (AudioInterface.outputQueue (player p) ++ [chunk])
        as [|head rest] eqn:Hq.
      { destruct (AudioInterface.outputQueue (player p)); discriminate. }
      assert (Hhead : playable head).
      { destruct Hinv1 as (_ & _ & Hw & _). cbn [player] in Hw.
        rewrite Hq1 in Hw. exact (Forall_inv Hw). }
      destruct (playNextOutputChunk_takes_head a1 head rest startResult
                  Hctx1 Hq1 Hhead) as (Hc' & Hq' & Hstart).
      exact (lossy_take_head _ failures (mkPlayback a1 [] (started p)) _ _ head rest
               startResult Hinv1 Hq1 Hc' Hq' Hstart).
  - rewrite app_nil_r. cbn [playbackStep playbackEffects].
    destruct (rendering p) as [|source others] eqn:Hrendering.
    { cbn [consoleErrors flat_map List.length]. rewrite Nat.add_0_r.
      unfold lossyPlaybackInvariant. rewrite Hrendering.
      split; [exact Hctx|]. split; [exists tried; repeat split; assumption|].
      split; assumption. }
    assert (Hothers : others = []).
    { destruct Hstate as [[_ Hone] | [_ Hnone]]; [|discriminate].
      destruct others; [reflexivity | discriminate]. }
    subst others.
    destruct (AudioInterface.outputQueue (player p)) as [|chunk rest] eqn:Hq.
    + destruct (playNextOutputChunk_drained (player p) startResult Hctx Hq)
        as (He & Hc' & Hp' & Hq').
      unfold lossyPlaybackInvariant. cbn [player rendering started].
      rewrite He, Hq'. cbn [renderStarts consoleErrors flat_map map app List.length].
      rewrite (app_nil_r (started p)), Nat.add_0_r.
      split; [exact Hc'|]. split; [exists tried; repeat split; assumption|].
      split; [constructor|]. right. split; [exact Hp' | reflexivity].
    + pose proof (Forall_inv Hwhole) as Hchunk'.
      destruct (playNextOutputChunk_takes_head (player p) chunk rest startResult
                  Hctx Hq Hchunk') as (Hc' & Hq' & Hstart).
      assert (Hinv : lossyPlaybackInvariant received failures p).
      { unfold lossyPlaybackInvariant. rewrite Hq, Hrendering.
        split; [exact Hctx|]. split; [exists tried; repeat split; assumption|].
        split; assumption. }
      exact (lossy_take_head _ failures p _ _ chunk rest startResult
               Hinv Hq Hc' Hq' Hstart).
Qed.

Lemma lossy_run evs received failures p :
  lossyPlaybackInvariant received failures p ->
  Forall playable (enqueued evs) ->
  lossyPlaybackInvariant (received ++ enqueued evs)
    (failures + startFailures evs p) (runPlayback evs p).
Proof.
  revert received failures p.
  induction evs as [|ev evs IH]; intros received failures p Hinv Hwhole.
  - cbn. rewrite app_nil_r, Nat.add_0_r. exact Hinv.
  - change (ev :: evs) with ([ev] ++ evs) in Hwhole |- *.
    rewrite enqueued_app in Hwhole |- *. apply Forall_app in Hwhole as [Hw1 Hw2].
    rewrite app_assoc. cbn [runPlayback app fold_left startFailures].
    rewrite Nat.add_assoc.
    apply IH; [|exact Hw2]. apply lossy_step; assumption.
Qed.

Lemma subsequence_app_r {A} (k l suffix : list A) :
  subsequence k l -> subsequence (k ++ suffix) (l ++ suffix).
Proof. intro H. apply subsequence_app; [exact H | apply subsequence_refl]. Qed.

(** X13: the playback queue when render starts may fail.  From an
    initialised, idle queue, along any interleaving of enqueues of
    chunks of whole samples, at least one each, and render completions,
    whatever each [source.start()] does: at most one source is rendering
    at any time; the render starts so far followed by the chunks still
    waiting are a subsequence of the chunks received, so nothing is
    rendered twice or out of order; and the chunks received are as many
    as those started, those waiting and the failed starts logged
    together: each failed start costs exactly one chunk, and nothing
    else loses one. *)
Theorem playback_order_survives_failed_starts
        (a : AudioInterface.t) (evs : list PlaybackEvent) :
  AudioInterface.outputAudioContext a = true ->
  Idle a ->
  Forall playable (enqueued evs) ->
  let p0 := mkPlayback a [] [] in
  let p := runPlayback evs p0 in
  (forall n, (List.length (rendering (runPlayback (firstn n evs) p0)) <= 1)%nat) /\
  subsequence (started p ++ map samplesOf (AudioInterface.outputQueue (player p)))
              (map samplesOf (enqueued evs)) /\
  (List.length (started p)
   + List.length (AudioInterface.outputQueue (player p))
   + startFailures evs p0 = List.length (enqueued evs))%nat.
Proof.
  intros Hctx [Hp Hq] Hchunks p0 p.
  assert (Hinit : lossyPlaybackInvariant [] 0 p0).
  { unfold lossyPlaybackInvariant, p0. cbn [player rendering started].
    rewrite Hq. split; [exact Hctx|].
    split; [exists []; repeat split; constructor|].
    split; [constructor|]. right. split; [exact Hp | reflexivity]. }
  split.
  - intro n.
    pose proof (lossy_run (firstn n evs) [] 0 p0 Hinit
                  (enqueued_firstn_whole _ n evs Hchunks))
      as (_ & _ & _ & [[_ Hone] | [_ Hnone]]).
    + rewrite Hone. constructor.
    + rewrite Hnone. cbn. lia.
  - pose proof (lossy_run evs [] 0 p0 Hinit Hchunks)
      as (_ & (tried & Horder & Hsub & Hcount) & _).
    fold p in Horder, Hsub, Hcount. cbn [app] in Horder. split.
    + rewrite Horder. apply subsequence_app_r. exact Hsub.
    + apply (f_equal (@List.length _)) in Horder.
      rewrite length_app, !length_map in Horder. cbn [Nat.add] in Hcount. lia.
Qed.

Lemma playback_order_survives_failed_starts_witness :
  let evs := [Enqueue Example.chunk1 (Some JsEvent);
              Enqueue Example.chunk2 None; Complete None] in
  let p0 := mkPlayback Example.audio [] [] in
  let p := runPlayback evs p0 in
  started p = [samplesOf Example.chunk2] /\
  startFailures evs p0 = 1%nat /\
  (List.length (started p)
   + List.length (AudioInterface.outputQueue (player p))
   + startFailures evs p0 = 2)%nat.
Proof.
  assert (Hchunks : Forall playable [Example.chunk1; Example.chunk2])
    by (repeat constructor; discriminate).
  split; [reflexivity|]. split; [reflexivity|].
  exact (proj2 (proj2 (playback_order_survives_failed_starts
                         Example.audio
                         [Enqueue Example.chunk1 (Some JsEvent);
                          Enqueue Example.chunk2 None; Complete None]
                         eq_refl (conj eq_refl eq_refl) Hchunks))).
Defined.

(** [play] of a chunk with an odd number of bytes into an idle queue:
    the typed-array view throws after the queue was marked Playing. *)
Lemma play_odd_chunk a chunk startResult :
  AudioInterface.outputAudioContext a = true ->
  Idle a ->
  Nat.odd (List.length chunk) = true ->
  let r := AudioInterface.play chunk startResult a in
  (exists e, completion r = Throw e) /\
  effects r = [] /\
  AudioInterface.outputAudioContext (after r) = true /\
  AudioInterface.isOutputPlaying (after r) = true /\
  AudioInterface.outputQueue (after r) = [].
Proof.
  intros Hctx [Hp Hq] Hodd.
  assert (Hnone : convertPCMToFloat32 chunk = None).
  { unfold convertPCMToFloat32.
    apply Int16Array_of_bytes_None in Hodd. rewrite Hodd. reflexivity. }
  act_unfold. rewrite Hctx. cbn. rewrite Hp. cbn. rewrite Hctx, Hq. cbn.
  rewrite Hnone. cbn. repeat split; try assumption. eexists. reflexivity.
Qed.

Lemma stalled_step ev p :
  AudioInterface.outputAudioContext (player p) = true ->
  Playing (player p) -> rendering p = [] ->
  let p' := playbackStep ev p in
  AudioInterface.outputAudioContext (player p') = true /\
  Playing (player p') /\ rendering p' = [] /\ started p' = started p /\
  AudioInterface.outputQueue (player p') =
    AudioInterface.outputQueue (player p) ++ enqueued [ev].
Proof.
  intros Hctx Hplaying Hnone. destruct ev as [chunk startResult | startResult].
  - cbn [playbackStep enqueued flat_map app].
    destruct (play_while_playing (player p) chunk startResult Hctx Hplaying)
      as (He & Hc' & Hp' & Hq').
    cbn [player rendering started]. rewrite He, Hnone.
    cbn [renderStarts flat_map app]. rewrite app_nil_r.
    repeat split; assumption.
  - cbn [playbackStep enqueued flat_map]. rewrite Hnone, app_nil_r.
    repeat split; assumption.
Qed.

(** X14: one chunk with an odd number of bytes stalls playback.  Played
    into an initialised, idle queue it makes [play] throw with the queue
    marked Playing and nothing rendering; from then on, whatever chunks
    are enqueued and whatever the device reports, no render ever starts
    and the chunks only pile up in the queue. *)
Theorem odd_chunk_stalls_playback
        (a : AudioInterface.t) (chunk : list Z)
        (startResult : AudioInterface.StartResult) (evs : list PlaybackEvent) :
  AudioInterface.outputAudioContext a = true ->
  Idle a ->
  Nat.odd (List.length chunk) = true ->
  let p := runPlayback (Enqueue chunk startResult :: evs) (mkPlayback a [] []) in
  (exists e, completion (AudioInterface.play chunk startResult a) = Throw e) /\
  started p = [] /\ rendering p = [] /\ Playing (player p) /\
  AudioInterface.outputQueue (player p) = enqueued evs.
Proof.
  intros Hctx Hidle Hodd p.
  destruct (play_odd_chunk a chunk startResult Hctx Hidle Hodd)
    as (Hthrow & He & Hc' & Hp' & Hq').
  split; [exact Hthrow|].
  subst p. cbn [runPlayback fold_left playbackStep player rendering started].
  rewrite He. cbn [renderStarts flat_map app].
  set (p1 := mkPlayback _ [] []).
  assert (H : AudioInterface.outputAudioContext (player p1) = true /\
              Playing (player p1) /\ rendering p1 = [] /\ started p1 = [] /\
              AudioInterface.outputQueue (player p1) = [])
    by (repeat split; assumption).
  clearbody p1. revert p1 H.
  change (fold_left (fun p ev => playbackStep ev p) evs) with (runPlayback evs).
  assert (Hgen : forall evs p1 queue,
             AudioInterface.outputAudioContext (player p1) = true /\
             Playing (player p1) /\ rendering p1 = [] /\ started p1 = [] /\
             AudioInterface.outputQueue (player p1) = queue ->
             started (runPlayback evs p1) = [] /\
             rendering (runPlayback evs p1) = [] /\
             Playing (player (runPlayback evs p1)) /\
             AudioInterface.outputQueue (player (runPlayback evs p1)) =
               queue ++ enqueued evs).
  { clear. induction evs as [|ev evs IH]; intros p1 queue (Hc & Hp & Hr & Hs & Hq).
    - cbn. rewrite app_nil_r. repeat split; assumption.
    - destruct (stalled_step ev p1 Hc Hp Hr) as (Hc' & Hp' & Hr' & Hs' & Hq').
      cbn [runPlayback fold_left].
      change (fold_left (fun p ev => playbackStep ev p) evs) with (runPlayback evs).
      change (ev :: evs) with ([ev] ++ evs). rewrite enqueued_app, app_assoc.
      apply IH. rewrite Hs', Hq', Hq. repeat split; try assumption. }
  intros p1 H. exact (Hgen evs p1 [] H).
Qed.

Lemma odd_chunk_stalls_playback_witness :
  let p := runPlayback [Enqueue [0; 64; 7] None; Enqueue Example.chunk1 None;
                        Complete None; Enqueue Example.chunk2 None]
                       (mkPlayback Example.audio [] []) in
  started p = [] /\ rendering p = [] /\ Playing (player p) /\
  AudioInterface.outputQueue (player p) = [Example.chunk1; Example.chunk2].
Proof.
  exact (proj2 (odd_chunk_stalls_playback
                  Example.audio [0; 64; 7] None
                  [Enqueue Example.chunk1 None; Complete None;
                   Enqueue Example.chunk2 None]
                  eq_refl (conj eq_refl eq_refl) eq_refl)).
Defined.

End LossyPlayback.

(** ** The socket manager *)

Section SocketFacts.

(** X15: [disconnect()] can be called in any state.  Afterwards there is
    no socket and the manager is not running; the socket is closed
    exactly when it was open; a second [disconnect()] closes nothing;
    every send after it writes nothing; and a later [connect()] whose
    socket opens makes the manager able to send again. *)
Theorem disconnect_closes_open_socket_once (w : WebSocketManager.t) :
  let r := WebSocketManager.disconnect w in
  let w' := after r in
  completion r = Normal tt /\
  WebSocketManager.websocket w' = None /\
  WebSocketManager.isRunning w' = false /\
  socketCloses (effects r) =
    match WebSocketManager.websocket w with
    | Some WebSocketManager.OPEN => 1%nat
    | _ => 0%nat
    end /\
  (after (WebSocketManager.disconnect w') = w' /\
   socketCloses (effects (WebSocketManager.disconnect w')) = 0%nat) /\
  (forall audioData json,
      sent (effects (WebSocketManager.sendAudioData audioData w')) = [] /\
      sent (effects (WebSocketManager.sendMessage json w')) = [] /\
      sent (effects (WebSocketManager.sendInterrupt w')) = []) /\
  WebSocketManager.canSend
    (after (WebSocketManager.connect WebSocketManager.SocketOpens w')) = true.
Proof.
  destruct w as [[[]|] url running]; cbv zeta; repeat split; reflexivity.
Qed.

(** X16: [connect()] never replaces a socket object it already holds.
    If the field is set, in whatever ready state, it resolves at once,
    changes nothing and opens nothing.  So after a connection attempt
    that ended in [onerror], which rejects and leaves the closed socket
    in the field, every later [connect()] resolves without a connection:
    the manager still cannot send. *)
Theorem connect_never_replaces_a_socket
        (w : WebSocketManager.t) (outcome : WebSocketManager.ConnectOutcome) :
  (forall readyState,
      WebSocketManager.websocket w = Some readyState ->
      WebSocketManager.connect outcome w = (Normal tt, w, [])) /\
  (WebSocketManager.websocket w = None ->
   let failed := WebSocketManager.connect WebSocketManager.SocketErrors w in
   completion failed = Throw JsEvent /\
   WebSocketManager.websocket (after failed) = Some WebSocketManager.CLOSED /\
   WebSocketManager.connect outcome (after failed) =
     (Normal tt, after failed, []) /\
   WebSocketManager.canSend (after failed) = false).
Proof.
  destruct w as [socket url running]. cbn [WebSocketManager.websocket]. split.
  - intros readyState ->. reflexivity.
  - intros ->. cbv zeta. repeat split; reflexivity.
Qed.

End SocketFacts.

(** ** The session between calls *)

Ltac manager_unfold :=
  cbv [sessionDeliver
       ConversationManager.startConversation ConversationManager.stopConversation
       ConversationManager.cleanup ConversationManager.sendMessage
       ConversationManager.updateWebSocketUrl
       ConversationManager.handleWebSocketMessage
       ConversationManager.onaudioprocess ConversationManager.onended
       ConversationManager.isConnected
       ConversationManager.onAudioInput ConversationManager.onAmplitudeChange
       ConversationManager.onInterrupt
       ConversationManager.onWebSocketManager
       ConversationManager.onAudioInterface ConversationManager.callbacks
       ConversationManager.updateState ConversationManager.spread
       ConversationManager.orElse ConversationManager.initialState
       ConversationManager.set_state ConversationManager.set_isRunning
       ConversationManager.set_audioInterface
       ConversationManager.set_webSocketManager
       ConversationManager.errorMessage
       WebSocketManager.connect WebSocketManager.disconnect
       WebSocketManager.onclose WebSocketManager.isConnected
       WebSocketManager.canSend
       WebSocketManager.sendAudioData WebSocketManager.sendMessage
       WebSocketManager.sendInterrupt
       WebSocketManager.set_websocket WebSocketManager.set_isRunning
       AudioInterface.cleanup].

Section SessionRunFacts.

Variable Math_sqrt : Q -> Q.

Lemma audio_effects_are_audio (ev : Event) (a : AudioInterface.t) :
  Forall audioEffect (effects (deliver Math_sqrt ev a)).
Proof. destruct ev; act_cases; repeat constructor. Qed.

Lemma audio_events_keep_running (ev : Event) (a : AudioInterface.t) :
  match ev with Start _ | Stop => False | _ => True end ->
  AudioInterface.isRunning (after (deliver Math_sqrt ev a)) =
  AudioInterface.isRunning a.
Proof. destruct ev; intro H; try contradiction; act_cases; reflexivity. Qed.

Lemma sent_app (es1 es2 : list Effect) : sent (es1 ++ es2) = sent es1 ++ sent es2.
Proof. apply flat_map_app. Qed.

Lemma published_app (es1 es2 : list Effect) :
  published (es1 ++ es2) = published es1 ++ published es2.
Proof. apply flat_map_app. Qed.

Lemma last_nonempty_default {A} (l : list A) (x d1 d2 : A) :
  last (x :: l) d1 = last (x :: l) d2.
Proof.
  revert x. induction l as [|y l IH]; intro x; [reflexivity|].
  change (last (y :: l) d1 = last (y :: l) d2). apply IH.
Qed.

Lemma last_cons_default {A} (l : list A) (x d : A) :
  last (x :: l) d = last l x.
Proof.
  destruct l as [|y l]; [reflexivity|].
  change (last (y :: l) d = last (y :: l) x). apply last_nonempty_default.
Qed.

Lemma last_app_default {A} (l1 l2 : list A) (d : A) :
  last (l1 ++ l2) d = last l2 (last l1 d).
Proof.
  revert d. induction l1 as [|x l1 IH]; intro d; [reflexivity|].
  destruct l1 as [|y l1].
  - cbn [app]. apply last_cons_default.
  - change (last ((y :: l1) ++ l2) d = last l2 (last (y :: l1) d)). apply IH.
Qed.

(** Running the callbacks of what an audio method emitted, on the whole
    session. *)
Lemma callbacks_session (es : list Effect) (s : ConversationManager.t) :
  Forall audioEffect es ->
  let r := ConversationManager.callbacks es s in
  completion r = Normal tt /\
  ConversationManager.audioInterface (after r) = ConversationManager.audioInterface s /\
  ConversationManager.webSocketManager (after r) = ConversationManager.webSocketManager s /\
  ConversationManager.isRunning (after r) = ConversationManager.isRunning s /\
  ConversationManager.stateChangeCallback (after r) =
    ConversationManager.stateChangeCallback s /\
  sameButAmplitude (ConversationManager.state (after r)) (ConversationManager.state s) /\
  (WebSocketManager.canSend (ConversationManager.webSocketManager s) = false ->
   sent (effects r) = []) /\
  (ConversationManager.stateChangeCallback s = true ->
   last (published (effects r)) (ConversationManager.state s) =
   ConversationManager.state (after r)).
Proof.
  intro Hes. cbv zeta. revert s.
  induction Hes as [|e es He _ IH]; intro s.
  - cbn. unfold sameButAmplitude. repeat split; reflexivity.
  - cbn [ConversationManager.callbacks].
    set (step := match e with
                 | AmplitudeCallback amplitude =>
                     ConversationManager.onAmplitudeChange amplitude
                 | OnInterrupt => ConversationManager.onInterrupt
                 | InputCallback audioData =>
                     ConversationManager.onAudioInput audioData
                 | _ => emit e
                 end).
    assert (Hstep :
      completion (step s) = Normal tt /\
      ConversationManager.audioInterface (after (step s)) =
        ConversationManager.audioInterface s /\
      ConversationManager.webSocketManager (after (step s)) =
        ConversationManager.webSocketManager s /\
      ConversationManager.isRunning (after (step s)) =
        ConversationManager.isRunning s /\
      ConversationManager.stateChangeCallback (after (step s)) =
        ConversationManager.stateChangeCallback s /\
      sameButAmplitude (ConversationManager.state (after (step s)))
                       (ConversationManager.state s) /\
      (WebSocketManager.canSend (ConversationManager.webSocketManager s) = false ->
       sent (effects (step s)) = []) /\
      (ConversationManager.stateChangeCallback s = true ->
       last (published (effects (step s))) (ConversationManager.state s) =
       ConversationManager.state (after (step s)))).
    { subst step. unfold sameButAmplitude.
      destruct s as [url a w running callback st].
      destruct e; try contradiction; cm_unfold; cbn;
        repeat break_match; cbn; repeat split; try reflexivity;
        intro H; cbn in H; congruence. }
    destruct Hstep as (Hc & Ha & Hw & Hr & Hcb & Hst & Hsent & Hpub).
    unfold bind. destruct (step s) as [[c s1] e1] eqn:Hs.
    cbn [completion after effects fst snd] in *. subst c.
    specialize (IH s1). destruct (ConversationManager.callbacks es s1) as [[c2 s2] e2].
    cbn [completion after effects fst snd] in *.
    destruct IH as (Hc2 & Ha2 & Hw2 & Hr2 & Hcb2 & Hst2 & Hsent2 & Hpub2).
    unfold sameButAmplitude in *.
    split; [exact Hc2|]. split; [congruence|]. split; [congruence|].
    split; [congruence|]. split; [congruence|].
    split; [intuition congruence|]. split.
    + intro Hclosed. rewrite sent_app, (Hsent Hclosed), Hsent2; [reflexivity|].
      rewrite Hw. exact Hclosed.
    + intro Hcallback. rewrite published_app, last_app_default.
      rewrite (Hpub Hcallback). apply Hpub2. rewrite Hcb. exact Hcallback.
Qed.

(** A call into the audio interface, on the whole session. *)
Lemma onAudioInterface_session {A} (method : Act AudioInterface.t A)
      (m : ConversationManager.t) :
  Forall audioEffect (effects (method (ConversationManager.audioInterface m))) ->
  let r := ConversationManager.onAudioInterface method m in
  completion r = completion (method (ConversationManager.audioInterface m)) /\
  ConversationManager.audioInterface (after r) =
    after (method (ConversationManager.audioInterface m)) /\
  ConversationManager.webSocketManager (after r) = ConversationManager.webSocketManager m /\
  ConversationManager.isRunning (after r) = ConversationManager.isRunning m /\
  ConversationManager.stateChangeCallback (after r) =
    ConversationManager.stateChangeCallback m /\
  sameButAmplitude (ConversationManager.state (after r)) (ConversationManager.state m) /\
  (WebSocketManager.canSend (ConversationManager.webSocketManager m) = false ->
   sent (effects r) = []) /\
  (ConversationManager.stateChangeCallback m = true ->
   last (published (effects r)) (ConversationManager.state m) =
   ConversationManager.state (after r)).
Proof.
  intro Hes. cbv zeta. unfold ConversationManager.onAudioInterface.
  destruct (method (ConversationManager.audioInterface m)) as [[c a'] es].
  cbn [completion after effects fst snd] in *.
  pose proof (callbacks_session es (ConversationManager.set_audioInterface a' m) Hes) as H.
  cbv zeta in H.
  destruct (ConversationManager.callbacks es _) as [[c' s'] es'].
  cbn [completion after effects fst snd] in *.
  destruct H as (_ & Ha & Hw & Hr & Hcb & Hst & Hsent & Hpub).
  repeat split; try assumption; apply Hst.
Qed.

End SessionRunFacts.

Section SessionInvariants.

Variable Math_sqrt : Q -> Q.

Lemma tryCatch_swallow {S} (m : Act S unit) (s : S) :
  let r := tryCatch m (fun _ => ret tt) s in
  completion r = Normal tt /\ after r = after (m s) /\ effects r = effects (m s).
Proof.
  cbv zeta. unfold tryCatch, ret. destruct (m s) as [[[[]|e] s1] e1]; cbn.
  - repeat split; reflexivity.
  - rewrite app_nil_r. repeat split; reflexivity.
Qed.

Lemma audioCall_session (ev : SessionEvent) (call : Event) (m : ConversationManager.t) :
  audioCall ev = Some call ->
  let r := sessionDeliver Math_sqrt ev m in
  ConversationManager.audioInterface (after r) =
    after (deliver Math_sqrt call (ConversationManager.audioInterface m)) /\
  ConversationManager.webSocketManager (after r) = ConversationManager.webSocketManager m /\
  ConversationManager.isRunning (after r) = ConversationManager.isRunning m /\
  ConversationManager.stateChangeCallback (after r) =
    ConversationManager.stateChangeCallback m /\
  sameButAmplitude (ConversationManager.state (after r)) (ConversationManager.state m) /\
  (WebSocketManager.canSend (ConversationManager.webSocketManager m) = false ->
   sent (effects r) = []) /\
  (ConversationManager.stateChangeCallback m = true ->
   last (published (effects r)) (ConversationManager.state m) =
   ConversationManager.state (after r)).
Proof.
  intro Hcall. cbv zeta.
  pose proof (audio_effects_are_audio Math_sqrt call (ConversationManager.audioInterface m))
    as Hes.
  pose proof (onAudioInterface_session (deliver Math_sqrt call) m Hes) as H.
  cbv zeta in H. destruct H as (_ & H).
  destruct ev as [| | | | |[bytes|text] startResult| |audioData currentTime now1 now2
                 |startResult]; try discriminate;
    injection Hcall as <-; cbn [sessionDeliver deliver] in *.
  - unfold ConversationManager.handleWebSocketMessage.
    destruct (tryCatch_swallow
                (ConversationManager.onAudioInterface
                   (AudioInterface.play bytes startResult)) m) as (_ & Ha & He).
    rewrite Ha, He. exact H.
  - exact H.
  - exact H.
Qed.

End SessionInvariants.

Section ManagerCalls.

Variable Math_sqrt : Q -> Q.

Ltac split_session m :=
  destruct m as [url [ic oc st arun q op src ap ls parts lt ac oi]
                     [socket wurl wrun] running callback
                     [connected recording playing amplitude err]].

Ltac session_crunch :=
  vm_compute; repeat split; try reflexivity; try congruence;
  try (intros; try discriminate; try congruence; intuition congruence).

Lemma managerCall_invariant (ev : SessionEvent) (m : ConversationManager.t) :
  audioCall ev = None ->
  sessionInvariant m ->
  sessionInvariant (after (sessionDeliver Math_sqrt ev m)).
Proof.
  intros Hcall Hinv. unfold sessionInvariant in *.
  split_session m. cbn in Hinv. destruct Hinv as (Hp & Hr & Hon & Hoff).
  subst playing arun.
  destruct running;
    [specialize (Hon eq_refl); destruct Hon as (-> & -> & ->)
    |specialize (Hoff eq_refl); destruct Hoff as (-> & ->)];
    destruct ev as [connectOutcome startOutcome| | |json|newUrl
                   |[bytes|text] startResult| | |];
    try discriminate Hcall; clear Hcall.
  all: try (destruct connectOutcome, startOutcome, socket as [[]|], callback;
            session_crunch; fail).
  all: try (destruct ic, oc, st, src, socket as [[]|], callback;
            session_crunch; fail).
  all: try (destruct socket as [[]|], wrun; session_crunch; fail).
Qed.

Lemma managerCall_effects (ev : SessionEvent) (m : ConversationManager.t) :
  audioCall ev = None ->
  let r := sessionDeliver Math_sqrt ev m in
  (WebSocketManager.canSend (ConversationManager.webSocketManager m) = false ->
   sent (effects r) = []) /\
  (ConversationManager.stateChangeCallback m = true ->
   last (published (effects r)) (ConversationManager.state m) =
   ConversationManager.state (after r)) /\
  ConversationManager.stateChangeCallback (after r) =
    ConversationManager.stateChangeCallback m.
Proof.
  intros Hcall. cbv zeta. split_session m.
  destruct running;
    destruct ev as [connectOutcome startOutcome| | |json|newUrl
                   |[bytes|text] startResult| | |];
    try discriminate Hcall; clear Hcall.
  all: try (destruct connectOutcome, startOutcome, socket as [[]|], callback, wrun;
            session_crunch; fail).
  all: try (destruct ic, oc, st, src, socket as [[]|], callback, wrun;
            session_crunch; fail).
Qed.

Lemma sessionDeliver_invariant (ev : SessionEvent) (m : ConversationManager.t) :
  sessionInvariant m ->
  sessionInvariant (after (sessionDeliver Math_sqrt ev m)).
Proof.
  intro Hinv. destruct (audioCall ev) as [call|] eqn:Hcall.
  2: { apply managerCall_invariant; assumption. }
  destruct (audioCall_session Math_sqrt ev call m Hcall)
    as (Ha & _ & Hr & _ & (Hc & Hrec & Hp & He) & _).
  assert (Hrun : AudioInterface.isRunning
                   (after (deliver Math_sqrt call (ConversationManager.audioInterface m))) =
                 AudioInterface.isRunning (ConversationManager.audioInterface m)).
  { apply audio_events_keep_running.
    destruct ev as [| | | | |[|] ?| | |]; try discriminate;
      injection Hcall as <-; exact I. }
  destruct Hinv as (Hplaying & Hsame & Hon & Hoff).
  unfold sessionInvariant. rewrite Ha, Hr, Hc, Hrec, Hp, He, Hrun.
  repeat split; try assumption; try (apply Hon; assumption); apply Hoff; assumption.
Qed.

Lemma sessionDeliver_effects (ev : SessionEvent) (m : ConversationManager.t) :
  let r := sessionDeliver Math_sqrt ev m in
  (WebSocketManager.canSend (ConversationManager.webSocketManager m) = false ->
   sent (effects r) = []) /\
  (ConversationManager.stateChangeCallback m = true ->
   last (published (effects r)) (ConversationManager.state m) =
   ConversationManager.state (after r)) /\
  ConversationManager.stateChangeCallback (after r) =
    ConversationManager.stateChangeCallback m.
Proof.
  destruct (audioCall ev) as [call|] eqn:Hcall.
  2: { apply managerCall_effects. exact Hcall. }
  destruct (audioCall_session Math_sqrt ev call m Hcall)
    as (_ & _ & _ & Hcb & _ & Hsent & Hpub).
  cbv zeta. repeat split; assumption.
Qed.

(** With an observer registered, the last state published along a run
    is the state the session is left in. *)
Lemma sessionRun_published (evs : list SessionEvent) (m : ConversationManager.t) :
  ConversationManager.stateChangeCallback m = true ->
  last (published (sessionEffects Math_sqrt evs m)) (ConversationManager.state m) =
  ConversationManager.state (sessionRun Math_sqrt evs m).
Proof.
  revert m. induction evs as [|ev evs IH]; intros m Hcb; [reflexivity|].
  cbn [sessionEffects sessionRun].
  destruct (sessionDeliver_effects ev m) as (_ & Hpub & Hcb').
  rewrite published_app, last_app_default, (Hpub Hcb).
  apply IH. rewrite Hcb'. exact Hcb.
Qed.

Lemma sessionRun_invariant (evs : list SessionEvent) (m : ConversationManager.t) :
  sessionInvariant m -> sessionInvariant (sessionRun Math_sqrt evs m).
Proof.
  revert m. induction evs as [|ev evs IH]; intros m Hinv; [exact Hinv|].
  cbn [sessionRun]. apply IH. apply sessionDeliver_invariant. exact Hinv.
Qed.

Lemma new_session_invariant (websocketUrl : string) (stateChangeCallback : bool)
      (now : Z) :
  sessionInvariant (ConversationManager.new websocketUrl stateChangeCallback now).
Proof.
  unfold sessionInvariant. cbn.
  split; [reflexivity|]. split; [reflexivity|].
  split; [intro; discriminate | intro; split; reflexivity].
Qed.

(** X17: between calls the session is consistent.  After any sequence
    of calls and callbacks on a new manager, each call taken whole: the
    published [isPlaying] is false (nothing ever sets it); the audio
    interface is capturing exactly when the session is active; an active
    session is published as connected and recording with no error; an
    inactive one as neither connected nor recording. *)
Theorem session_is_consistent_between_calls
        (websocketUrl : string) (stateChangeCallback : bool) (now : Z)
        (evs : list SessionEvent) :
  sessionInvariant
    (sessionRun Math_sqrt evs
                (ConversationManager.new websocketUrl stateChangeCallback now)).
Proof. apply sessionRun_invariant, new_session_invariant. Qed.

(** X18: nothing is written to a socket that is not open.  Whatever the
    call or callback, if the socket manager cannot send when it begins
    (no socket, a socket that is not open, or a manager not running),
    it sends nothing: captured audio, interrupts and messages are
    dropped, not queued. *)
Theorem nothing_is_sent_on_a_closed_socket
        (ev : SessionEvent) (m : ConversationManager.t) :
  WebSocketManager.canSend (ConversationManager.webSocketManager m) = false ->
  sent (effects (sessionDeliver Math_sqrt ev m)) = [].
Proof. intro H. apply (sessionDeliver_effects ev m). exact H. Qed.

(** X19: the observer is never behind.  With a state-change callback
    registered, after any sequence of calls and callbacks the last state
    published is the state [getState()] returns; if nothing was
    published the state has not changed. *)
Theorem observer_sees_the_current_state
        (evs : list SessionEvent) (m : ConversationManager.t) :
  ConversationManager.stateChangeCallback m = true ->
  last (published (sessionEffects Math_sqrt evs m)) (ConversationManager.state m) =
  ConversationManager.getState (sessionRun Math_sqrt evs m).
Proof.
  revert m. induction evs as [|ev evs IH]; intros m Hcb; [reflexivity|].
  cbn [sessionEffects sessionRun].
  destruct (sessionDeliver_effects ev m) as (_ & Hpub & Hcb').
  rewrite published_app, last_app_default, (Hpub Hcb).
  apply IH. rewrite Hcb'. exact Hcb.
Qed.

End ManagerCalls.

Lemma nothing_is_sent_on_a_closed_socket_witness :
  sent (effects (sessionDeliver Js.Qsqrt (CaptureFrame Example.speech010 1000 1000 1000)
                                Example.playingSessionSocketClosed)) = [].
Proof.
  apply (nothing_is_sent_on_a_closed_socket
           Js.Qsqrt (CaptureFrame Example.speech010 1000 1000 1000)
           Example.playingSessionSocketClosed).
  reflexivity.
Defined.

Lemma observer_sees_the_current_state_witness :
  last (published
          (sessionEffects Js.Qsqrt
             [StartConversation WebSocketManager.SocketOpens AudioInterface.StartSucceeds;
              CaptureFrame Example.speech010 1000 1000 1000; StopConversation]
             (ConversationManager.new Example.url true 0)))
       ConversationManager.initialState =
  ConversationManager.getState
    (sessionRun Js.Qsqrt
       [StartConversation WebSocketManager.SocketOpens AudioInterface.StartSucceeds;
        CaptureFrame Example.speech010 1000 1000 1000; StopConversation]
       (ConversationManager.new Example.url true 0)).
Proof.
  apply (observer_sees_the_current_state
           Js.Qsqrt
           [StartConversation WebSocketManager.SocketOpens AudioInterface.StartSucceeds;
            CaptureFrame Example.speech010 1000 1000 1000; StopConversation]
           (ConversationManager.new Example.url true 0)).
  reflexivity.
Defined.

(** ** Stopping, restarting and cleaning up *)

Section Lifecycle.

Ltac split_manager m :=
  destruct m as [url [ic oc st arun q op src ap ls parts lt ac oi]
                     [socket wurl wrun] running callback
                     [connected recording playing amplitude err]].

(** X20: [stopConversation()] on an inactive session logs a warning and
    changes nothing, so a second stop is a no-op.  On an active session
    it returns normally with the session inactive, the published state
    back at the initial one (published once if there is an observer),
    the socket manager without a socket and not running, the socket
    closed exactly if it was open, and the audio interface stopped with
    its stream and contexts released and its queue empty. *)
Theorem stopConversation_resets_an_active_session (m : ConversationManager.t) :
  let r := ConversationManager.stopConversation m in
  let m' := after r in
  if ConversationManager.isRunning m then
    completion r = Normal tt /\
    ConversationManager.isRunning m' = false /\
    ConversationManager.state m' = ConversationManager.initialState /\
    published (effects r) =
      (if ConversationManager.stateChangeCallback m
       then [ConversationManager.initialState] else []) /\
    WebSocketManager.websocket (ConversationManager.webSocketManager m') = None /\
    WebSocketManager.isRunning (ConversationManager.webSocketManager m') = false /\
    socketCloses (effects r) =
      match WebSocketManager.websocket (ConversationManager.webSocketManager m) with
      | Some WebSocketManager.OPEN => 1%nat
      | _ => 0%nat
      end /\
    (AudioInterface.isRunning (ConversationManager.audioInterface m') = false /\
     AudioInterface.inputStream (ConversationManager.audioInterface m') = false /\
     AudioInterface.inputAudioContext (ConversationManager.audioInterface m') = false /\
     AudioInterface.outputAudioContext (ConversationManager.audioInterface m') = false /\
     Idle (ConversationManager.audioInterface m')) /\
    ConversationManager.stopConversation m' =
      (Normal tt, m', [Console LevelWarn "Conversation not running"])
  else
    r = (Normal tt, m, [Console LevelWarn "Conversation not running"]).
Proof.
  split_manager m. destruct running; [|reflexivity].
  destruct ic, oc, st, src, socket as [[]|], callback;
    vm_compute; repeat split; reflexivity.
Qed.

(** X21: a stopped session can be started again.  After
    [stopConversation()] on an active session, a [startConversation()]
    whose socket opens and whose audio acquisition succeeds resolves
    with the session active, a new open socket the manager can send on,
    the audio interface capturing, and the state published as connected
    and recording with amplitude 0 and no error. *)
Theorem stopped_session_restarts (m : ConversationManager.t) :
  ConversationManager.isRunning m = true ->
  let stopped := after (ConversationManager.stopConversation m) in
  let r := ConversationManager.startConversation
             WebSocketManager.SocketOpens AudioInterface.StartSucceeds stopped in
  completion r = Normal tt /\
  ConversationManager.isActive (after r) = true /\
  ConversationManager.isConnected (after r) = true /\
  AudioInterface.isRunning (ConversationManager.audioInterface (after r)) = true /\
  ConversationManager.getState (after r) =
    mkConversationState true true false 0 None.
Proof.
  split_manager m. cbn [ConversationManager.isRunning]. intros ->.
  destruct ic, oc, st, src, socket as [[]|], callback;
    vm_compute; repeat split; reflexivity.
Qed.

Lemma stopped_session_restarts_witness :
  let r := ConversationManager.startConversation
             WebSocketManager.SocketOpens AudioInterface.StartSucceeds
             (after (ConversationManager.stopConversation Example.playingSession)) in
  completion r = Normal tt /\
  ConversationManager.isActive (after r) = true /\
  ConversationManager.isConnected (after r) = true /\
  AudioInterface.isRunning (ConversationManager.audioInterface (after r)) = true /\
  ConversationManager.getState (after r) =
    mkConversationState true true false 0 None.
Proof.
  apply (stopped_session_restarts Example.playingSession). reflexivity.
Defined.

(** X22: [cleanup()] always releases the audio side and closes the
    socket only for an active session.  Whatever the state, afterwards
    the audio interface is stopped, its stream and contexts released
    and its queue empty.  On an inactive session the socket manager is
    left exactly as it was and nothing is closed: a socket left open by
    a start that failed after connecting stays open. *)
Theorem cleanup_releases_audio_always (m : ConversationManager.t) :
  let r := ConversationManager.cleanup m in
  let a' := ConversationManager.audioInterface (after r) in
  completion r = Normal tt /\
  (AudioInterface.isRunning a' = false /\
   AudioInterface.inputStream a' = false /\
   AudioInterface.inputAudioContext a' = false /\
   AudioInterface.outputAudioContext a' = false /\
   Idle a') /\
  ConversationManager.isRunning (after r) = false /\
  (ConversationManager.isRunning m = false ->
   ConversationManager.webSocketManager (after r) =
     ConversationManager.webSocketManager m /\
   socketCloses (effects r) = 0%nat /\
   ConversationManager.state (after r) = ConversationManager.state m).
Proof.
  split_manager m.
  destruct running, ic, oc, st, src, socket as [[]|], callback;
    vm_compute; repeat split; try reflexivity; discriminate.
Qed.

(** X23: a failed connection is not retried by the next start.  When
    the first [startConversation()] of a manager ends in the socket's
    [onerror], it rejects with the event, the error field says
    "Unknown error" and the closed socket stays in the socket manager.
    The next [startConversation()] whose audio acquisition succeeds then
    resolves whatever the network would do: the session is active and
    published as connected, while [isConnected()] is false, the socket is
    closed and a message sent is dropped. *)
Theorem failed_connection_is_not_retried
        (websocketUrl : string) (stateChangeCallback : bool) (now : Z)
        (firstStart : AudioInterface.StartOutcome)
        (secondConnect : WebSocketManager.ConnectOutcome) (json : string) :
  let m := ConversationManager.new websocketUrl stateChangeCallback now in
  let failed := ConversationManager.startConversation
                  WebSocketManager.SocketErrors firstStart m in
  let r := ConversationManager.startConversation
             secondConnect AudioInterface.StartSucceeds (after failed) in
  (completion failed = Throw JsEvent /\
   error (ConversationManager.state (after failed)) =
     Some "Failed to start conversation: Unknown error"%string /\
   ConversationManager.isActive (after failed) = false) /\
  (completion r = Normal tt /\
   ConversationManager.isActive (after r) = true /\
   isConnected (ConversationManager.getState (after r)) = true /\
   error (ConversationManager.getState (after r)) = None /\
   ConversationManager.isConnected (after r) = false /\
   WebSocketManager.getReadyState
     (ConversationManager.webSocketManager (after r)) = Some WebSocketManager.CLOSED /\
   sent (effects (ConversationManager.sendMessage json (after r))) = []).
Proof.
  destruct firstStart, secondConnect, stateChangeCallback;
    vm_compute; repeat split; reflexivity.
Qed.

End Lifecycle.

(** ** The example application *)

Section ApplicationFacts.

Variable Math_sqrt : Q -> Q.

(** X24: the status line of the example application, whose state is
    the last one its manager published, and the initial state before.
    Text and colour are chosen by the same cases, so each text has its
    one colour.  Between calls and callbacks, each taken whole, the line
    of an active session reads "Listening" and that of an inactive one
    "Error" or "Disconnected".  Inside a start the line moves: the first
    start of a manager, when it succeeds, publishes three states, shown
    as "Disconnected", "Connected" (socket open, audio not yet acquired)
    and "Listening". *)
Theorem status_line_follows_the_session
        (websocketUrl : string) (now : Z)
        (evs : list SessionEvent) (anyState : ConversationState) :
  let m0 := ConversationManager.new websocketUrl true now in
  let m := sessionRun Math_sqrt evs m0 in
  let shown := last (published (sessionEffects Math_sqrt evs m0))
                    ConversationManager.initialState in
  (if ConversationManager.isActive m
   then ConversationApp.getStatusText shown = "Listening"%string
   else ConversationApp.getStatusText shown = "Error"%string \/
        ConversationApp.getStatusText shown = "Disconnected"%string) /\
  ConversationApp.getStatusColor anyState =
    (if String.eqb (ConversationApp.getStatusText anyState) "Error" then "#ef4444"
     else if String.eqb (ConversationApp.getStatusText anyState) "Disconnected"
          then "#6b7280"
     else if String.eqb (ConversationApp.getStatusText anyState) "Listening"
          then "#10b981"
     else "#3b82f6")%string /\
  map ConversationApp.getStatusText
      (published
         (effects (ConversationManager.startConversation
                     WebSocketManager.SocketOpens AudioInterface.StartSucceeds m0))) =
    ["Disconnected"; "Connected"; "Listening"]%string.
Proof.
  cbv zeta. split; [|split].
  - pose proof (sessionRun_invariant Math_sqrt evs _
                  (new_session_invariant websocketUrl true now))
      as Hinv.
    pose proof (sessionRun_published Math_sqrt evs
                  (ConversationManager.new websocketUrl true now) eq_refl)
      as Hshown.
    change (ConversationManager.state (ConversationManager.new websocketUrl true now))
      with ConversationManager.initialState in Hshown.
    rewrite Hshown.
    destruct Hinv as (_ & _ & Hon & Hoff).
    unfold ConversationManager.isActive, ConversationApp.getStatusText.
    destruct (ConversationManager.isRunning _).
    + destruct (Hon eq_refl) as (Hc & Hr & He). rewrite Hc, Hr, He. reflexivity.
    + destruct (Hoff eq_refl) as (Hc & _). rewrite Hc.
      destruct (ConversationApp.truthy _); [left | right]; reflexivity.
  - unfold ConversationApp.getStatusColor, ConversationApp.getStatusText.
    destruct (ConversationApp.truthy _), (isConnected anyState),
      (isRecording anyState); reflexivity.
  - vm_compute. reflexivity.
Qed.

End ApplicationFacts.

Section BubbleFacts.

Local Open Scope Q_scope.

Lemma normalized_range (amplitude : Q) :
  let n := Js.Math_min (Js.Math_max amplitude 0) 1 in
  0 <= n <= 1 /\ (amplitude <= 0 -> n == 0) /\ (1 <= amplitude -> n == 1) /\
  (0 <= amplitude <= 1 -> n == amplitude).
Proof.
  cbv zeta. unfold Js.Math_min, Js.Math_max.
  destruct (Qle_bool amplitude 0) eqn:E0.
  - apply Qle_bool_iff in E0. change (Qle_bool 0 1) with true. cbv iota.
    repeat split; intros; lra.
  - assert (H0 : 0 < amplitude).
    { apply Qnot_le_lt. intro H. apply Qle_bool_iff in H. congruence. }
    destruct (Qle_bool amplitude 1) eqn:E1.
    + apply Qle_bool_iff in E1. repeat split; intros; lra.
    + assert (H1 : 1 < amplitude).
      { apply Qnot_le_lt. intro H. apply Qle_bool_iff in H. congruence. }
      repeat split; intros; lra.
Qed.

(** X25: the bubble's scale stays between its bounds (the arithmetic
    taken exactly).  For
    [minScale <= maxScale] the scale applied is within
    [minScale, maxScale] whatever the amplitude, it is [minScale] for an
    amplitude of 0 or less and [maxScale] for 1 or more, and a larger
    amplitude never gives a smaller scale. *)
Theorem bubble_scale_stays_within_bounds (amplitude louder minScale maxScale : Q) :
  minScale <= maxScale ->
  minScale <= PulsingBubble.scale amplitude minScale maxScale <= maxScale /\
  (amplitude <= 0 -> PulsingBubble.scale amplitude minScale maxScale == minScale) /\
  (1 <= amplitude -> PulsingBubble.scale amplitude minScale maxScale == maxScale) /\
  (amplitude <= louder ->
   PulsingBubble.scale amplitude minScale maxScale <=
   PulsingBubble.scale louder minScale maxScale).
Proof.
  intro Hbounds. unfold PulsingBubble.scale.
  pose proof (normalized_range amplitude) as (Hn & Hlow & Hhigh & Hmid).
  pose proof (normalized_range louder) as (Hn' & Hlow' & Hhigh' & Hmid').
  cbv zeta in *.
  set (n := Js.Math_min (Js.Math_max amplitude 0) 1) in *.
  set (n' := Js.Math_min (Js.Math_max louder 0) 1) in *.
  set (range := maxScale - minScale).
  assert (Hrange : 0 <= range) by (unfold range; lra).
  assert (Hprod : 0 <= n * range) by (apply Qmult_le_0_compat; lra).
  assert (Hprod1 : n * range <= range).
  { rewrite <- (Qmult_1_l range) at 2. apply Qmult_le_compat_r; lra. }
  split; [unfold range in *; split; lra|].
  split; [intro H; rewrite (Hlow H); unfold range; ring|].
  split; [intro H; rewrite (Hhigh H); unfold range; ring|].
  intro Hle.
  assert (Hnn : n <= n').
  { destruct (Qlt_le_dec amplitude 0) as [Ha | Ha].
    - rewrite Hlow by lra. lra.
    - destruct (Qlt_le_dec 1 louder) as [Hl | Hl].
      + rewrite Hhigh' by lra. lra.
      + rewrite Hmid, Hmid' by lra. exact Hle. }
  assert (Hmono : n * range <= n' * range) by (apply Qmult_le_compat_r; lra).
  lra.
Qed.

Lemma bubble_scale_stays_within_bounds_witness :
  8 # 10 <= PulsingBubble.scale (1 # 2) (8 # 10) (14 # 10) <= 14 # 10.
Proof.
  apply (bubble_scale_stays_within_bounds (1 # 2) 1 (8 # 10) (14 # 10)).
  vm_compute. discriminate.
Defined.

End BubbleFacts.

(** ** Changing the endpoint, and the amplitude on its way to the observer *)

Section EndpointAndAmplitude.

Variable Math_sqrt : Q -> Q.

(** X26: [updateWebSocketUrl] is refused on an active session, which it
    leaves exactly as it was; on an inactive one it stores the new URL
    and a new socket manager without a socket, closes nothing and keeps
    the audio interface and the published state.  The next
    [startConversation()] therefore connects again, also after a
    connection that had failed. *)
Theorem updateWebSocketUrl_replaces_the_socket_manager
        (m : ConversationManager.t) (newUrl : string) :
  let r := ConversationManager.updateWebSocketUrl newUrl m in
  if ConversationManager.isRunning m then
    r = (Throw (JsError "Cannot update WebSocket URL while conversation is active"),
         m, [])
  else
    completion r = Normal tt /\ effects r = [] /\
    ConversationManager.websocketUrl (after r) = newUrl /\
    ConversationManager.webSocketManager (after r) = WebSocketManager.new newUrl /\
    ConversationManager.audioInterface (after r) = ConversationManager.audioInterface m /\
    ConversationManager.state (after r) = ConversationManager.state m /\
    let restarted := ConversationManager.startConversation
                       WebSocketManager.SocketOpens AudioInterface.StartSucceeds
                       (after r) in
    completion restarted = Normal tt /\
    ConversationManager.isConnected (after restarted) = true.
Proof.
  destruct m as [url a [socket wurl wrun] running callback st].
  destruct running; [reflexivity|].
  destruct callback; vm_compute; repeat split; reflexivity.
Qed.

Lemma amplitudes_app (es1 es2 : list Effect) :
  amplitudes (es1 ++ es2) = amplitudes es1 ++ amplitudes es2.
Proof. apply flat_map_app. Qed.

(** The amplitude the session stores after the callbacks of an effect
    list: the last one reported. *)
Lemma callbacks_amplitude (es : list Effect) (s : ConversationManager.t) :
  currentAmplitude (ConversationManager.state
                      (after (ConversationManager.callbacks es s))) =
  last (amplitudes es) (currentAmplitude (ConversationManager.state s)).
Proof.
  revert s. induction es as [|e es IH]; intro s; [reflexivity|].
  cbn [ConversationManager.callbacks].
  set (step := match e with
               | AmplitudeCallback amplitude =>
                   ConversationManager.onAmplitudeChange amplitude
               | OnInterrupt => ConversationManager.onInterrupt
               | InputCallback audioData =>
                   ConversationManager.onAudioInput audioData
               | _ => emit e
               end).
  assert (Hstep :
    completion (step s) = Normal tt /\
    currentAmplitude (ConversationManager.state (after (step s))) =
    last (amplitudes [e]) (currentAmplitude (ConversationManager.state s))).
  { subst step. destruct s as [url a w running callback st].
    destruct e; cm_unfold; cbn; repeat break_match; cbn; split; reflexivity. }
  destruct Hstep as [Hc Ha].
  unfold bind. destruct (step s) as [[c s1] e1].
  cbn [completion after effects fst snd] in *. subst c.
  specialize (IH s1). destruct (ConversationManager.callbacks es s1) as [[c2 s2] e2].
  cbn [completion after effects fst snd] in *.
  rewrite IH, Ha. change (e :: es) with ([e] ++ es).
  rewrite amplitudes_app, last_app_default. reflexivity.
Qed.

Lemma processAudioData_amplitudes audioData currentTime now1 now2 a :
  AudioInterface.amplitudeCallback a = true ->
  amplitudes (effects (AudioInterface.processAudioData Math_sqrt audioData
                         currentTime now1 now2 a)) =
  [calculateRMS Math_sqrt audioData].
Proof. intro H. act_unfold. rewrite H. cbn. repeat break_match; reflexivity. Qed.

(** X27: the amplitude the observer gets.  On a session whose audio
    interface is capturing, every capture frame leaves in the published
    state the RMS of that frame after the noise floor: it is 0 or at
    least 0.02, never in between.  While the audio interface is not
    capturing a frame leaves the amplitude as it was. *)
Theorem published_amplitude_is_the_clamped_rms
        (m : ConversationManager.t) (audioData : list Q)
        (currentTime now1 now2 : Z) :
  AudioInterface.amplitudeCallback (ConversationManager.audioInterface m) = true ->
  let m' := after (ConversationManager.onaudioprocess Math_sqrt audioData
                     currentTime now1 now2 m) in
  let shown := currentAmplitude (ConversationManager.getState m') in
  if AudioInterface.isRunning (ConversationManager.audioInterface m) then
    shown = calculateRMS Math_sqrt audioData /\
    (shown = 0%Q \/ (2 # 100 <= shown)%Q)
  else
    shown = currentAmplitude (ConversationManager.getState m).
Proof.
  intro Hcallback. cbv zeta.
  unfold ConversationManager.onaudioprocess, ConversationManager.onAudioInterface,
    ConversationManager.getState.
  destruct (AudioInterface.isRunning (ConversationManager.audioInterface m)) eqn:Hrun.
  - rewrite onaudioprocess_running by exact Hrun.
    pose proof (processAudioData_amplitudes audioData currentTime now1 now2
                  (ConversationManager.audioInterface m) Hcallback) as Hamp.
    destruct (AudioInterface.processAudioData _ _ _ _ _ _) as [[c a'] es].
    cbn [effects snd] in Hamp.
    pose proof (callbacks_amplitude es (ConversationManager.set_audioInterface a' m)) as H.
    destruct (ConversationManager.callbacks es _) as [[c' s'] es'].
    cbn [after fst snd] in *. rewrite H, Hamp. cbn [last].
    split; [reflexivity|].
    destruct (calculateRMS_cases Math_sqrt audioData) as [[_ Hz] | [Hge He]].
    + left. exact Hz.
    + right. rewrite He. exact Hge.
  - rewrite onaudioprocess_stopped by exact Hrun. reflexivity.
Qed.

End EndpointAndAmplitude.

Lemma published_amplitude_is_the_clamped_rms_witness :
  currentAmplitude
    (ConversationManager.getState
       (after (ConversationManager.onaudioprocess Js.Qsqrt Example.speech010
                 1000 1000 1000 Example.session))) =
  calculateRMS Js.Qsqrt Example.speech010.
Proof.
  apply (published_amplitude_is_the_clamped_rms
           Js.Qsqrt Example.session Example.speech010 1000 1000 1000).
  reflexivity.
Defined.
